(** * IR linked list and template lowering: a shallow embedding

    The development follows
    [packages/compiler/src/render3/view/pipeline/ir/linked_list.ts]:
    an intrusive doubly-linked list ([LinkedList]) whose nodes carry their
    own [prev]/[next] links, and the template-to-IR lowering pass
    ([TemplateToIrConverter]) that emits nodes into two such lists.

    Objects are heap cells named by a location.  The two link fields of
    every node live in one store, [heap]; a location that was never written
    reads as [FRESH_NODE] (both links null).  Methods that mutate [this] and
    the nodes are state transformers over the pair of the list record and
    the heap. *)

From stdpp Require Import gmap strings list fin_maps.
From Stdlib Require Import ZArith Sorting.Sorted.

#[local] Open Scope Z_scope.
#[local] Open Scope nat_scope.

(** ** Nodes, heaps and list records *)

Definition loc := positive.
Bind Scope positive_scope with loc.

(** [interface LinkedListNode { next: T|null; prev: T|null; }] *)
Record LinkedListNode : Type := { next : option loc; prev : option loc }.

(** [const FRESH_NODE = { next: null, prev: null }] *)
Definition FRESH_NODE : LinkedListNode := {| next := None; prev := None |}.

#[global] Instance LinkedListNode_inhabited : Inhabited LinkedListNode :=
  populate FRESH_NODE.

#[global] Instance LinkedListNode_eq_dec : EqDecision LinkedListNode.
Proof. solve_decision. Defined.

Abbreviation heap := (gmap loc LinkedListNode).

(** [class LinkedList { head: T|null = null; tail: T|null = null; }] *)
Record LinkedList : Type := { head : option loc; tail : option loc }.

#[global] Instance LinkedList_eq_dec : EqDecision LinkedList.
Proof. solve_decision. Defined.

Definition new_LinkedList : LinkedList := {| head := None; tail := None |}.

(** The mutable state a list method works on: [this] and the node store. *)
Definition LS : Type := LinkedList * heap.

(** Field writes [n.next = v] and [n.prev = v]. *)
Definition set_next (n : loc) (v : option loc) (h : heap) : heap :=
  <[n := {| next := v; prev := prev (h !!! n) |}]> h.

Definition set_prev (n : loc) (v : option loc) (h : heap) : heap :=
  <[n := {| next := next (h !!! n); prev := v |}]> h.

Definition set_head (v : option loc) (l : LinkedList) : LinkedList :=
  {| head := v; tail := tail l |}.

Definition set_tail (v : option loc) (l : LinkedList) : LinkedList :=
  {| head := head l; tail := v |}.

(** ** Outcomes of a call

    A call returns normally, throws an [Error] with a message, fails on a
    null dereference ([TypeError]), or, for the loops that are given fuel,
    runs out of it.  The state reached is returned in every case: a throw
    does not undo the writes made before it. *)

Inductive res (A : Type) : Type :=
| Ok (a : A)
| Throw (msg : string)
| TypeError
| OutOfFuel.
Arguments Ok {A} a.
Arguments Throw {A} msg.
Arguments TypeError {A}.
Arguments OutOfFuel {A}.

Definition M (S A : Type) : Type := S → res A * S.

Definition ret {S A} (a : A) : M S A := fun s => (Ok a, s).

Definition bind {S A B} (m : M S A) (k : A → M S B) : M S B :=
  fun s =>
    match m s with
    | (Ok a, s') => k a s'
    | (Throw msg, s') => (Throw msg, s')
    | (TypeError, s') => (TypeError, s')
    | (OutOfFuel, s') => (OutOfFuel, s')
    end.

Definition throw {S A} (msg : string) : M S A := fun s => (Throw msg, s).
Definition type_error {S A} : M S A := fun s => (TypeError, s).
Definition out_of_fuel {S A} : M S A := fun s => (OutOfFuel, s).
Definition modify {S} (f : S → S) : M S unit := fun s => (Ok tt, f s).
Definition gets {S A} (f : S → A) : M S A := fun s => (Ok (f s), s).

#[global] Instance M_ret {S} : MRet (M S) := fun A a => ret a.
#[global] Instance M_bind {S} : MBind (M S) := fun A B k m => bind m k.

(** ** The list methods *)

(** [insertBefore(before, insert)] *)
Definition insertBefore (before insert : loc) (s : LS) : LS :=
  let '(l, h) := s in
  let l := if decide (head l = Some before) then set_head (Some insert) l else l in
  let h := set_prev insert (prev (h !!! before)) h in
  let h := set_next insert (Some before) h in
  let h := match prev (h !!! before) with
           | Some p => set_next p (Some insert) h
           | None => h
           end in
  let h := set_prev before (Some insert) h in
  (l, h).

(** [insertAfter(after, insert)] *)
Definition insertAfter (after insert : loc) (s : LS) : LS :=
  let '(l, h) := s in
  let l := if decide (tail l = Some after) then set_tail (Some insert) l else l in
  let h := set_prev insert (Some after) h in
  let h := set_next insert (next (h !!! after)) h in
  let h := match next (h !!! after) with
           | Some n => set_prev n (Some insert) h
           | None => h
           end in
  let h := set_next after (Some insert) h in
  (l, h).

(** [append(node)] *)
Definition append (node : loc) (s : LS) : LS :=
  let '(l, h) := s in
  match tail l with
  | Some t =>
      let h := set_prev node (Some t) h in
      let h := set_next t (Some node) h in
      (set_tail (Some node) l, h)
  | None => ({| head := Some node; tail := Some node |}, h)
  end.

(** [remove(node)]: returns the former [node.next]. *)
Definition remove (node : loc) : M LS (option loc) :=
  fun '(l, h) =>
    let next_ := next (h !!! node) in
    let finish (s : LS) : res (option loc) * LS :=
      let '(l, h) := s in
      (Ok next_, (l, set_next node None (set_prev node None h))) in
    if decide (head l = Some node) then
      let l := set_head (next (h !!! node)) l in
      let l := if decide (tail l = Some node)
               then set_tail (next (h !!! node)) l else l in
      finish (l, h)
    else
      match prev (h !!! node) with
      | Some p =>
          let h := set_next p (next (h !!! node)) h in
          if decide (tail l = Some node) then
            finish (set_tail (prev (h !!! node)) l, h)
          else
            match next (h !!! node) with
            | Some n => finish (l, set_prev n (prev (h !!! node)) h)
            | None =>
                (Throw "AssertionError: non-tail node has null next pointer", (l, h))
            end
      | None =>
          (Throw "AssertionError: non-head node has null prev pointer", (l, h))
      end.

(** [prependList(list)]: [this] is the list of the state, [list] the
    argument; only the argument's [head] and [tail] fields are read. *)
Definition prependList (list : LinkedList) (s : LS) : LS :=
  let '(l, h) := s in
  match tail list, head list with
  | Some lt, Some lh =>
      match head l with
      | None => ({| head := Some lh; tail := Some lt |}, h)
      | Some th =>
          let h := set_prev th (Some lt) h in
          let h := set_next lt (head l) h in
          (set_head (Some lh) l, h)
      end
  | _, _ => (l, h)
  end.

(** [forEach] pushing into an array, that is [toArray]; the [while] loop
    is given fuel. *)
Fixpoint forEach_from (fuel : nat) (h : heap) (node : option loc) : list loc :=
  match fuel, node with
  | S fuel', Some n => n :: forEach_from fuel' h (next (h !!! n))
  | _, _ => []
  end.

(** Every node with a non-null [next] is stored in the heap, so a chain
    without repetition has at most [size h + 1] nodes. *)
Definition toArray (s : LS) : list loc :=
  let '(l, h) := s in forEach_from (S (size h)) h (head l).

(** [forEach(cb)].  The callback is arbitrary code: it may read and write
    the list and the nodes, and has a state [X] of its own (the variables
    it captures).  The [while] loop is given fuel. *)
Fixpoint forEach_loop {X} (fuel : nat) (cb : loc → M (LS * X) unit)
    (node : option loc) : M (LS * X) unit :=
  match node with
  | None => mret tt
  | Some n =>
      match fuel with
      | O => out_of_fuel
      | S fuel' =>
          cb n;;
          node ← gets (fun s : LS * X => next (s.1.2 !!! n));
          forEach_loop fuel' cb node
      end
  end.

Definition forEach {X} (fuel : nat) (cb : loc → M (LS * X) unit) : M (LS * X) unit :=
  node ← gets (fun s : LS * X => head s.1.1);
  forEach_loop fuel cb node.

(** The callback [node => arr.push(node)] of [toArray]. *)
Definition push (node : loc) : M (LS * list loc) unit :=
  modify (fun s : LS * list loc => (s.1, s.2 ++ [node])).

(** The line feed, ['\n']. *)
Definition LF : string := String (Ascii.ascii_of_nat 10) EmptyString.

(** [toString(printer)]: the [for] loop, given fuel, collects the strings;
    they are joined with line feeds. *)
Fixpoint toString_loop (fuel : nat) (printer : loc → string) (h : heap)
    (node : option loc) (strings : list string) : res (list string) :=
  match node with
  | None => Ok strings
  | Some n =>
      match fuel with
      | O => OutOfFuel
      | S fuel' =>
          toString_loop fuel' printer h (next (h !!! n)) (strings ++ [printer n])
      end
  end.

Definition toString (fuel : nat) (printer : loc → string) (s : LS) : res string :=
  let '(l, h) := s in
  match toString_loop fuel printer h (head l) [] with
  | Ok strings => Ok (String.concat LF strings)
  | Throw msg => Throw msg
  | TypeError => TypeError
  | OutOfFuel => OutOfFuel
  end.

(** [sortSubset(start, end, cmp)].  The comparator is a function of the two
    nodes; its result is a JavaScript number, of which only the sign is
    used.

    The inner [for (pos = tmpStart; pos !== next; pos = pos.next)] loop:
    returns whether the node was inserted, and the new [tmpStart]. *)
Fixpoint sortSubset_scan (fuel : nat) (cmp : loc → loc → Z) (node : loc)
    (next_ : option loc) (pos : option loc) (tmpStart : loc) : M LS (bool * loc) :=
  match fuel with
  | O => out_of_fuel
  | S fuel' =>
      if decide (pos = next_) then mret (false, tmpStart)
      else
        match pos with
        | None => type_error
        | Some p =>
            if (cmp node p <? 0)%Z then
              modify (insertBefore p node);;
              mret (true, if decide (p = tmpStart) then node else tmpStart)
            else
              pos' ← gets (fun s : LS => next (s.2 !!! p));
              sortSubset_scan fuel' cmp node next_ pos' tmpStart
        end
  end.

(** The [do { ... } while (node !== end)] loop; [next_] is the variable
    [next] on entry to the body. *)
Fixpoint sortSubset_loop (fuel scan_fuel : nat) (cmp : loc → loc → Z) (end_ : loc)
    (next_ : option loc) (tmpStart tmpEnd : loc) : M LS (loc * loc) :=
  match fuel with
  | O => out_of_fuel
  | S fuel' =>
      match next_ with
      | None => type_error
      | Some node =>
          next_ ← gets (fun s : LS => next (s.2 !!! node));
          remove node;;
          r ← sortSubset_scan scan_fuel cmp node next_ (Some tmpStart) tmpStart;
          let '(inserted, tmpStart) := r in
          tmpEnd ← (if inserted : bool then mret tmpEnd
                    else
                      modify (match next_ with
                              | Some nx => insertBefore nx node
                              | None => append node
                              end);;
                      mret node) : M LS loc;
          if decide (node = end_) then mret (tmpStart, tmpEnd)
          else sortSubset_loop fuel' scan_fuel cmp end_ next_ tmpStart tmpEnd
      end
  end.

Definition sortSubset (fuel : nat) (start end_ : loc) (cmp : loc → loc → Z)
    : M LS (loc * loc) :=
  if decide (start = end_) then mret (start, end_)
  else
    next_ ← gets (fun s : LS => next (s.2 !!! start));
    sortSubset_loop fuel fuel cmp end_ next_ start start.

(** [interface Transform]: three optional hooks.  A hook is arbitrary code
    that may read and write the list and the nodes. *)
Record Transform : Type := {
  visitList : option (M LS unit);
  visit : option (loc → M LS loc);
  finalize : option (M LS unit)
}.

(** The relinking done after each call of [visit], on the returned node. *)
Definition relink (node : loc) (s : LS) : LS :=
  let '(l, h) := s in
  let '(l, h) := match prev (h !!! node) with
                 | Some p => (l, set_next p (Some node) h)
                 | None => (set_head (Some node) l, h)
                 end in
  match next (h !!! node) with
  | Some n => (l, set_prev n (Some node) h)
  | None => (set_tail (Some node) l, h)
  end.

(** The [while (node !== null)] loop of [applyTransform]. *)
Fixpoint applyTransform_loop (fuel : nat) (visit_ : loc → M LS loc)
    (node : option loc) : M LS unit :=
  match node with
  | None => mret tt
  | Some n =>
      match fuel with
      | O => out_of_fuel
      | S fuel' =>
          node ← visit_ n;
          modify (relink node);;
          node ← gets (fun s : LS => next (s.2 !!! node));
          applyTransform_loop fuel' visit_ node
      end
  end.

Definition applyTransform (fuel : nat) (transform : Transform) : M LS unit :=
  match visitList transform with Some f => f | None => mret tt end;;
  match visit transform with
  | Some v => node ← gets (fun s : LS => head s.1); applyTransform_loop fuel v node
  | None => mret tt
  end;;
  match finalize transform with Some f => f | None => mret tt end.

(** ** The lowering pass: collaborators

    [TemplateToIrConverter] imports the expression AST, the template AST,
    the IR node classes, [Scope], [ValuePreprocessor] and
    [AttributeMarker] from other files.  What it uses of them is modelled
    here from their description. *)

(** Modelled from the spec: the source expression AST
    ([expression_parser/ast]), missing here.  The converter only tests an
    expression for being an [ASTWithSource] envelope or an [Interpolation]
    (alternating literal strings and sub-expressions); the other
    constructors stand for the expression kinds it does not look into. *)
Inductive AST : Type :=
| ASTWithSource (ast : AST)
| Interpolation (strings : list string) (expressions : list AST)
| ImplicitReceiver
| PropertyRead (receiver : AST) (name : string)
| LiteralPrimitive (value : string)
| Binary (operation : string) (left right : AST).

(** Modelled from the spec: the template AST ([r3_ast], imported as
    [tmpl]), missing here, with the fields the converter reads. *)
Module tmpl.

Record TextAttribute : Type := { attr_name : string; attr_value : string }.
Record BoundAttribute : Type := { input_name : string; input_value : AST }.
Record Reference : Type := { ref_name : string; ref_value : string }.
Record Variable_ : Type := { var_name : string; var_value : string }.

Inductive Node : Type :=
| Element (name : string) (attributes : list TextAttribute)
    (inputs : list BoundAttribute) (references : list Reference)
    (children : list Node)
| Text (value : string)
| BoundText (value : AST)
| Template (tagName : string) (variables : list Variable_)
    (references : list Reference) (children : list Node)
| Content
| VariableNode (v : Variable_)
| ReferenceNode (r : Reference)
| TextAttributeNode (a : TextAttribute)
| BoundAttributeNode (a : BoundAttribute)
| BoundEvent
| Icu.

End tmpl.

(** Modelled from the spec: [ir.Id], the identifiers minted by a scope. *)
Definition Id := nat.

(** Modelled from the spec: the reference handle that
    [Scope.recordReference] returns. *)
Record Reference : Type := { ref_name : string; ref_owner : Id; ref_value : string }.

(** Modelled from the spec: [Scope], missing here: a tree of
    identifier-allocation contexts, one for each template nesting level.
    A scope mints identifiers from a counter of its own that starts at 0
    (in the nested template example of the spec the text inside the
    template has the id 0, as the first node of a root template has), and
    it records the references and variables declared in its template
    level.  [owners] is the place of the scope in the tree: the ids of the
    templates it is nested under, the innermost first; the root scope,
    which has no parent, has none.  An identifier is a number of a scope:
    the identifiers of a child scope are distinct from those of its
    ancestors, while their numbers may be the same. *)
Record Scope : Type := {
  nextId : Id;
  references : list Reference;
  variables : list (string * Id * string);
  owners : list Id
}.

(** Modelled from the spec: [Scope.root()], the scope of the top level. *)
Definition Scope_root : Scope :=
  {| nextId := 0; references := []; variables := []; owners := [] |}.

(** Modelled from the spec: [scope.child(ownerId)], a new scope for the
    template [ownerId] of the scope [parent], below [parent] in the scope
    tree.  It counts from 0 again: in the nested template example of the
    spec the text inside the template is numbered 0, although the
    template has taken the first id of its parent before.  Its
    identifiers are nonetheless distinct from those of its ancestors,
    which they may shadow: they are identifiers of another scope of the
    tree, the one at [owner :: owners parent]. *)
Definition Scope_child (owner : Id) (parent : Scope) : Scope :=
  {| nextId := 0; references := []; variables := [];
     owners := owner :: owners parent |}.

(** Modelled from the spec: [scope.allocateId()], the next identifier of
    the scope. *)
Definition Scope_allocateId (sc : Scope) : Id * Scope :=
  (nextId sc,
   {| nextId := S (nextId sc); references := references sc;
      variables := variables sc; owners := owners sc |}).

(** Modelled from the spec: [scope.recordReference(name, ownerId, value)],
    which records the reference and returns its handle. *)
Definition Scope_recordReference (name : string) (owner : Id) (value : string)
    (sc : Scope) : Reference * Scope :=
  let r := {| ref_name := name; ref_owner := owner; ref_value := value |} in
  (r, {| nextId := nextId sc; references := references sc ++ [r];
         variables := variables sc; owners := owners sc |}).

(** Modelled from the spec: [scope.recordVariable(name, ownerId, value)]. *)
Definition Scope_recordVariable (name : string) (owner : Id) (value : string)
    (sc : Scope) : Scope :=
  {| nextId := nextId sc; references := references sc;
     variables := variables sc ++ [(name, owner, value)]; owners := owners sc |}.

(** The identifiers that the scope [sc] has minted so far, each with the
    place of the scope in the scope tree. *)
Definition Scope_minted (sc : Scope) : list (list Id * Id) :=
  (fun id => (owners sc, id)) <$> seq 0 (nextId sc).

(** Modelled from the spec: [AttributeMarker], of which the converter uses
    the marker that separates the static attributes from the names of the
    bound inputs. *)
Inductive AttributeMarker : Type := Bindings.

(** An entry of the flattened attribute array, of type [string|number]. *)
Inductive AttrValue : Type :=
| AttrString (s : string)
| AttrMarker (m : AttributeMarker).

Section Lowering.

(** [ValuePreprocessor.process]: the expression preprocessor, a pure and
    total function from source expressions to IR expressions, both left
    abstract. *)
Context {IrExpr : Type} (process : AST → IrExpr).

(** Modelled from the spec: the IR node classes, with the fields the
    converter sets.  A field that the constructor does not receive starts
    as null (an empty list for the two lists of a [Template]). *)
Record InterpolationExpr : Type :=
  { interp_expressions : list IrExpr; interp_strings : list string }.

Inductive IrNode : Type :=
| ElementStart (id : Id) (name : string) (attrs : option (list AttrValue))
    (refs : option (list Reference))
| ElementEnd (id : Id)
| Text (id : Id) (value : option string)
| TextInterpolate (id : Id) (expr : InterpolationExpr)
| Template (id : Id) (tagName : string) (create_ update_ : LinkedList)
    (refs : option (list Reference))
| Property (id : Id) (name : string) (expr : IrExpr).

(** The converter object: [create], [update] and [scope]. *)
Record Converter : Type := {
  create : LinkedList;
  update : LinkedList;
  scope : Scope
}.

(** The objects the converter allocates: the links of every node, its other
    fields, and the next unused location. *)
Record World : Type := {
  links : heap;
  objs : gmap loc IrNode;
  next_loc : loc
}.

Definition World_empty : World := {| links := ∅; objs := ∅; next_loc := 1 |}.

Definition CS : Type := Converter * World.

(** [new C(...)]: a new node, with null links. *)
Definition alloc (n : IrNode) : M CS loc :=
  fun '(c, w) =>
    let l := next_loc w in
    (Ok l, (c, {| links := <[l := FRESH_NODE]> (links w);
                  objs := <[l := n]> (objs w);
                  next_loc := Pos.succ l |})).

(** [this.create.append(node)] and [this.update.append(node)]. *)
Definition create_append (node : loc) : M CS unit :=
  modify (fun '(c, w) =>
    let '(l, h) := append node (create c, links w) in
    ({| create := l; update := update c; scope := scope c |},
     {| links := h; objs := objs w; next_loc := next_loc w |})).

Definition update_append (node : loc) : M CS unit :=
  modify (fun '(c, w) =>
    let '(l, h) := append node (update c, links w) in
    ({| create := create c; update := l; scope := scope c |},
     {| links := h; objs := objs w; next_loc := next_loc w |})).

(** [this.scope.allocateId()] and [this.scope.recordReference(...)]. *)
Definition allocateId : M CS Id :=
  fun '(c, w) =>
    let '(id, sc) := Scope_allocateId (scope c) in
    (Ok id, ({| create := create c; update := update c; scope := sc |}, w)).

Definition recordReference (name : string) (owner : Id) (value : string)
    : M CS Reference :=
  fun '(c, w) =>
    let '(r, sc) := Scope_recordReference name owner value (scope c) in
    (Ok r, ({| create := create c; update := update c; scope := sc |}, w)).

(** Assignment to a field of an allocated node; [f] gives the node with the
    field written, when the node is of a class that has the field. *)
Definition set_obj (l : loc) (f : IrNode → option IrNode) : M CS unit :=
  fun '(c, w) =>
    match objs w !! l ≫= f with
    | Some n => (Ok tt, (c, {| links := links w; objs := <[l := n]> (objs w);
                               next_loc := next_loc w |}))
    | None => (TypeError, (c, w))
    end.

Definition set_refs (refs : option (list Reference)) (n : IrNode) : option IrNode :=
  match n with
  | ElementStart id name attrs _ => Some (ElementStart id name attrs refs)
  | Template id tag cr up _ => Some (Template id tag cr up refs)
  | _ => None
  end.

Definition set_attrs (attrs : option (list AttrValue)) (n : IrNode) : option IrNode :=
  match n with
  | ElementStart id name _ refs => Some (ElementStart id name attrs refs)
  | _ => None
  end.

(** [elementStart.attrs.push(v)] *)
Definition attrs_push (v : AttrValue) (n : IrNode) : option IrNode :=
  match n with
  | ElementStart id name (Some attrs) refs =>
      Some (ElementStart id name (Some (attrs ++ [v])) refs)
  | _ => None
  end.

Definition set_create (l : LinkedList) (n : IrNode) : option IrNode :=
  match n with
  | Template id tag _ up refs => Some (Template id tag l up refs)
  | _ => None
  end.

Definition set_update (l : LinkedList) (n : IrNode) : option IrNode :=
  match n with
  | Template id tag cr _ refs => Some (Template id tag cr l refs)
  | _ => None
  end.

(** A [for (const x of xs)] loop. *)
Fixpoint for_each {S A} (xs : list A) (body : A → M S unit) : M S unit :=
  match xs with
  | [] => mret tt
  | x :: xs' => body x;; for_each xs' body
  end.

(** The loop that fills [refs], when the node declares references. *)
Fixpoint record_refs (owner : Id) (rs : list tmpl.Reference) : M CS (list Reference) :=
  match rs with
  | [] => mret []
  | r :: rs' =>
      h ← recordReference (tmpl.ref_name r) owner (tmpl.ref_value r);
      t ← record_refs owner rs';
      mret (h :: t)
  end.

Definition collect_refs (owner : Id) (rs : list tmpl.Reference)
    : M CS (option (list Reference)) :=
  if bool_decide (0 < length rs) then refs ← record_refs owner rs; mret (Some refs)
  else mret None.

(** [visitElement(element)]; [visit_children] is
    [tmpl.visitAll(this, element.children)]. *)
Definition visitElement (name : string) (attributes : list tmpl.TextAttribute)
    (inputs : list tmpl.BoundAttribute) (references : list tmpl.Reference)
    (visit_children : M CS unit) : M CS unit :=
  id ← allocateId;
  refs ← collect_refs id references;
  elementStart ← alloc (ElementStart id name None None);
  set_obj elementStart (set_refs refs);;
  create_append elementStart;;
  (if bool_decide (0 < length attributes) || bool_decide (0 < length inputs) then
     set_obj elementStart (set_attrs (Some []));;
     for_each attributes (fun attr =>
       set_obj elementStart (attrs_push (AttrString (tmpl.attr_name attr)));;
       set_obj elementStart (attrs_push (AttrString (tmpl.attr_value attr))));;
     (if bool_decide (0 < length inputs) then
        set_obj elementStart (attrs_push (AttrMarker Bindings))
      else mret tt);;
     for_each inputs (fun input =>
       set_obj elementStart (attrs_push (AttrString (tmpl.input_name input)));;
       property ← alloc (Property id (tmpl.input_name input)
                           (process (tmpl.input_value input)));
       update_append property)
   else mret tt);;
  visit_children;;
  elementEnd ← alloc (ElementEnd id);
  create_append elementEnd.

(** [visitText(text)] *)
Definition visitText (value : string) : M CS unit :=
  id ← allocateId;
  text ← alloc (Text id (Some value));
  create_append text.

(** [visitBoundText(text)] *)
Definition visitBoundText (value : AST) : M CS unit :=
  id ← allocateId;
  text ← alloc (Text id None);
  create_append text;;
  let top := match value with ASTWithSource a => a | _ => value end in
  match top with
  | Interpolation strings expressions =>
      node ← alloc (TextInterpolate id
                      {| interp_expressions := process <$> expressions;
                         interp_strings := strings |});
      update_append node
  | _ => throw "BoundText is not an interpolation expression?"
  end.

(** The converter that [parseChild] makes for a nested template, once the
    template's variables are recorded in its scope. *)
Definition child_converter (id : Id) (variables : list tmpl.Variable_)
    (parent : Scope) : Converter :=
  {| create := new_LinkedList;
     update := new_LinkedList;
     scope := fold_left
                (fun sc v => Scope_recordVariable (tmpl.var_name v) id (tmpl.var_value v) sc)
                variables (Scope_child id parent) |}.

(** [parseChild(id, input)]: the children are visited by the new
    converter, which is returned ([finalize]); [this] is left as it was. *)
Definition parseChild (id : Id) (variables : list tmpl.Variable_)
    (visit_children : M CS unit) : M CS Converter :=
  fun '(c, w) =>
    match visit_children (child_converter id variables (scope c), w) with
    | (Ok _, (parser, w')) => (Ok parser, (c, w'))
    | (Throw msg, (_, w')) => (Throw msg, (c, w'))
    | (TypeError, (_, w')) => (TypeError, (c, w'))
    | (OutOfFuel, (_, w')) => (OutOfFuel, (c, w'))
    end.

(** [visitTemplate(template)] *)
Definition visitTemplate (tagName : string) (variables : list tmpl.Variable_)
    (references : list tmpl.Reference) (visit_children : M CS unit) : M CS unit :=
  id ← allocateId;
  parsed ← parseChild id variables visit_children;
  refs ← collect_refs id references;
  view ← alloc (Template id
                  (if decide (tagName ≠ EmptyString) then tagName else "ng-template")
                  new_LinkedList new_LinkedList None);
  create_append view;;
  set_obj view (set_create (create parsed));;
  set_obj view (set_update (update parsed));;
  set_obj view (set_refs refs).

(** [node.visit(this)]: the dispatch on the class of the node. *)
Fixpoint Node_visit (node : tmpl.Node) : M CS unit :=
  match node with
  | tmpl.Element name attributes inputs references children =>
      visitElement name attributes inputs references
        ((fix visitAll (nodes : list tmpl.Node) : M CS unit :=
            match nodes with
            | [] => mret tt
            | n :: nodes' => Node_visit n;; visitAll nodes'
            end) children)
  | tmpl.Text value => visitText value
  | tmpl.BoundText value => visitBoundText value
  | tmpl.Template tagName variables references children =>
      visitTemplate tagName variables references
        ((fix visitAll (nodes : list tmpl.Node) : M CS unit :=
            match nodes with
            | [] => mret tt
            | n :: nodes' => Node_visit n;; visitAll nodes'
            end) children)
  | _ => throw "Method not implemented."
  end.

(** [ir.RootTemplate] *)
Record RootTemplate : Type := {
  root_create : LinkedList;
  root_update : LinkedList;
  root_scope : Scope;
  root_name : option string
}.

(** [TemplateToIrConverter.parseRoot(input)] *)
Definition parseRoot (input : list tmpl.Node) : M World RootTemplate :=
  fun w =>
    let parser := {| create := new_LinkedList; update := new_LinkedList;
                     scope := Scope_root |} in
    match for_each input Node_visit (parser, w) with
    | (Ok _, (c, w')) =>
        (Ok {| root_create := create c; root_update := update c;
               root_scope := scope c; root_name := None |}, w')
    | (Throw msg, (_, w')) => (Throw msg, w')
    | (TypeError, (_, w')) => (TypeError, w')
    | (OutOfFuel, (_, w')) => (OutOfFuel, w')
    end.

(** [parse(input, name)] *)
Definition parse (input : list tmpl.Node) (name : string) : M World RootTemplate :=
  root ← parseRoot input;
  mret {| root_create := root_create root; root_update := root_update root;
          root_scope := root_scope root; root_name := Some name |}.

(** The nodes of a list with their fields, in traversal order. *)
Definition contents (w : World) (l : LinkedList) : list (option IrNode) :=
  (fun n => objs w !! n) <$> toArray (l, links w).

End Lowering.

(** ** Representation of a list by its sequence of nodes *)

(** [dlseg h p first xs last n]: the nodes [xs] are linked in this order,
    the first one is [first] and points back to [p], the last one is
    [last] and points on to [n].  For an empty segment [first] is [n] and
    [last] is [p]. *)
Fixpoint dlseg (h : heap) (p first : option loc) (xs : list loc)
    (last_ n : option loc) : Prop :=
  match xs with
  | [] => first = n ∧ last_ = p
  | x :: xs' =>
      first = Some x ∧ prev (h !!! x) = p ∧
      dlseg h (Some x) (next (h !!! x)) xs' last_ n
  end.

(** The list of the state [s] is the sequence [xs] of distinct nodes. *)
Definition is_list (s : LS) (xs : list loc) : Prop :=
  NoDup xs ∧ dlseg s.2 None (head s.1) xs (tail s.1) None.

(** Two heaps give the nodes [xs] the same links. *)
Definition agree_on (xs : list loc) (h h' : heap) : Prop :=
  ∀ x, x ∈ xs → next (h' !!! x) = next (h !!! x) ∧ prev (h' !!! x) = prev (h !!! x).

(** ** Specifications used in the statements *)

(** [reach h o a]: following [next] links from [o] comes to the node [a]. *)
Inductive reach (h : heap) : option loc → loc → Prop :=
| reach_here x : reach h (Some x) x
| reach_next x y : reach h (next (h !!! x)) y → reach h (Some x) y.

(** The chain invariants of a list, as the class keeps them: [head] is
    null exactly when [tail] is; the head has no predecessor and the tail
    no successor; following [next] and then [prev] from a node of the
    chain comes back to it. *)

Definition invariants (s : LS) : Prop :=
  (head s.1 = None ↔ tail s.1 = None) ∧
  (∀ x, head s.1 = Some x → prev (s.2 !!! x) = None) ∧
  (∀ x, tail s.1 = Some x → next (s.2 !!! x) = None) ∧
  (∀ a b, reach s.2 (head s.1) a → next (s.2 !!! a) = Some b →
          prev (s.2 !!! b) = Some a).

(** A [visit] hook that puts a newly constructed node [repl n] in the place
    of every node [n] it is called on: the new node takes over the links of
    the old one.  What the hook does with the old node is left open: it may
    keep its links or clear them.  The hook touches no other node, and not
    the list. *)
Definition replacing_visit (repl : loc → loc) (v : loc → M LS loc) : Prop :=
  ∀ n l h, ∃ h',
    v n (l, h) = (Ok (repl n), (l, h')) ∧
    h' !!! repl n = h !!! n ∧
    ∀ m, m ≠ n → m ≠ repl n → h' !!! m = h !!! m.

(** Insertion of [n] before the first node that it is strictly less than;
    at the end when there is none. *)
Fixpoint insert_sorted (cmp : loc → loc → Z) (n : loc) (S : list loc) : list loc :=
  match S with
  | [] => [n]
  | p :: S' => if (cmp n p <? 0)%Z then n :: p :: S' else p :: insert_sorted cmp n S'
  end.

(** Insertion sort: the nodes are inserted one by one, in input order. *)
Definition isort (cmp : loc → loc → Z) (xs : list loc) : list loc :=
  fold_left (fun S n => insert_sorted cmp n S) xs [].

(** An operation of the list interface, with its arguments. *)
Inductive op : Type :=
| Append (node : loc)
| InsertBefore (before insert : loc)
| InsertAfter (after insert : loc)
| Remove (node : loc)
| PrependList (list : LinkedList).

(** The call of the method. *)
Definition run_op (o : op) : M LS unit :=
  match o with
  | Append n => modify (append n)
  | InsertBefore b n => modify (insertBefore b n)
  | InsertAfter a n => modify (insertAfter a n)
  | Remove n => remove n;; mret tt
  | PrependList other => modify (prependList other)
  end.

(** [n] is a member of the list: the traversal meets it. *)
Definition member (s : LS) (n : loc) : Prop := n ∈ toArray s.

(** [n] is fresh or detached: not a member, and both its links are null. *)
Definition detached (s : LS) (n : loc) : Prop :=
  n ∉ toArray s ∧ s.2 !!! n = FRESH_NODE.

(** The precondition of each operation: inserted nodes are fresh or
    detached, reference and removed nodes are members, and a list that is
    prepended is a well-formed list that shares no node with this one. *)
Definition precondition (o : op) (s : LS) : Prop :=
  match o with
  | Append n => detached s n
  | InsertBefore b n | InsertAfter b n => member s b ∧ detached s n
  | Remove n => member s n
  | PrependList other =>
      is_list (other, s.2) (toArray (other, s.2)) ∧
      ∀ y, y ∈ toArray (other, s.2) → y ∉ toArray s
  end.

(** The operation removes the head of a list that has more nodes. *)
Definition removes_head_with_successor (o : op) (s : LS) : Prop :=
  match o with
  | Remove n => head s.1 = Some n ∧ tail s.1 ≠ Some n
  | _ => False
  end.

(** Every operation of the sequence meets its precondition in the state it
    is called in. *)
Fixpoint preconditions_met (os : list op) (s : LS) : Prop :=
  match os with
  | [] => True
  | o :: os' => precondition o s ∧ preconditions_met os' (run_op o s).2
  end.

(** Moreover, none removes a head that has a successor. *)
Fixpoint ops_ok (os : list op) (s : LS) : Prop :=
  match os with
  | [] => True
  | o :: os' =>
      precondition o s ∧ ¬ removes_head_with_successor o s ∧
      ops_ok os' (run_op o s).2
  end.

(** [a] occurs before [b] in [xs]: the two of them, in this order, are a
    subsequence of [xs]. *)
Definition before (xs : list loc) (a b : loc) : Prop := [a; b] `sublist_of` xs.

(** [b] is not strictly less than [a]. *)
Definition not_less (cmp : loc → loc → Z) (a b : loc) : Prop := ¬ (cmp b a < 0)%Z.

(** No node is strictly less than a node that comes before it. *)
Definition non_decreasing (cmp : loc → loc → Z) (xs : list loc) : Prop :=
  ∀ a b, before xs a b → not_less cmp a b.

(** The relation [cmp a b < 0] is a strict partial order. *)
Definition strict_order (cmp : loc → loc → Z) : Prop :=
  (∀ a, ¬ (cmp a a < 0)%Z) ∧
  (∀ a b c, (cmp a b < 0)%Z → (cmp b c < 0)%Z → (cmp a c < 0)%Z).

(** It is moreover a strict weak order: being incomparable is transitive. *)
Definition weak_order (cmp : loc → loc → Z) : Prop :=
  strict_order cmp ∧
  (∀ a b c, (cmp a c < 0)%Z → (cmp a b < 0)%Z ∨ (cmp b c < 0)%Z).

Section LoweringSpecs.
Context {IrExpr : Type}.

(** The two lists of a converter are the sequences [cs] and [us] of
    allocated nodes, and share no node. *)
Definition lists_ok (s : @CS IrExpr) (cs us : list loc) : Prop :=
  is_list (create s.1, links s.2) cs ∧
  is_list (update s.1, links s.2) us ∧
  (∀ x, x ∈ cs → x ∉ us) ∧
  (∀ x, x ∈ cs ++ us → (x < next_loc s.2)%positive).

(** The nodes [F] are allocated and are in neither list of the converter:
    they are nodes of other lists. *)
Definition foreign (F : list loc) (s : @CS IrExpr) (cs us : list loc) : Prop :=
  ∀ x, x ∈ F → (x < next_loc s.2)%positive ∧ x ∉ cs ∧ x ∉ us.

(** The node [l] is allocated, has null links, and is in no list. *)
Definition appendable (F : list loc) (l : loc) (s : @CS IrExpr) (cs us : list loc) : Prop :=
  l ∉ cs ∧ l ∉ us ∧ l ∉ F ∧ links s.2 !!! l = FRESH_NODE ∧ (l < next_loc s.2)%positive.

(** A triple for the computations of the converter: from a state with
    well-formed lists [cs] and [us] that satisfies [P], the computation
    leads, whether it returns or throws, to a state in which the lists are
    well formed and have only grown, and the nodes [F] of other lists have
    the links they had; the state satisfies [Q] when the computation
    returns. *)
Definition triple {A} (F : list loc)
    (P : @CS IrExpr → list loc → list loc → Prop) (m : M (@CS IrExpr) A)
    (Q : A → @CS IrExpr → list loc → list loc → Prop) : Prop :=
  ∀ s cs us, lists_ok s cs us → foreign F s cs us → P s cs us →
    ∃ cs' us',
      lists_ok (m s).2 (cs ++ cs') (us ++ us') ∧
      foreign F (m s).2 (cs ++ cs') (us ++ us') ∧
      agree_on F (links s.2) (links (m s).2.2) ∧
      (next_loc s.2 ≤ next_loc (m s).2.2)%positive ∧
      (∀ a, (m s).1 = Ok a → Q a (m s).2 (cs ++ cs') (us ++ us')).

Definition any (s : @CS IrExpr) (cs us : list loc) : Prop := True.

Definition preserves {A} (m : M (@CS IrExpr) A) : Prop :=
  ∀ F, triple F any m (fun _ => any).

End LoweringSpecs.

(** ** Examples and concrete inputs *)

(** The template of the lowering example: [<div class="a" [id]="x">hi</div>]. *)
Definition example_x : AST := PropertyRead ImplicitReceiver "x".

Definition example_div : tmpl.Node :=
  tmpl.Element "div"
    [{| tmpl.attr_name := "class"; tmpl.attr_value := "a" |}]
    [{| tmpl.input_name := "id"; tmpl.input_value := example_x |}]
    []
    [tmpl.Text "hi"].

(** The value of a bound text with its [ASTWithSource] envelope, if it has
    one, removed: the variable [top] of [visitBoundText]. *)
Definition unwrapped (value : AST) : AST :=
  match value with ASTWithSource a => a | _ => value end.

(** The expression [e] is not an instance of [Interpolation]. *)
Definition not_interpolation (e : AST) : Prop :=
  match e with Interpolation _ _ => False | _ => True end.

(** The list of the nodes 1 to 4, appended in this order to an empty list. *)
Definition list1234 : LS :=
  append 4 (append 3 (append 2 (append 1 (new_LinkedList, ∅)))).

(** A comparator: the nodes in descending order of their names. *)
Definition descending (a b : loc) : Z := (Z.pos b - Z.pos a)%Z.

(** A comparator for a strict partial order that is not a weak order:
    node 3 is less than node 1, and no other two nodes are ordered. *)
Definition only_3_before_1 (a b : loc) : Z :=
  if decide (a = 3%positive ∧ b = 1%positive) then (-1)%Z
  else if decide (a = 1%positive ∧ b = 3%positive) then 1%Z else 0%Z.

(** The list of the nodes 1 to 3. *)
Definition list123 : LS := append 3 (append 2 (append 1 (new_LinkedList, ∅))).

(** A [visit] hook that replaces the node [n] by a new node [n + 10], which
    takes over the links of [n], and clears the links of [n]. *)
Definition move_visit (n : loc) : M LS loc :=
  fun '(l, h) =>
    (Ok (n + 10)%positive,
     (l, <[n := FRESH_NODE]> (<[(n + 10)%positive := h !!! n]> h))).

(** Two lists in one heap: node 1 alone, and the nodes 2 and 3. *)
Definition two_lists : LS * LinkedList :=
  let '(l1, h1) := append 1 (new_LinkedList, ∅) in
  let '(l2, h2) := append 3 (append 2 (new_LinkedList, h1)) in
  ((l1, h2), l2).

(** A preprocessor for the examples: it returns the expression as it is. *)
Definition same_expr (e : AST) : AST := e.

(** [new TemplateToIrConverter(Scope.root())] *)
Definition new_converter : Converter :=
  {| create := new_LinkedList; update := new_LinkedList; scope := Scope_root |}.

(** The bound text [{{y}}]. *)
Definition example_y : AST := PropertyRead ImplicitReceiver "y".

Definition example_interpolation : AST :=
  ASTWithSource (Interpolation [EmptyString; EmptyString] [example_y]).

(** Lowering the child [{{y}}] of a nested template in a new converter. *)
Definition example_child_run : res unit * @CS AST :=
  Node_visit same_expr (tmpl.BoundText example_interpolation)
    (child_converter 0 [] (Scope_allocateId Scope_root).2, World_empty).

(** ** Further specifications of the list *)

(** Two heaps give every node the same links. *)
Definition same_links (h h' : heap) : Prop := ∀ m, h' !!! m = h !!! m.

(** A callback that leaves the list and the links of the nodes alone. *)
Definition keeps_list {X} (cb : loc → M (LS * X) unit) : Prop :=
  ∀ n s, (cb n s).2.1 = s.1.

(** A callback that removes the node it is given from the list. *)
Definition remove_cb {X} (n : loc) : M (LS * X) unit :=
  fun s => let '(r, ls) := remove n s.1 in
           (match r with
            | Ok _ => Ok tt
            | Throw msg => Throw msg
            | TypeError => TypeError
            | OutOfFuel => OutOfFuel
            end, (ls, s.2)).

(** A [visit] hook that returns the node it is given and does nothing. *)
Definition same_node (n : loc) : M LS loc := mret n.

(** ** The lowering as a function

    A reference for the lowering pass, written from the code of the visit
    methods with the node store left out: what a visit emits into the
    create list and into the update list, as values, and the scope it
    leaves; a [Template] node holds the values of its two lists.  The
    theorems on the converter compare it with this function. *)

Section Reference.
Context {IrExpr : Type} (process : AST → IrExpr).

(** The IR nodes as values. *)
Inductive Ir : Type :=
| IrElementStart (id : Id) (name : string) (attrs : option (list AttrValue))
    (refs : option (list Reference))
| IrElementEnd (id : Id)
| IrText (id : Id) (value : option string)
| IrTextInterpolate (id : Id) (expr : @InterpolationExpr IrExpr)
| IrTemplate (id : Id) (tagName : string) (create_ update_ : list Ir)
    (refs : option (list Reference))
| IrProperty (id : Id) (name : string) (expr : IrExpr).

(** The scope reached, the nodes emitted into the create list and the nodes
    emitted into the update list. *)
Definition Emitted : Type := Scope * list Ir * list Ir.

(** The flattened attribute array of an element: null when the element has
    neither attributes nor inputs. *)
Definition element_attrs (attributes : list tmpl.TextAttribute)
    (inputs : list tmpl.BoundAttribute) : option (list AttrValue) :=
  if bool_decide (0 < length attributes) || bool_decide (0 < length inputs) then
    Some (flat_map (fun a => [AttrString (tmpl.attr_name a);
                              AttrString (tmpl.attr_value a)]) attributes
          ++ (if bool_decide (0 < length inputs) then [AttrMarker Bindings] else [])
          ++ ((fun i => AttrString (tmpl.input_name i)) <$> inputs))
  else None.

(** The references of a node, recorded in the scope in their order. *)
Fixpoint lower_refs_list (owner : Id) (rs : list tmpl.Reference) (sc : Scope)
    : list Reference * Scope :=
  match rs with
  | [] => ([], sc)
  | r :: rs' =>
      let '(h, sc) := Scope_recordReference (tmpl.ref_name r) owner (tmpl.ref_value r) sc in
      let '(t, sc) := lower_refs_list owner rs' sc in
      (h :: t, sc)
  end.

Definition lower_refs (owner : Id) (rs : list tmpl.Reference) (sc : Scope)
    : option (list Reference) * Scope :=
  if bool_decide (0 < length rs) then
    let '(refs, sc) := lower_refs_list owner rs sc in (Some refs, sc)
  else (None, sc).

(** Lowering the nodes of a list one after the other; the first error ends
    it. *)
Definition lower_seq (lower : tmpl.Node → Scope → string + Emitted)
    : list tmpl.Node → Scope → string + Emitted :=
  fix go (nodes : list tmpl.Node) (sc : Scope) : string + Emitted :=
    match nodes with
    | [] => inr (sc, [], [])
    | n :: nodes' =>
        match lower n sc with
        | inl msg => inl msg
        | inr (sc, cr, up) =>
            match go nodes' sc with
            | inl msg => inl msg
            | inr (sc, cr', up') => inr (sc, cr ++ cr', up ++ up')
            end
        end
    end.

Fixpoint lower (node : tmpl.Node) (sc : Scope) : string + Emitted :=
  match node with
  | tmpl.Element name attributes inputs references children =>
      let '(id, sc) := Scope_allocateId sc in
      let '(refs, sc) := lower_refs id references sc in
      match lower_seq lower children sc with
      | inl msg => inl msg
      | inr (sc, cr, up) =>
          inr (sc,
               IrElementStart id name (element_attrs attributes inputs) refs
                 :: cr ++ [IrElementEnd id],
               ((fun i => IrProperty id (tmpl.input_name i)
                            (process (tmpl.input_value i))) <$> inputs) ++ up)
      end
  | tmpl.Text value =>
      let '(id, sc) := Scope_allocateId sc in
      inr (sc, [IrText id (Some value)], [])
  | tmpl.BoundText value =>
      let '(id, sc) := Scope_allocateId sc in
      match unwrapped value with
      | Interpolation strings expressions =>
          inr (sc, [IrText id None],
               [IrTextInterpolate id
                  {| interp_expressions := process <$> expressions;
                     interp_strings := strings |}])
      | _ => inl "BoundText is not an interpolation expression?"
      end
  | tmpl.Template tagName variables references children =>
      let '(id, sc) := Scope_allocateId sc in
      match lower_seq lower children
              (scope (child_converter id variables sc)) with
      | inl msg => inl msg
      | inr (_, cr, up) =>
          let '(refs, sc) := lower_refs id references sc in
          inr (sc,
               [IrTemplate id
                  (if decide (tagName = EmptyString) then "ng-template" else tagName)
                  cr up refs],
               [])
      end
  | _ => inl "Method not implemented."
  end.

Definition lower_all : list tmpl.Node → Scope → string + Emitted := lower_seq lower.

(** The value of a node that is not a [Template]. *)
Definition leaf (n : @IrNode IrExpr) : option Ir :=
  match n with
  | ElementStart id name attrs refs => Some (IrElementStart id name attrs refs)
  | ElementEnd id => Some (IrElementEnd id)
  | Text id value => Some (IrText id value)
  | TextInterpolate id expr => Some (IrTextInterpolate id expr)
  | Property id name expr => Some (IrProperty id name expr)
  | Template _ _ _ _ _ => None
  end.

(** [rep w l t F]: the node [l] of the store [w] has the value [t]; [F] are
    the nodes of the lists below it.  [reps] is the same for a sequence of
    nodes. *)
Inductive rep (w : @World IrExpr) : loc → Ir → list loc → Prop :=
| rep_leaf l n t : objs w !! l = Some n → leaf n = Some t → rep w l t []
| rep_template l id tag cr up refs cs us tcs tus Fc Fu :
    objs w !! l = Some (Template id tag cr up refs) →
    is_list (cr, links w) cs → is_list (up, links w) us →
    reps w cs tcs Fc → reps w us tus Fu →
    rep w l (IrTemplate id tag tcs tus refs) (cs ++ Fc ++ us ++ Fu)
with reps (w : @World IrExpr) : list loc → list Ir → list loc → Prop :=
| reps_nil : reps w [] [] []
| reps_cons l t F ls ts Fs :
    rep w l t F → reps w ls ts Fs → reps w (l :: ls) (t :: ts) (F ++ Fs).

Scheme rep_mut := Induction for rep Sort Prop
  with reps_mut := Induction for reps Sort Prop.

Combined Scheme rep_reps_mut from rep_mut, reps_mut.

(** The list [l] of the store [w] holds the values [ts]. *)
Definition holds (w : @World IrExpr) (l : LinkedList) (ts : list Ir) : Prop :=
  ∃ ls F, is_list (l, links w) ls ∧ reps w ls ts F.

(** What a computation of the converter leaves alone: the allocation
    counter only grows, the nodes allocated before keep their fields, and,
    the nodes [cs] and [us] of the lists of the converter apart, their
    links. *)
Definition frame (w w' : @World IrExpr) (cs us : list loc) : Prop :=
  (next_loc w ≤ next_loc w')%positive ∧
  (∀ l, (l < next_loc w)%positive → objs w' !! l = objs w !! l) ∧
  (∀ l, (l < next_loc w)%positive → l ∉ cs → l ∉ us →
        links w' !!! l = links w !!! l).

(** [lowered s cs us r e]: the run [r] of a visit, from the state [s] in
    which the lists of the converter are [cs] and [us], does what the
    function says with [e].  When [e] is an error, the run throws it.
    Otherwise the run returns, in the scope computed, and has appended to
    the two lists new nodes that have the values emitted.  In both cases
    the run leaves alone what [frame] says. *)
Definition lowered (s : @CS IrExpr) (cs us : list loc)
    (r : res unit * @CS IrExpr) (e : string + Emitted) : Prop :=
  frame s.2 r.2.2 cs us ∧
  match e with
  | inl msg => r.1 = Throw msg
  | inr (sc, tcs, tus) =>
      r.1 = Ok tt ∧ scope r.2.1 = sc ∧
      ∃ cs1 us1 Fc Fu,
        lists_ok r.2 (cs ++ cs1) (us ++ us1) ∧
        reps r.2.2 cs1 tcs Fc ∧ reps r.2.2 us1 tus Fu ∧
        (∀ x, x ∈ cs1 ++ us1 ++ Fc ++ Fu →
              (next_loc s.2 ≤ x)%positive ∧ (x < next_loc r.2.2)%positive) ∧
        (∀ x, x ∈ Fc ++ Fu → x ∉ cs1 ∧ x ∉ us1)
  end.

End Reference.


Section Shape.
Context {IrExpr : Type}.

(** A node of an update list: a binding. *)
Definition is_binding (t : @Ir IrExpr) : Prop :=
  match t with
  | IrProperty _ _ _ | IrTextInterpolate _ _ => True
  | _ => False
  end.

(** A well-nested create list: every [ElementStart] is closed by the
    [ElementEnd] of the same id, with a well-nested sequence between the
    two; the create list of a [Template] is well nested too, and its update
    list holds bindings. *)
Inductive balanced : list (@Ir IrExpr) → Prop :=
| balanced_nil : balanced []
| balanced_element id name attrs refs inner rest :
    balanced inner → balanced rest →
    balanced (IrElementStart id name attrs refs :: inner ++ IrElementEnd id :: rest)
| balanced_text id value rest :
    balanced rest → balanced (IrText id value :: rest)
| balanced_template id tag cr up refs rest :
    balanced cr → Forall is_binding up → balanced rest →
    balanced (IrTemplate id tag cr up refs :: rest).

End Shape.

Section Ids.
Context {IrExpr : Type}.








End Ids.

(** ** Further concrete inputs *)

(** A printer: the name of a node is its number of binary digits. *)
Definition digits (n : loc) : string :=
  match n with
  | xH => "1"
  | xO xH | xI xH => "2"
  | _ => "3+"
  end.

(** A comparator: the nodes in ascending order of their names. *)
Definition ascending (a b : loc) : Z := (Z.pos a - Z.pos b)%Z.

(** A sequence of operations on an empty list. *)
Definition example_ops : list op :=
  [Append 1; Append 2; InsertAfter 1 3; Remove 2; InsertBefore 1 4; Remove 1].

(** An element with a nested template: [<p><ng-template>{{y}}</ng-template></p>]. *)
Definition example_nested : tmpl.Node :=
  tmpl.Element "p" [] [] []
    [tmpl.Template EmptyString [] [] [tmpl.BoundText example_interpolation]].

(** * Proofs *)

(** ** Reading the links after a write *)

Lemma next_set_next n v h m :
  next (set_next n v h !!! m) = if decide (m = n) then v else next (h !!! m).
Proof.
  unfold set_next. case_decide as E.
  - subst. by rewrite lookup_total_insert_eq.
  - by rewrite lookup_total_insert_ne.
Qed.

Lemma prev_set_next n v h m : prev (set_next n v h !!! m) = prev (h !!! m).
Proof.
  unfold set_next. destruct (decide (m = n)) as [->|E].
  - by rewrite lookup_total_insert_eq.
  - by rewrite lookup_total_insert_ne.
Qed.

Lemma next_set_prev n v h m : next (set_prev n v h !!! m) = next (h !!! m).
Proof.
  unfold set_prev. destruct (decide (m = n)) as [->|E].
  - by rewrite lookup_total_insert_eq.
  - by rewrite lookup_total_insert_ne.
Qed.

Lemma prev_set_prev n v h m :
  prev (set_prev n v h !!! m) = if decide (m = n) then v else prev (h !!! m).
Proof.
  unfold set_prev. case_decide as E.
  - subst. by rewrite lookup_total_insert_eq.
  - by rewrite lookup_total_insert_ne.
Qed.

(** ** Segments *)

Lemma dlseg_ext h h' p f xs l n :
  agree_on xs h h' → dlseg h p f xs l n → dlseg h' p f xs l n.
Proof.
  revert p f. induction xs as [|x xs IH]; intros p f Hag; simpl; [done|].
  intros (-> & Hp & Hrest).
  destruct (Hag x) as [Hn Hpv]; [left|].
  rewrite Hn, Hpv. repeat split; [done|].
  apply IH; [|done]. intros y Hy. apply Hag. by right.
Qed.

Lemma dlseg_app h p f xs ys l n :
  dlseg h p f (xs ++ ys) l n ↔
  ∃ m f', dlseg h p f xs m f' ∧ dlseg h m f' ys l n.
Proof.
  revert p f. induction xs as [|x xs IH]; intros p f; simpl.
  - split.
    + intros H. by exists p, f.
    + by intros (m & f' & [-> ->] & H).
  - split.
    + intros (-> & Hp & H). destruct (proj1 (IH _ _) H) as (m & f' & H1 & H2).
      by exists m, f'.
    + intros (m & f' & (-> & Hp & H1) & H2). repeat split; [done|].
      apply IH. by exists m, f'.
Qed.

Lemma dlseg_first h p f xs l n :
  dlseg h p f xs l n → f = match xs with [] => n | x :: _ => Some x end.
Proof. destruct xs; simpl; tauto. Qed.

Lemma dlseg_last h p f xs l n :
  dlseg h p f xs l n → l = match last xs with None => p | Some x => Some x end.
Proof.
  revert p f. induction xs as [|x xs IH]; intros p f; simpl; [tauto|].
  intros (-> & Hp & H). rewrite (IH _ _ H), last_cons. by destruct (last xs).
Qed.

Lemma dlseg_last_elem h p f xs l n :
  dlseg h p f xs l n → xs ≠ [] → ∃ x, l = Some x ∧ last xs = Some x ∧ x ∈ xs.
Proof.
  intros H Hne. apply dlseg_last in H.
  destruct (last xs) as [x|] eqn:E.
  - exists x. split_and!; [done..|]. by apply last_Some_elem_of.
  - by apply last_None in E.
Qed.

Lemma dlseg_first_elem h p f xs l n :
  dlseg h p f xs l n → xs ≠ [] → ∃ x, f = Some x ∧ hd_error xs = Some x ∧ x ∈ xs.
Proof.
  intros H Hne. apply dlseg_first in H. destruct xs as [|x xs]; [done|].
  exists x. split_and!; [done..|]. left.
Qed.

Lemma dlseg_mid h p f A x B l n :
  dlseg h p f (A ++ x :: B) l n ↔
  ∃ m, dlseg h p f A m (Some x) ∧ prev (h !!! x) = m ∧
       dlseg h (Some x) (next (h !!! x)) B l n.
Proof.
  rewrite dlseg_app. simpl. split.
  - intros (m & f' & HA & -> & Hp & HB). by exists m.
  - intros (m & HA & Hp & HB). by exists m, (Some x).
Qed.

(** Redirecting the forward link that leaves a segment. *)
Lemma dlseg_set_n h h' p f A m n n' :
  NoDup A → dlseg h p f A m n →
  (∀ x, x ∈ A → prev (h' !!! x) = prev (h !!! x)) →
  (∀ x, x ∈ A → next (h' !!! x) = if decide (Some x = m) then n' else next (h !!! x)) →
  dlseg h' p (match A with [] => n' | _ => f end) A m n'.
Proof.
  revert p f. induction A as [|x A IH]; intros p f ND H Hpv Hnx; simpl in *.
  { tauto. }
  destruct H as (-> & Hp & H). apply NoDup_cons in ND as [Hx ND].
  split_and!; [done| by rewrite Hpv; [|left] |].
  rewrite Hnx by left.
  destruct A as [|y A].
  - destruct H as [_ ->]. by rewrite decide_True.
  - destruct (dlseg_last_elem _ _ _ _ _ _ H) as (z & -> & _ & Hz); [done|].
    rewrite decide_False by (intros [= ->]; done).
    apply (IH (Some x) (next (h !!! x))); [done..| |].
    + intros w Hw. apply Hpv. by right.
    + intros w Hw. apply Hnx. by right.
Qed.

(** Redirecting the backward link that leaves a segment. *)
Lemma dlseg_set_p h h' p p' f B l n :
  NoDup B → dlseg h p f B l n →
  (∀ x, x ∈ B → next (h' !!! x) = next (h !!! x)) →
  (∀ x, x ∈ B → prev (h' !!! x) = if decide (Some x = f) then p' else prev (h !!! x)) →
  dlseg h' p' f B (match B with [] => p' | _ => l end) n.
Proof.
  intros ND H Hnx Hpv. destruct B as [|x B]; simpl in *; [tauto|].
  destruct H as (-> & Hp & H). apply NoDup_cons in ND as [Hx ND].
  split_and!; [done| by rewrite Hpv, decide_True; [| |left] |].
  rewrite Hnx by left.
  eapply dlseg_ext; [|done].
  intros y Hy. split; [apply Hnx; by right|].
  rewrite Hpv by (by right). rewrite decide_False; [done|]. intros [= ->]. done.
Qed.

Lemma dlseg_set_n_ne h h' p f A m n n' :
  A ≠ [] → NoDup A → dlseg h p f A m n →
  (∀ x, x ∈ A → prev (h' !!! x) = prev (h !!! x)) →
  (∀ x, x ∈ A → next (h' !!! x) = if decide (Some x = m) then n' else next (h !!! x)) →
  dlseg h' p f A m n'.
Proof.
  intros Hne ND H Hpv Hnx.
  pose proof (dlseg_set_n h h' p f A m n n' ND H Hpv Hnx) as H'.
  by destruct A.
Qed.

Lemma dlseg_set_p_ne h h' p p' f B l n :
  B ≠ [] → NoDup B → dlseg h p f B l n →
  (∀ x, x ∈ B → next (h' !!! x) = next (h !!! x)) →
  (∀ x, x ∈ B → prev (h' !!! x) = if decide (Some x = f) then p' else prev (h !!! x)) →
  dlseg h' p' f B l n.
Proof.
  intros Hne ND H Hnx Hpv.
  pose proof (dlseg_set_p h h' p p' f B l n ND H Hnx Hpv) as H'.
  by destruct B.
Qed.

(** ** The list methods on well-formed lists *)

Ltac heap_simpl :=
  repeat first [rewrite next_set_next | rewrite prev_set_next
               | rewrite next_set_prev | rewrite prev_set_prev].

Ltac heap_cases :=
  repeat match goal with
         | |- context [decide (?a = ?b)] => destruct (decide (a = b)); [subst|]
         end.

Ltac heap_solve := heap_simpl; heap_cases; try done; try congruence.

Lemma NoDup_mid (A B : list loc) x :
  NoDup (A ++ x :: B) ↔ NoDup A ∧ NoDup B ∧ x ∉ A ∧ x ∉ B ∧ (∀ y, y ∈ A → y ∉ B).
Proof.
  rewrite NoDup_app, NoDup_cons. set_solver.
Qed.

Lemma insertBefore_is_list A b B n s :
  is_list s (A ++ b :: B) → n ∉ A ++ b :: B →
  is_list (insertBefore b n s) (A ++ n :: b :: B).
Proof.
  destruct s as [l h]. intros [ND H] Hn. simpl in H.
  apply dlseg_mid in H as (m & HA & Hm & HB).
  pose proof ND as ND'. apply NoDup_mid in ND' as (NDA & NDB & HbA & HbB & HAB).
  assert (HnA : n ∉ A) by set_solver.
  assert (HnB : n ∉ B) by set_solver.
  assert (Hnb : n ≠ b) by set_solver.
  split.
  { apply NoDup_mid. rewrite NoDup_cons. set_solver. }
  unfold insertBefore.
  assert (Hmem : ∀ a, m = Some a → a ∈ A).
  { intros a ->. destruct A as [|a0 A]; [by destruct HA|].
    destruct (dlseg_last_elem _ _ _ _ _ _ HA) as (z & [= ->] & _ & Hz); done. }
  assert (Hq : ∀ y, y ∈ B → m ≠ Some y).
  { intros y Hy ->. eapply HAB; eauto. }
  set (l' := if decide (head l = Some b) then set_head (Some n) l else l).
  assert (Hhd : head l' = match A with [] => Some n | _ => head l end).
  { pose proof (dlseg_first _ _ _ _ _ _ HA) as Hf. subst l'.
    destruct A as [|a0 A]; [by rewrite decide_True|].
    rewrite decide_False; [done|]. rewrite Hf. intros [= ->]. apply HbA. left. }
  assert (Htl : tail l' = tail l) by (subst l'; by case_decide).
  clearbody l'. cbn [fst snd]. rewrite Htl.
  apply dlseg_mid. exists m. rewrite Hhd. heap_simpl.
  rewrite decide_False by done. rewrite Hm. simpl. heap_simpl.
  destruct m as [a|]; [specialize (Hmem a eq_refl)|]; clear Hm.
  - split_and!; try heap_solve.
    + apply (dlseg_set_n h _ None (head l) A (Some a) (Some b) (Some n)); [done..| |].
      all: intros x Hx; heap_solve.
    + eapply dlseg_ext; [|exact HB]. intros y Hy; split; heap_solve.
      by destruct (Hq a Hy).
  - split_and!; try heap_solve.
    + apply (dlseg_set_n h _ None (head l) A None (Some b) (Some n)); [done..| |].
      all: intros x Hx; heap_solve.
    + eapply dlseg_ext; [|exact HB]. intros y Hy; split; heap_solve.
Qed.

Lemma is_list_next s A x B :
  is_list s (A ++ x :: B) → next (s.2 !!! x) = hd_error B.
Proof.
  intros [_ H]. apply dlseg_mid in H as (m & _ & _ & HB).
  apply dlseg_first in HB. rewrite HB. by destruct B.
Qed.

Lemma is_list_prev s A x B :
  is_list s (A ++ x :: B) → prev (s.2 !!! x) = last A.
Proof.
  intros [_ H]. apply dlseg_mid in H as (m & HA & <- & _).
  apply dlseg_last in HA. rewrite HA. by destruct (last A).
Qed.

Lemma is_list_head s xs : is_list s xs → head s.1 = hd_error xs.
Proof. intros [_ H]. apply dlseg_first in H. rewrite H. by destruct xs. Qed.

Lemma is_list_tail s xs : is_list s xs → tail s.1 = last xs.
Proof. intros [_ H]. apply dlseg_last in H. rewrite H. by destruct (last xs). Qed.

Lemma hd_error_app_ne {A} (xs ys : list A) :
  xs ≠ [] → hd_error (xs ++ ys) = hd_error xs.
Proof. by destruct xs. Qed.

Lemma hd_error_elem {A} (xs : list A) x : hd_error xs = Some x → x ∈ xs.
Proof. destruct xs; intros [= ->]. left. Qed.

Lemma insertAfter_is_list A a B n s :
  is_list s (A ++ a :: B) → n ∉ A ++ a :: B →
  is_list (insertAfter a n s) (A ++ a :: n :: B).
Proof.
  intros Hl Hn.
  pose proof (is_list_next _ _ _ _ Hl) as Hnx.
  pose proof (is_list_tail _ _ Hl) as Htl.
  destruct s as [l h]. destruct Hl as [ND H]. simpl in *.
  apply dlseg_mid in H as (m & HA & Hm & HB).
  pose proof ND as ND'. apply NoDup_mid in ND' as (NDA & NDB & HaA & HaB & HAB).
  assert (HnA : n ∉ A) by set_solver.
  assert (HnB : n ∉ B) by set_solver.
  assert (Hna : n ≠ a) by set_solver.
  split.
  { apply NoDup_mid. rewrite NoDup_cons. set_solver. }
  unfold insertAfter.
  set (l' := if decide (tail l = Some a) then set_tail (Some n) l else l).
  assert (Hhd : head l' = head l) by (subst l'; by case_decide).
  assert (Htl' : tail l' = match B with [] => Some n | _ => tail l end).
  { subst l'. rewrite last_app, last_cons in Htl.
    destruct B as [|b B]; [by rewrite decide_True|].
    destruct (last (b :: B)) as [z|] eqn:E; [|by apply last_None in E].
    rewrite decide_False; [done|]. rewrite Htl. intros [= ->].
    apply last_Some_elem_of in E. done. }
  clearbody l'. cbn [fst snd]. rewrite Hhd, Htl'.
  heap_simpl. rewrite decide_False by done. rewrite Hnx.
  apply dlseg_mid. exists m.
  assert (Hb : ∀ b, hd_error B = Some b → b ∈ B) by (intros b; apply hd_error_elem).
  split_and!.
  - eapply dlseg_ext; [|exact HA]. intros y Hy.
    assert (y ≠ a) by (intros ->; done).
    assert (y ≠ n) by (intros ->; done).
    destruct (hd_error B) as [b|] eqn:E.
    + assert (y ≠ b) by (intros ->; eapply HAB; eauto).
      split; heap_solve.
    + split; heap_solve.
  - destruct (hd_error B) as [b|] eqn:E.
    + assert (a ≠ b) by (intros ->; apply HaB; eauto).
      heap_solve.
    + heap_solve.
  - assert (Hgoal : ∀ h2,
      (∀ x, next (h2 !!! x) = if decide (x = a) then Some n
                              else if decide (x = n) then hd_error B
                              else next (h !!! x)) →
      (∀ x, prev (h2 !!! x) = if decide (Some x = hd_error B) then Some n
                              else if decide (x = n) then Some a
                              else prev (h !!! x)) →
      dlseg h2 (Some a) (next (h2 !!! a)) (n :: B)
        match B with [] => Some n | _ :: _ => tail l end None).
    { intros h2 Hn2 Hp2. rewrite Hn2, decide_True by done.
      cbn [dlseg]. split_and!; [done| |].
      - rewrite Hp2. rewrite decide_False; [by rewrite decide_True|].
        intros E. symmetry in E. apply hd_error_elem in E. done.
      - rewrite Hn2, decide_False, decide_True by done.
        rewrite Hnx in HB.
        apply (dlseg_set_p h h2 (Some a) (Some n) (hd_error B) B (tail l) None);
          [done..| |].
        + intros x Hx. rewrite Hn2. rewrite !decide_False; [done|..].
          * intros ->; done.
          * intros ->; done.
        + intros x Hx. rewrite Hp2. case_decide; [done|].
          rewrite decide_False; [done|]. intros ->; done. }
    destruct (hd_error B) as [b|] eqn:E.
    + assert (Hab : a ≠ b) by (intros ->; apply HaB; eauto).
      assert (Hnb : n ≠ b) by (intros ->; apply HnB; eauto).
      apply Hgoal.
      * intros x. heap_simpl. repeat case_decide; simplify_eq; done.
      * intros x. heap_simpl. repeat case_decide; simplify_eq; done.
    + apply Hgoal.
      * intros x. heap_simpl. repeat case_decide; simplify_eq; done.
      * intros x. heap_simpl. repeat case_decide; simplify_eq; done.
Qed.

Lemma clear_links_fresh n h :
  set_next n None (set_prev n None h) !!! n = FRESH_NODE.
Proof.
  unfold set_next at 1. rewrite lookup_total_insert_eq.
  by rewrite prev_set_prev, decide_True.
Qed.

(** What [remove] does on a member [n] of the list [A ++ n :: B]. *)
Lemma remove_spec A n B s :
  is_list s (A ++ n :: B) →
  ∃ s', remove n s = (Ok (hd_error B), s') ∧
        head s'.1 = hd_error (A ++ B) ∧
        tail s'.1 = last (A ++ B) ∧
        s'.2 !!! n = FRESH_NODE ∧
        (A ≠ [] → is_list s' (A ++ B)).
Proof.
  intros Hl.
  pose proof (is_list_next _ _ _ _ Hl) as Hnx.
  pose proof (is_list_prev _ _ _ _ Hl) as Hpv.
  pose proof (is_list_head _ _ Hl) as Hhd.
  pose proof (is_list_tail _ _ Hl) as Htl.
  destruct s as [l h]. destruct Hl as [ND H]. simpl in *.
  apply dlseg_mid in H as (m & HA & Hm & HB).
  pose proof ND as ND'. apply NoDup_mid in ND' as (NDA & NDB & HnA & HnB & HAB).
  rewrite last_app, last_cons in Htl.
  assert (Htn : tail l = Some n ↔ B = []).
  { rewrite Htl. destruct (last B) as [z|] eqn:E.
    - apply last_Some_elem_of in E. split; [intros [= ->]; done|intros ->].
      by apply elem_of_nil in E.
    - by apply last_None in E. }
  assert (HtB : B ≠ [] → tail l = last B).
  { intros HB0. rewrite Htl. destruct (last B) eqn:E; [done|].
    by apply last_None in E. }
  clear Htl.
  assert (HhA : ∀ C, A ≠ [] → head l = hd_error (A ++ C)).
  { intros C HA0. rewrite Hhd. by destruct A. }
  unfold remove. rewrite Hnx, Hpv.
  destruct A as [|a0 A0]; simpl in Hhd.
  - (* the node is the head *)
    rewrite decide_True by done. simpl.
    destruct B as [|b B]; simpl.
    + rewrite decide_True by (by apply Htn).
      eexists; split_and!; try done.
      apply clear_links_fresh.
    + rewrite decide_False by (rewrite Htn; done).
      eexists; split_and!; try done.
      * simpl. by apply HtB.
      * apply clear_links_fresh.
  - (* the node has a predecessor *)
    rewrite decide_False by (rewrite Hhd; intros [= ->]; apply HnA; left).
    assert (HA0 : a0 :: A0 ≠ []) by done.
    remember (a0 :: A0) as A eqn:EA. clear EA Hhd.
    destruct (dlseg_last_elem _ _ _ _ _ _ HA) as (a & -> & Hla & Ha); [done|].
    rewrite Hla. heap_simpl.
    rewrite (decide_False (P := n = a)) by (intros ->; done).
    rewrite Hnx, Hpv, Hla.
    assert (HAn : dlseg (set_next a (hd_error B) h) None (head l) A (Some a) (hd_error B)).
    { apply (dlseg_set_n_ne h _ None (head l) A (Some a) (Some n) (hd_error B));
        [done..| |].
      all: intros x Hx; heap_solve. }
    destruct B as [|b B]; simpl.
    + rewrite decide_True by (by apply Htn).
      eexists; split_and!; [done| | | |].
      * simpl. by apply HhA.
      * simpl. by rewrite app_nil_r.
      * apply clear_links_fresh.
      * intros _. split; [by rewrite app_nil_r|]. cbn [fst snd head tail set_tail].
        rewrite app_nil_r. eapply dlseg_ext; [|exact HAn].
        intros y Hy. split; heap_solve.
    + rewrite decide_False by (rewrite Htn; done).
      eexists; split_and!; [done| | | |].
      * simpl. by apply HhA.
      * simpl. rewrite HtB by done. rewrite last_app.
        destruct (last (b :: B)) eqn:E; [done|]. by apply last_None in E.
      * apply clear_links_fresh.
      * intros _. split.
        { apply NoDup_app. split_and!; [done| |done].
          intros y Hy. by apply HAB. }
        cbn [fst snd]. apply dlseg_app. exists (Some a), (Some b). split.
        { eapply dlseg_ext; [|exact HAn].
          intros y Hy. split; heap_solve; exfalso; eapply HAB; eauto; left. }
        apply NoDup_cons in NDB as [HbB NDB].
        assert (Hbn : b ≠ n) by (intros ->; apply HnB; left).
        assert (Hba : b ≠ a) by (intros ->; eapply HAB; eauto; left).
        simpl in HB. destruct HB as (_ & Hpb & HB).
        simpl. split_and!; [done|heap_solve|].
        heap_simpl. rewrite !decide_False by done.
        eapply dlseg_ext; [|exact HB].
        intros y Hy. 
        assert (y ≠ n) by (intros ->; apply HnB; by right).
        assert (y ≠ a) by (intros ->; eapply HAB; eauto; by right).
        split; heap_solve.
Qed.

Lemma append_is_list xs n s :
  is_list s xs → n ∉ xs → s.2 !!! n = FRESH_NODE →
  is_list (append n s) (xs ++ [n]).
Proof.
  destruct s as [l h]. intros [ND H] Hn Hfresh. simpl in *.
  pose proof (dlseg_last _ _ _ _ _ _ H) as Htl.
  split.
  { apply NoDup_app. split_and!; [done| |apply NoDup_singleton].
    intros y Hy ->%list_elem_of_singleton. done. }
  unfold append. lazy beta iota zeta.
  destruct (last xs) as [t|] eqn:E.
  - rewrite Htl. cbn [fst snd head tail set_tail].
    pose proof (last_Some_elem_of _ _ E) as Ht.
    assert (Hxs : xs ≠ []) by (intros ->; done).
    apply dlseg_app. exists (Some t), (Some n). split.
    + apply (dlseg_set_n_ne h _ None (head l) xs (Some t) None (Some n)); [done..| | |].
      * by rewrite <- Htl.
      * intros x Hx. heap_solve.
      * intros x Hx. heap_solve.
    + simpl. split_and!; try done; heap_solve; by rewrite Hfresh.
  - apply last_None in E as ->. destruct H as [Hh Ht]. rewrite Ht.
    simpl. by rewrite Hfresh.
Qed.

Lemma prependList_is_list ys xs other s :
  is_list s xs → is_list (other, s.2) ys → (∀ y, y ∈ ys → y ∉ xs) →
  is_list (prependList other s) (ys ++ xs).
Proof.
  destruct s as [l h]. intros [NDx Hx] [NDy Hy] Hdisj. simpl in *.
  split.
  { apply NoDup_app. by split_and!. }
  unfold prependList. lazy beta iota zeta.
  destruct ys as [|y0 ys0].
  { destruct Hy as [-> ->]. done. }
  assert (Hys : y0 :: ys0 ≠ []) by done.
  remember (y0 :: ys0) as ys eqn:Eys.
  destruct (dlseg_last_elem _ _ _ _ _ _ Hy Hys) as (lt & Hlt & _ & Hlt_in).
  destruct (dlseg_first_elem _ _ _ _ _ _ Hy Hys) as (lh & Hlh & _ & Hlh_in).
  rewrite Hlt, Hlh.
  destruct xs as [|x0 xs0].
  { destruct Hx as [Hx1 Hx2]. rewrite Hx1, app_nil_r. cbn [fst snd head tail].
    by rewrite <- Hlt, <- Hlh. }
  assert (Hxs : x0 :: xs0 ≠ []) by done.
  remember (x0 :: xs0) as xs eqn:Exs.
  destruct (dlseg_first_elem _ _ _ _ _ _ Hx Hxs) as (th & Hth & _ & Hth_in).
  rewrite Hth. cbn [fst snd head tail set_head].
  apply dlseg_app. exists (Some lt), (Some th). split.
  - rewrite <- Hlh.
    apply (dlseg_set_n_ne h _ None (head other) ys (Some lt) None (Some th)); [done..| | |].
    + by rewrite <- Hlt.
    + intros x Hxin. heap_solve. by destruct (Hdisj th Hxin).
    + intros x Hxin. heap_solve.
  - rewrite <- Hth.
    pose proof (dlseg_set_p_ne h (set_next lt (head l) (set_prev th (Some lt) h))
                  None (Some lt) (head l) xs (tail l) None Hxs NDx Hx) as Hgoal.
    apply Hgoal.
    + intros x Hxin. heap_solve. by destruct (Hdisj lt Hlt_in).
    + intros x Hxin. rewrite Hth. heap_solve.
Qed.

(** Replacing the node [x] by a copy [y] of it, followed by the relinking
    that [applyTransform] does around the returned node. *)
Lemma relink_replace A x B y s :
  is_list s (A ++ x :: B) → y ∉ A ++ x :: B →
  is_list (relink y (s.1, <[y := s.2 !!! x]> s.2)) (A ++ y :: B) ∧
  next ((relink y (s.1, <[y := s.2 !!! x]> s.2)).2 !!! y) = hd_error B.
Proof.
  intros Hl Hy.
  pose proof (is_list_next _ _ _ _ Hl) as Hnx.
  pose proof (is_list_prev _ _ _ _ Hl) as Hpv.
  destruct s as [l h]. destruct Hl as [ND H]. simpl in *.
  apply dlseg_mid in H as (m & HA & Hm & HB).
  pose proof ND as ND'. apply NoDup_mid in ND' as (NDA & NDB & HxA & HxB & HAB).
  assert (HyA : y ∉ A) by set_solver.
  assert (HyB : y ∉ B) by set_solver.
  assert (Hyx : y ≠ x) by set_solver.
  set (h1 := <[y := h !!! x]> h).
  assert (Hn1 : ∀ z, next (h1 !!! z) = if decide (z = y) then next (h !!! x) else next (h !!! z)).
  { intros z. subst h1. rewrite lookup_total_insert. by repeat case_decide; simplify_eq. }
  assert (Hp1 : ∀ z, prev (h1 !!! z) = if decide (z = y) then prev (h !!! x) else prev (h !!! z)).
  { intros z. subst h1. rewrite lookup_total_insert. by repeat case_decide; simplify_eq. }
  clearbody h1.
  unfold relink. lazy beta iota zeta. rewrite Hp1, decide_True by done. rewrite Hpv.
  assert (Hgen : ∀ l1 h2,
    head l1 = match A with [] => Some y | _ => head l end →
    tail l1 = tail l →
    (∀ z, next (h2 !!! z) = if decide (Some z = last A) then Some y
                            else if decide (z = y) then hd_error B
                            else next (h !!! z)) →
    (∀ z, prev (h2 !!! z) = if decide (z = y) then last A else prev (h !!! z)) →
    is_list (match next (h2 !!! y) with
             | Some n => (l1, set_prev n (Some y) h2)
             | None => (set_tail (Some y) l1, h2)
             end) (A ++ y :: B) ∧
    next ((match next (h2 !!! y) with
             | Some n => (l1, set_prev n (Some y) h2)
             | None => (set_tail (Some y) l1, h2)
             end).2 !!! y) = hd_error B).
  { intros l1 h2 Hh1 Ht1 Hn2 Hp2.
    assert (Hlasty : last A ≠ Some y).
    { intros E. apply HyA. by apply last_Some_elem_of. }
    assert (Hny : next (h2 !!! y) = hd_error B).
    { rewrite Hn2. rewrite decide_False by (intros E; by rewrite <- E in Hlasty).
      by rewrite decide_True. }
    rewrite Hny.
    assert (HA2 : ∀ h3, (∀ z, next (h3 !!! z) = next (h2 !!! z)) →
               (∀ z, z ∈ A → prev (h3 !!! z) = prev (h2 !!! z)) →
               dlseg h3 None (head l1) A (last A) (Some y)).
    { intros h3 Hn3 Hp3. rewrite Hh1.
      assert (m = last A) as -> by congruence.
      apply (dlseg_set_n h _ None (head l) A (last A) (Some x) (Some y)); [done..| |].
      - intros z Hz. rewrite Hp3, Hp2 by done. rewrite decide_False; [done|].
        intros ->. done.
      - intros z Hz. rewrite Hn3, Hn2. case_decide; [done|].
        rewrite decide_False; [done|]. intros ->; done. }
    destruct B as [|b B]; cbn [hd_error fst snd head tail set_tail].
    - split; [|done]. split.
      { apply NoDup_mid. by split_and!. }
      cbn [fst snd head tail set_tail]. apply dlseg_mid. exists (last A). split_and!.
      + by apply HA2.
      + by rewrite Hp2, decide_True.
      + rewrite Hny. simpl. destruct HB as [_ HB]. split; [done|].
        done.
    - apply NoDup_cons in NDB as [HbB NDB].
      assert (Hby : b ≠ y) by (intros ->; apply HyB; left).
      assert (HbA : b ∉ A) by (intros Hb; eapply HAB; eauto; left).
      split; [|heap_simpl; by rewrite Hny]. split.
      { apply NoDup_mid. split_and!; try done. by apply NoDup_cons. }
      cbn [fst snd]. apply dlseg_mid. exists (last A). split_and!.
      + apply HA2.
        * intros z. by heap_simpl.
        * intros z Hz. heap_simpl. rewrite decide_False; [done|]. intros ->; done.
      + heap_simpl. rewrite decide_False by done. by rewrite Hp2, decide_True.
      + heap_simpl. rewrite Hny. rewrite Ht1.
        simpl in HB. destruct HB as (Hb0 & Hbp & HB).
        simpl. split_and!; [done|heap_solve|].
        heap_simpl. rewrite Hn2.
        rewrite decide_False by (intros E; apply HbA; by apply last_Some_elem_of).
        rewrite decide_False by done.
        eapply dlseg_ext; [|exact HB].
        intros z Hz.
        assert (z ≠ b) by (intros ->; done).
        assert (z ≠ y) by (intros ->; apply HyB; by right).
        assert (Some z ≠ last A).
        { intros E. symmetry in E. apply last_Some_elem_of in E.
          eapply HAB; eauto. by right. }
        split; heap_simpl; rewrite ?Hn2, ?Hp2; by rewrite !decide_False by done. }
  destruct (last A) as [a|] eqn:Ela.
  - apply Hgen.
    + destruct A; [done|]. done.
    + done.
    + intros z. heap_simpl. rewrite Hn1.
      destruct (decide (z = a)) as [->|Hza].
      * by rewrite decide_True.
      * rewrite (decide_False (P := Some z = Some a)) by congruence.
        case_decide; [|done]. by rewrite Hnx.
    + intros z. heap_simpl. rewrite Hp1. case_decide; congruence.
  - apply last_None in Ela as ->. apply Hgen.
    + done.
    + done.
    + intros z. rewrite Hn1.
      rewrite (decide_False (P := Some z = None)) by done.
      case_decide; [|done]. by rewrite Hnx.
    + intros z. rewrite Hp1. case_decide; [|done]. by rewrite Hpv.
Qed.

(** [relink] on two heaps that differ in the node [x] only, which is not
    the node relinked: the results differ in [x] only. *)
Lemma relink_off x y l h h' :
  y ≠ x → (∀ m, m ≠ x → h' !!! m = h !!! m) →
  (relink y (l, h')).1 = (relink y (l, h)).1 ∧
  ∀ m, m ≠ x →
    next ((relink y (l, h')).2 !!! m) = next ((relink y (l, h)).2 !!! m) ∧
    prev ((relink y (l, h')).2 !!! m) = prev ((relink y (l, h)).2 !!! m).
Proof.
  intros Hy Hag. unfold relink. rewrite (Hag y Hy).
  destruct (prev (h !!! y)) as [p|].
  - assert (En : next (set_next p (Some y) h' !!! y) =
                 next (set_next p (Some y) h !!! y))
      by (heap_simpl; by rewrite (Hag y Hy)).
    rewrite En.
    destruct (next (set_next p (Some y) h !!! y)) as [n|]; (split; [done|]);
      intros m Hm; cbn [snd]; heap_simpl; by rewrite (Hag m Hm).
  - rewrite (Hag y Hy).
    destruct (next (h !!! y)) as [n|]; (split; [done|]);
      intros m Hm; cbn [snd]; heap_simpl; by rewrite (Hag m Hm).
Qed.

(** Replacing the node [x] by a node [y] that has taken over its links,
    whatever has become of [x], followed by the relinking around [y]: [y]
    stands where [x] stood, and its [next] is the node that followed [x]. *)
Lemma relink_replaced A x B y s h' :
  is_list s (A ++ x :: B) → y ∉ A ++ x :: B →
  h' !!! y = s.2 !!! x → (∀ m, m ≠ x → m ≠ y → h' !!! m = s.2 !!! m) →
  is_list (relink y (s.1, h')) (A ++ y :: B) ∧
  next ((relink y (s.1, h')).2 !!! y) = hd_error B.
Proof.
  intros Hl Hy Hy' Hfr.
  destruct (relink_replace A x B y s Hl Hy) as [Hl0 Hn0].
  assert (Hyx : y ≠ x) by set_solver.
  destruct (relink_off x y s.1 (<[y := s.2 !!! x]> s.2) h' Hyx) as [E1 E2].
  { intros m Hm. destruct (decide (m = y)) as [->|Hmy].
    - by rewrite lookup_total_insert_eq.
    - rewrite lookup_total_insert_ne by done. by apply Hfr. }
  split.
  - destruct Hl0 as [ND H]. split; [done|]. rewrite E1.
    eapply dlseg_ext; [|exact H]. intros z Hz. apply E2. intros ->.
    destruct Hl as [ND0 _]. apply NoDup_mid in ND0 as (_ & _ & HxA & HxB & _).
    set_solver.
  - by rewrite (proj1 (E2 y Hyx)).
Qed.

(** ** The invariants follow from the representation *)

Lemma reach_elem s xs a :
  is_list s xs → reach s.2 (head s.1) a → a ∈ xs.
Proof.
  intros Hl Hr. rewrite (is_list_head _ _ Hl) in Hr.
  assert (Hgen : ∀ o, reach s.2 o a → ∀ A B, xs = A ++ B → o = hd_error B → a ∈ B).
  { clear Hr. intros o Hr. induction Hr as [x|x y Hr IH]; intros A B -> Ho.
    - destruct B as [|b B]; simplify_eq/=. left.
    - destruct B as [|b B]; simplify_eq/=. right.
      apply (IH (A ++ [b]) B); [by rewrite <- app_assoc|].
      by rewrite (is_list_next _ _ _ _ Hl). }
  by apply (Hgen _ Hr [] xs).
Qed.

Lemma is_list_invariants s xs : is_list s xs → invariants s.
Proof.
  intros Hl. unfold invariants.
  rewrite (is_list_head _ _ Hl), (is_list_tail _ _ Hl).
  split_and!.
  - destruct xs as [|x xs]; [done|]. simpl. split; [done|].
    intros E. by apply last_None in E.
  - intros x Hx. destruct xs as [|x' xs]; simplify_eq/=.
    by rewrite (is_list_prev s [] x xs Hl).
  - intros x Hx. apply last_Some in Hx as [xs' ->].
    by rewrite (is_list_next s xs' x [] Hl).
  - intros a b Hr Hab.
    assert (Ha : a ∈ xs).
    { eapply reach_elem; [done|]. by rewrite (is_list_head _ _ Hl). }
    apply list_elem_of_split in Ha as (A & B & ->).
    rewrite (is_list_next _ _ _ _ Hl) in Hab.
    destruct B as [|b' B]; simplify_eq/=.
    assert (Hl' : is_list s ((A ++ [a]) ++ b :: B)) by (by rewrite <- app_assoc).
    rewrite (is_list_prev _ _ _ _ Hl'). by rewrite last_snoc.
Qed.

(** ** The loop of [applyTransform] with a replacing hook *)

Lemma applyTransform_loop_replacing repl v B :
  replacing_visit repl v →
  ∀ A' s fuel,
    is_list s (A' ++ B) → NoDup (repl <$> B) →
    (∀ x, x ∈ B → repl x ∉ A' ++ B) → length B ≤ fuel →
    ∃ s', applyTransform_loop fuel v (hd_error B) s = (Ok tt, s') ∧
          is_list s' (A' ++ (repl <$> B)).
Proof.
  intros Hv. induction B as [|x B IH]; intros A' s fuel Hl ND Hfresh Hfuel.
  { exists s. split; [by destruct fuel|done]. }
  destruct fuel as [|fuel]; [simpl in Hfuel; lia|].
  destruct s as [l h]. cbn [hd_error applyTransform_loop].
  destruct (Hv x l h) as (h' & Hrun & Hnew & Hfr).
  unfold mbind, M_bind, bind. rewrite Hrun.
  unfold modify, gets. cbn [fst snd].
  destruct (relink_replaced A' x B (repl x) (l, h) h' Hl) as [Hl' Hnx]; [|done..|].
  { apply Hfresh. left. }
  cbn [fst snd] in Hl', Hnx. rewrite Hnx.
  apply NoDup_cons in ND as [Hx ND].
  destruct (IH (A' ++ [repl x]) (relink (repl x) (l, h')) fuel)
    as (s' & Hrun' & Hl'').
  - by rewrite <- app_assoc.
  - done.
  - intros z Hz. rewrite <- app_assoc. cbn [app].
    intros Hin. apply elem_of_app in Hin as [Hin|Hin].
    + eapply (Hfresh z); [by right|]. apply elem_of_app. by left.
    + apply elem_of_cons in Hin as [Heq|Hin].
      * apply Hx. rewrite <- Heq. by apply list_elem_of_fmap_2.
      * eapply (Hfresh z); [by right|]. apply elem_of_app. right. by right.
  - simpl in Hfuel. lia.
  - exists s'. split; [done|]. by rewrite <- app_assoc in Hl''.
Qed.

(** ** [toArray] on a well-formed list *)

Lemma forEach_from_dlseg h p f xs l fuel :
  dlseg h p f xs l None → length xs ≤ fuel → forEach_from fuel h f = xs.
Proof.
  revert p f fuel. induction xs as [|x xs IH]; intros p f fuel H Hfuel.
  - destruct H as [-> _]. by destruct fuel.
  - destruct H as (-> & _ & H). destruct fuel as [|fuel]; [simpl in Hfuel; lia|].
    simpl. f_equal. eapply IH; [done|]. simpl in Hfuel. lia.
Qed.

Lemma is_list_length s xs : is_list s xs → length xs ≤ S (size s.2).
Proof.
  destruct s as [l h]. intros [ND H]. simpl in *.
  destruct xs as [|x0 xs0] using rev_ind; [simpl; lia|]. clear IHxs0.
  rewrite length_app. simpl.
  apply NoDup_app in ND as (ND & _ & _).
  assert (Hsub : list_to_set xs0 ⊆ dom h).
  { intros x Hx%elem_of_list_to_set. apply list_elem_of_split in Hx as (A & B & ->).
    rewrite <- app_assoc in H. apply dlseg_mid in H as (_ & _ & _ & HB).
    apply dlseg_first in HB. apply elem_of_dom.
    destruct (h !! x) as [v|] eqn:E; [done|].
    rewrite lookup_total_alt, E in HB. simpl in HB. by destruct B. }
  apply subseteq_size in Hsub.
  rewrite size_list_to_set, size_dom in Hsub by done. lia.
Qed.

Lemma is_list_toArray s xs : is_list s xs → toArray s = xs.
Proof.
  intros Hl. pose proof (is_list_length _ _ Hl) as Hlen.
  destruct s as [l h]. destruct Hl as [_ H]. by eapply forEach_from_dlseg.
Qed.

(** ** The loops of [sortSubset] *)

Lemma bind_Ok {S A B} (m : M S A) (k : A → M S B) s a s' :
  m s = (Ok a, s') → (m ≫= k) s = k a s'.
Proof. intros H. unfold mbind, M_bind, bind. by rewrite H. Qed.

Lemma bind_gets {S A B} (f : S → A) (k : A → M S B) s :
  (gets f ≫= k) s = k (f s) s.
Proof. done. Qed.

Lemma bind_modify {S B} (f : S → S) (k : unit → M S B) s :
  (modify f ≫= k) s = k tt (f s).
Proof. done. Qed.

Lemma bind_mret {S A B} (a : A) (k : A → M S B) s : (mret a ≫= k) s = k a s.
Proof. done. Qed.

Lemma insert_sorted_ne cmp n S : insert_sorted cmp n S ≠ [].
Proof. destruct S; simpl; [done|]. by case_match. Qed.

Lemma sortSubset_scan_spec cmp n R S2 :
  ∀ P S1 s fuel tmpStart,
    is_list s (P ++ S1 ++ S2 ++ R) → n ∉ P ++ S1 ++ S2 ++ R →
    hd_error (S1 ++ S2) = Some tmpStart →
    length S2 < fuel →
    ∃ b ts s',
      sortSubset_scan fuel cmp n (hd_error R) (hd_error (S2 ++ R)) tmpStart s
        = (Ok (b, ts), s') ∧
      if b : bool then
        is_list s' (P ++ S1 ++ insert_sorted cmp n S2 ++ R) ∧
        hd_error (S1 ++ insert_sorted cmp n S2) = Some ts ∧
        last (insert_sorted cmp n S2) = last S2
      else s' = s ∧ ts = tmpStart ∧ insert_sorted cmp n S2 = S2 ++ [n].
Proof.
  induction S2 as [|p S2 IH]; intros P S1 s fuel tmpStart Hl Hn Hts Hfuel.
  { destruct fuel as [|fuel]; [simpl in Hfuel; lia|].
    exists false, tmpStart, s. cbn [sortSubset_scan app].
    by rewrite decide_True. }
  destruct fuel as [|fuel]; [simpl in Hfuel; lia|].
  cbn [sortSubset_scan app hd_error insert_sorted].
  assert (HND : NoDup ((P ++ S1) ++ p :: (S2 ++ R))).
  { destruct Hl as [ND _]. by rewrite <- app_assoc. }
  apply NoDup_mid in HND as (_ & _ & HpA & HpB & _).
  rewrite decide_False; last first.
  { intros E. symmetry in E. apply hd_error_elem in E.
    apply HpB. apply elem_of_app. by right. }
  destruct (cmp n p <? 0)%Z eqn:Ecmp.
  - exists true, (if decide (p = tmpStart) then n else tmpStart),
      (insertBefore p n s).
    split; [done|]. split_and!.
    + assert (Hl' : is_list (insertBefore p n s) ((P ++ S1) ++ n :: p :: (S2 ++ R))).
      { apply insertBefore_is_list; by rewrite <- app_assoc. }
      by rewrite <- app_assoc in Hl'.
    + destruct S1 as [|a S1]; simplify_eq/=.
      * by rewrite decide_True.
      * rewrite decide_False; [done|]. intros ->. apply HpA.
        apply elem_of_app. right. left.
    + done.
  - unfold mbind, M_bind, bind, gets.
    assert (Hl' : is_list s ((P ++ S1) ++ p :: (S2 ++ R))) by (by rewrite <- app_assoc).
    rewrite (is_list_next _ _ _ _ Hl').
    destruct (IH P (S1 ++ [p]) s fuel tmpStart) as (b & ts & s' & Hrun & Hres).
    + by rewrite <- app_assoc.
    + by rewrite <- app_assoc.
    + rewrite <- app_assoc. done.
    + simpl in Hfuel. lia.
    + exists b, ts, s'. split; [done|]. destruct b.
      * destruct Hres as (H1 & H2 & H3). rewrite <- !app_assoc in H1, H2.
        split_and!; [done..|].
        rewrite !last_cons, H3. done.
      * destruct Hres as (-> & -> & ->). done.
Qed.

Lemma last_app_ne {A} (xs ys : list A) : ys ≠ [] → last (xs ++ ys) = last ys.
Proof.
  intros Hne. rewrite last_app. destruct (last ys) eqn:E; [done|].
  by apply last_None in E.
Qed.

(** One round of the [do ... while] loop: the node [n] that follows the
    sorted segment [S] is taken out and put back at its place in [S]. *)
Lemma sortSubset_loop_step cmp end_ n P S R s sfuel tmpStart tmpEnd :
  is_list s (P ++ S ++ n :: R) →
  hd_error S = Some tmpStart → last S = Some tmpEnd →
  length S < sfuel →
  ∃ ts te s',
    is_list s' (P ++ insert_sorted cmp n S ++ R) ∧
    hd_error (insert_sorted cmp n S) = Some ts ∧
    last (insert_sorted cmp n S) = Some te ∧
    ∀ fuel,
      sortSubset_loop (Datatypes.S fuel) sfuel cmp end_ (Some n) tmpStart tmpEnd s =
      if decide (n = end_) then (Ok (ts, te), s')
      else sortSubset_loop fuel sfuel cmp end_ (hd_error R) ts te s'.
Proof.
  intros Hl Hts Hte Hsfuel.
  assert (HS : S ≠ []) by (intros ->; done).
  assert (Hl0 : is_list s ((P ++ S) ++ n :: R)) by (by rewrite <- app_assoc).
  pose proof (is_list_next _ _ _ _ Hl0) as Hnx.
  destruct (remove_spec _ _ _ _ Hl0) as (s1 & Hrm & _ & _ & Hfresh & Hl1).
  specialize (Hl1 ltac:(by destruct P, S)).
  assert (Hn : n ∉ (P ++ S) ++ R).
  { destruct Hl0 as [ND _]. apply NoDup_mid in ND as (_ & _ & HnA & HnB & _).
    intros [|]%elem_of_app; done. }
  destruct (sortSubset_scan_spec cmp n R S P [] s1 sfuel tmpStart)
    as (b & ts & s2 & Hscan & Hres).
  { by rewrite <- app_assoc in Hl1. }
  { by rewrite <- app_assoc in Hn. }
  { done. }
  { done. }
  rewrite (hd_error_app_ne S R HS), Hts in Hscan. cbn [app] in Hres.
  destruct b.
  - destruct Hres as (Hl2 & Hh2 & Hla2).
    exists ts, tmpEnd, s2. split_and!; [done|done|congruence|].
    intros fuel. cbn [sortSubset_loop].
    rewrite bind_gets, Hnx.
    erewrite bind_Ok by exact Hrm. erewrite bind_Ok by exact Hscan.
    lazy beta iota zeta. rewrite bind_mret. by case_decide.
  - destruct Hres as (-> & -> & Hins). rewrite Hins.
    exists tmpStart, n.
    exists (match hd_error R with
            | Some nx => insertBefore nx n s1
            | None => append n s1
            end).
    split_and!.
    + destruct R as [|nx R]; cbn [hd_error].
      * rewrite app_nil_r in Hl1 |- *. rewrite app_assoc.
        apply append_is_list; [done| |done]. by rewrite app_nil_r in Hn.
      * rewrite <- app_assoc. cbn [app]. rewrite app_assoc.
        by apply insertBefore_is_list.
    + by rewrite hd_error_app_ne.
    + by rewrite last_snoc.
    + intros fuel. cbn [sortSubset_loop].
      rewrite bind_gets, Hnx.
      erewrite bind_Ok by exact Hrm. erewrite bind_Ok by exact Hscan.
      lazy beta iota zeta. rewrite bind_Ok with (a := n)
        (s' := match hd_error R with
               | Some nx => insertBefore nx n s1
               | None => append n s1
               end); [by case_decide|].
      by destruct (hd_error R).
Qed.

Lemma sortSubset_loop_spec cmp end_ Q U :
  ∀ n P S s fuel sfuel tmpStart tmpEnd,
    is_list s (P ++ S ++ (n :: U) ++ Q) →
    hd_error S = Some tmpStart → last S = Some tmpEnd →
    last (n :: U) = Some end_ →
    length (n :: U) ≤ fuel → length (S ++ n :: U) ≤ sfuel →
    ∃ ts te s',
      sortSubset_loop fuel sfuel cmp end_ (Some n) tmpStart tmpEnd s
        = (Ok (ts, te), s') ∧
      let ys := fold_left (fun S n => insert_sorted cmp n S) (n :: U) S in
      is_list s' (P ++ ys ++ Q) ∧ hd_error ys = Some ts ∧ last ys = Some te.
Proof.
  induction U as [|n' U IH];
    intros n P S s fuel sfuel tmpStart tmpEnd Hl Hts Hte Hend Hfuel Hsfuel.
  all: destruct fuel as [|fuel]; [simpl in Hfuel; lia|].
  all: rewrite length_app in Hsfuel; cbn [length] in Hsfuel, Hfuel.
  - destruct (sortSubset_loop_step cmp end_ n P S Q s sfuel tmpStart tmpEnd Hl Hts Hte)
      as (ts & te & s' & Hl' & Hts' & Hte' & Hrun); [lia|].
    rewrite Hrun. injection Hend as ->. rewrite decide_True by done.
    exists ts, te, s'. done.
  - assert (Hne : n ≠ end_).
    { intros ->. rewrite last_cons_cons in Hend.
      apply last_Some_elem_of in Hend.
      destruct Hl as [ND _]. rewrite app_assoc in ND.
      change ((end_ :: n' :: U) ++ Q) with (end_ :: ((n' :: U) ++ Q)) in ND.
      apply NoDup_mid in ND as (_ & _ & _ & HnB & _).
      apply HnB. apply elem_of_app. by left. }
    change ((n :: n' :: U) ++ Q) with (n :: ((n' :: U) ++ Q)) in Hl.
    destruct (sortSubset_loop_step cmp end_ n P S _ s sfuel tmpStart tmpEnd Hl Hts Hte)
      as (ts & te & s' & Hl' & Hts' & Hte' & Hrun); [lia|].
    rewrite Hrun. rewrite decide_False by done.
    change (hd_error ((n' :: U) ++ Q)) with (Some n').
    destruct (IH n' P (insert_sorted cmp n S) s' fuel sfuel ts te)
      as (ts2 & te2 & s2 & Hrun2 & Hres); try done.
    + cbn [length]. lia.
    + rewrite length_app. cbn [length].
      assert (length (insert_sorted cmp n S) = Datatypes.S (length S)); [|lia].
      clear. induction S as [|a S IHS]; simpl; [done|]. case_match; simpl; lia.
    + exists ts2, te2, s2. done.
Qed.

(** ** Insertion sort on sequences *)

Section isort.
Variable cmp : loc → loc → Z.

#[local] Abbreviation ins := (fun (S : list loc) (n : loc) => insert_sorted cmp n S).
#[local] Abbreviation R := (not_less cmp).

Lemma insert_sorted_split n S :
  ∃ S1 S2, S = S1 ++ S2 ∧ insert_sorted cmp n S = S1 ++ n :: S2.
Proof.
  induction S as [|p S (S1 & S2 & -> & IH)]; simpl.
  - by exists [], [].
  - case_match.
    + by exists [], (p :: S1 ++ S2).
    + exists (p :: S1), S2. by rewrite IH.
Qed.

Lemma insert_sorted_perm n S : insert_sorted cmp n S ≡ₚ n :: S.
Proof.
  destruct (insert_sorted_split n S) as (S1 & S2 & -> & ->).
  by rewrite Permutation_middle.
Qed.

Lemma fold_insert_perm U S : fold_left ins U S ≡ₚ S ++ U.
Proof.
  revert S. induction U as [|n U IH]; intros S; simpl.
  - by rewrite app_nil_r.
  - rewrite IH. rewrite insert_sorted_perm.
    simpl. apply Permutation_middle.
Qed.

Lemma isort_perm xs : isort cmp xs ≡ₚ xs.
Proof. unfold isort. apply (fold_insert_perm xs []). Qed.

Lemma insert_sorted_before n S a b :
  before S a b → before (insert_sorted cmp n S) a b.
Proof.
  unfold before. intros H.
  destruct (insert_sorted_split n S) as (S1 & S2 & -> & ->).
  etrans; [exact H|]. apply sublist_app; [done|]. by apply sublist_cons.
Qed.

Lemma fold_insert_before U S a b :
  before S a b → before (fold_left ins U S) a b.
Proof.
  revert S. induction U as [|n U IH]; intros S H; simpl; [done|].
  apply IH. by apply insert_sorted_before.
Qed.

Lemma fold_insert_elem U S a : a ∈ S → a ∈ fold_left ins U S.
Proof. intros H. rewrite fold_insert_perm. apply elem_of_app. by left. Qed.

Lemma StronglySorted_before S a b : StronglySorted R S → before S a b → R a b.
Proof.
  unfold before. induction 1 as [|x S HS IH HF]; intros Hb.
  - by apply sublist_nil_r in Hb.
  - apply sublist_cons_r in Hb as [Hb|(l' & [= -> <-] & Hb)]; [by apply IH|].
    apply sublist_cons_l in Hb as (k1 & k2 & -> & _).
    rewrite List.Forall_forall in HF. apply HF.
    apply list_elem_of_In, elem_of_app. right. left.
Qed.

Section strict.
Hypothesis Hord : strict_order cmp.

Lemma cmp_asym a b : (cmp a b < 0)%Z → ¬ (cmp b a < 0)%Z.
Proof.
  destruct Hord as [Hirr Htr]. intros H1 H2. by apply (Hirr a), (Htr a b a).
Qed.

Lemma insert_sorted_sorted n S :
  StronglySorted R S → StronglySorted R (insert_sorted cmp n S).
Proof.
  destruct Hord as [Hirr Htr].
  induction 1 as [|p S HS IH HF]; simpl.
  - repeat constructor.
  - destruct (cmp n p <? 0)%Z eqn:E.
    + apply Z.ltb_lt in E. constructor; [by constructor|].
      constructor; [by apply cmp_asym|].
      rewrite List.Forall_forall in HF |- *. intros q Hq Hqn.
      apply (HF q Hq). by apply (Htr q n p).
    + apply Z.ltb_ge in E. constructor; [done|].
      rewrite List.Forall_forall in HF |- *. intros q Hq.
      apply list_elem_of_In in Hq. rewrite insert_sorted_perm in Hq.
      apply elem_of_cons in Hq as [->|Hq]; [unfold not_less; lia|].
      apply HF. by apply list_elem_of_In.
Qed.

Lemma fold_insert_sorted U S :
  StronglySorted R S → StronglySorted R (fold_left ins U S).
Proof.
  revert S. induction U as [|n U IH]; intros S H; simpl; [done|].
  apply IH. by apply insert_sorted_sorted.
Qed.

Lemma isort_non_decreasing xs : non_decreasing cmp (isort cmp xs).
Proof.
  intros a b Hb. apply (StronglySorted_before (isort cmp xs) a b); [|done].
  apply fold_insert_sorted. constructor.
Qed.
End strict.

Section weak.
Hypothesis Hord : weak_order cmp.

(** A node that is not strictly less than [a] is put after [a]. *)
Lemma insert_sorted_after n S a :
  StronglySorted R S → a ∈ S → ¬ (cmp n a < 0)%Z →
  before (insert_sorted cmp n S) a n.
Proof.
  destruct Hord as [_ Hneg]. unfold before.
  induction 1 as [|p S HS IH HF]; intros Ha Hna; simpl.
  - by apply elem_of_nil in Ha.
  - rewrite List.Forall_forall in HF.
    destruct (cmp n p <? 0)%Z eqn:E.
    + apply Z.ltb_lt in E. exfalso.
      apply elem_of_cons in Ha as [->|Ha]; [done|].
      destruct (Hneg n a p E) as [H1|H1]; [done|].
      apply (HF a); [by apply list_elem_of_In|done].
    + apply elem_of_cons in Ha as [->|Ha].
      * apply sublist_skip. apply sublist_cons_l.
        destruct (insert_sorted_split n S) as (S1 & S2 & _ & ->).
        exists S1, S2. split; [done|]. apply sublist_nil_l.
      * apply sublist_cons. by apply IH.
Qed.

Lemma fold_insert_stable U : ∀ S a b,
    StronglySorted R S → before U a b → ¬ (cmp b a < 0)%Z →
  before (fold_left ins U S) a b.
Proof.
  destruct Hord as [Hstrict _].
  unfold before at 1.
  induction U as [|n U IH]; intros S a b HS Hb Hba; simpl.
  - by apply sublist_nil_r in Hb.
  - apply sublist_cons_r in Hb as [Hb|(l' & [= -> <-] & Hb)].
    + apply IH; [|done..]. by apply insert_sorted_sorted.
    + clear IH. apply sublist_cons_l in Hb as (k1 & k2 & -> & _).
      rewrite fold_left_app. simpl. apply fold_insert_before.
      apply insert_sorted_after; [|apply fold_insert_elem|done].
      * apply fold_insert_sorted; [done|]. by apply insert_sorted_sorted.
      * rewrite insert_sorted_perm. left.
Qed.

Lemma isort_stable xs a b :
  before xs a b → ¬ (cmp b a < 0)%Z → before (isort cmp xs) a b.
Proof. apply fold_insert_stable. constructor. Qed.
End weak.
End isort.

(** ** [sortSubset] *)

Lemma hd_last_singleton (xs : list loc) x :
  NoDup xs → hd_error xs = Some x → last xs = Some x → xs = [x].
Proof.
  intros ND Hh Hl. destruct xs as [|y xs]; simplify_eq/=.
  destruct xs as [|z xs]; [done|]. exfalso.
  rewrite last_cons_cons in Hl. apply last_Some_elem_of in Hl.
  by apply NoDup_cons in ND as [? _].
Qed.

(** C2 (amended): for every list [P ++ xs ++ Q], with [start] the first and
    [end_] the last node of the range [xs], and for every comparator,
    [sortSubset] returns, given fuel for its loops, and rearranges the
    range in place into the insertion sort [isort cmp xs] of it: the list
    becomes [P ++ isort cmp xs ++ Q], the returned nodes are the first and the
    last node of the sorted range and are nodes of the original range, and
    the sorted range is a permutation of the original one.  When the relation
    [cmp a b < 0] is a strict partial order, no node of the result is
    strictly less than a node before it; when it is moreover a strict weak
    order, a node that is not strictly less than an earlier node of the input
    stays behind it, so that nodes comparing equal keep their input order.
    When [start = end_] the call returns [{start, end}] and the state is
    unchanged. *)
Theorem sortSubset_sorts cmp P xs Q start end_ s fuel :
  is_list s (P ++ xs ++ Q) →
  hd_error xs = Some start → last xs = Some end_ → length xs ≤ fuel →
  ∃ start' end' s',
    sortSubset fuel start end_ cmp s = (Ok (start', end'), s') ∧
    is_list s' (P ++ isort cmp xs ++ Q) ∧
    toArray s' = P ++ isort cmp xs ++ Q ∧
    hd_error (isort cmp xs) = Some start' ∧
    last (isort cmp xs) = Some end' ∧
    isort cmp xs ≡ₚ xs ∧
    start' ∈ xs ∧ end' ∈ xs ∧
    (strict_order cmp → non_decreasing cmp (isort cmp xs)) ∧
    (weak_order cmp →
       ∀ a b, before xs a b → ¬ (cmp b a < 0)%Z → before (isort cmp xs) a b) ∧
    (start = end_ → s' = s ∧ start' = start ∧ end' = end_).
Proof.
  intros Hl Hhd Hla Hfuel.
  assert (NDxs : NoDup xs).
  { destruct Hl as [ND _]. apply NoDup_app in ND as (_ & _ & ND).
    by apply NoDup_app in ND as (ND & _). }
  assert (Hcore : ∃ start' end' s',
    sortSubset fuel start end_ cmp s = (Ok (start', end'), s') ∧
    is_list s' (P ++ isort cmp xs ++ Q) ∧
    hd_error (isort cmp xs) = Some start' ∧
    last (isort cmp xs) = Some end' ∧
    (start = end_ → s' = s ∧ start' = start ∧ end' = end_)).
  { unfold sortSubset. destruct (decide (start = end_)) as [->|Hne].
    - assert (xs = [end_]) as -> by (by apply hd_last_singleton).
      by exists end_, end_, s.
    - destruct xs as [|x xs]; [done|]. injection Hhd as ->.
      destruct xs as [|n U]; [by simplify_eq/=|].
      rewrite bind_gets.
      assert (Hl0 : is_list s (P ++ start :: (n :: U) ++ Q)) by done.
      rewrite (is_list_next _ _ _ _ Hl0). cbn [app hd_error].
      destruct (sortSubset_loop_spec cmp end_ Q U n P [start] s fuel fuel start start)
        as (ts & te & s' & Hrun & Hl' & Hts & Hte); try done.
      + simpl in Hfuel |- *. lia.
      + exists ts, te, s'. done. }
  destruct Hcore as (start' & end' & s' & Hrun & Hl' & Hts & Hte & Heq).
  exists start', end', s'. split_and!; try done.
  - by apply is_list_toArray.
  - apply isort_perm.
  - rewrite <- (isort_perm cmp xs). by apply hd_error_elem.
  - rewrite <- (isort_perm cmp xs). by apply last_Some_elem_of.
  - intros Hord. by apply isort_non_decreasing.
  - intros Hord a b. by apply isort_stable.
Qed.

(** ** Sequences of operations, and [remove] *)

(** An operation that meets its precondition, other than the removal of a
    head that has a successor, returns and leaves a well-formed list. *)
Lemma run_op_is_list o s xs :
  is_list s xs → precondition o s → ¬ removes_head_with_successor o s →
  ∃ s' xs', run_op o s = (Ok tt, s') ∧ is_list s' xs'.
Proof.
  intros Hl Hpre Hnot. pose proof (is_list_toArray _ _ Hl) as Harr.
  destruct o as [n|b n|a n|n|other]; simpl in Hpre, Hnot; unfold member, detached in Hpre;
    rewrite ?Harr in Hpre.
  - destruct Hpre as [Hn Hf]. eexists _, _. split; [done|]. by apply append_is_list.
  - destruct Hpre as (Hb & Hn & _). apply list_elem_of_split in Hb as (A & B & ->).
    eexists _, _. split; [done|]. by apply insertBefore_is_list.
  - destruct Hpre as (Ha & Hn & _). apply list_elem_of_split in Ha as (A & B & ->).
    eexists _, _. split; [done|]. by apply insertAfter_is_list.
  - apply list_elem_of_split in Hpre as (A & B & ->).
    destruct (remove_spec A n B s Hl) as (s' & Hrun & Hh & Ht & _ & Hl').
    exists s', (A ++ B). split.
    { cbn [run_op]. by rewrite (bind_Ok _ _ _ _ _ Hrun). }
    destruct A as [|a A]; [|by apply Hl'].
    destruct B as [|b B].
    + split; [constructor|]. simpl in *. by rewrite Hh, Ht.
    + exfalso. apply Hnot. rewrite (is_list_head _ _ Hl), (is_list_tail _ _ Hl).
      split; [done|]. cbn [app]. rewrite last_cons.
      destruct (last (b :: B)) as [z|] eqn:E; [|by apply last_None in E].
      intros [= ->]. apply last_Some_elem_of in E.
      destruct Hl as [ND _]. by apply NoDup_cons in ND as [? _].
  - destruct Hpre as [Ho Hdisj]. eexists _, _. split; [done|].
    by apply prependList_is_list.
Qed.

(** The invariants hold after each operation of a sequence that never
    removes a head that has a successor. *)
Lemma run_ops_invariants os : ∀ s xs,
  is_list s xs → ops_ok os s →
  ∀ k, ∃ s', for_each (take k os) run_op s = (Ok tt, s') ∧ invariants s'.
Proof.
  induction os as [|o os IH]; intros s xs Hl Hok k.
  { exists s. rewrite take_nil. split; [done|]. by eapply is_list_invariants. }
  destruct k as [|k].
  { exists s. split; [done|]. by eapply is_list_invariants. }
  destruct Hok as (Hpre & Hnot & Hok).
  destruct (run_op_is_list o s xs Hl Hpre Hnot) as (s1 & xs1 & Hrun & Hl1).
  rewrite Hrun in Hok. destruct (IH s1 xs1 Hl1 Hok k) as (s' & Hrun' & Hinv).
  exists s'. split; [|done]. cbn [take for_each].
  by rewrite (bind_Ok _ _ _ _ _ Hrun).
Qed.

(** C1: the invariants do not survive the removal of the head of a list of
    two nodes.  After [append(1); append(2); remove(1)] on an empty list the
    head is node 2, whose [prev] still points to the removed node 1: the
    branch of [remove] for the head never resets the [prev] link of the
    successor, which the branch for the other nodes does. *)
Theorem remove_head_breaks_invariants :
  let os := [Append 1; Append 2; Remove 1] in
  preconditions_met os (new_LinkedList, ∅) ∧
  ∃ s', for_each os run_op (new_LinkedList, ∅) = (Ok tt, s') ∧
        head s'.1 = Some 2%positive ∧
        prev (s'.2 !!! 2%positive) = Some 1%positive ∧
        ¬ invariants s'.
Proof.
  split.
  { cbn [preconditions_met precondition]. unfold detached, member.
    split_and!; try done; apply (bool_decide_unpack _); vm_compute; exact I. }
  eexists. split; [vm_compute; reflexivity|]. split_and!; [done..|].
  intros (_ & Hhead & _). specialize (Hhead 2%positive eq_refl).
  vm_compute in Hhead. discriminate.
Qed.

(** What the stale link leads to: when a node is put before the new head
    and the removed node is appended again, the chain is a cycle, and a
    traversal from the head does not end. *)
Lemma remove_head_then_reuse_makes_cycle :
  let s := append 1 (insertBefore 2 3
             (remove 1 (append 2 (append 1 (new_LinkedList, ∅)))).2) in
  tail s.1 = Some 1%positive ∧ next (s.2 !!! 1%positive) = Some 3%positive ∧
  forEach_from 7 s.2 (head s.1) = [3; 2; 1; 3; 2; 1; 3]%positive.
Proof. vm_compute. done. Qed.

(** C6: a head node that is not the tail and has a null [next] link is
    removed without any assertion failure, and leaves [head] null next to a
    non-null [tail]: the check for a non-tail node without successor is
    made for the nodes other than the head only. *)
Theorem remove_head_null_next_no_throw :
  let s : LS := ({| head := Some 1%positive; tail := Some 2%positive |},
                 {[ 2%positive := {| next := None; prev := Some 1%positive |} ]}) in
  next (s.2 !!! 1%positive) = None ∧ tail s.1 ≠ Some 1%positive ∧
  ∃ s', remove 1%positive s = (Ok None, s') ∧
        head s'.1 = None ∧ tail s'.1 = Some 2%positive.
Proof.
  split_and!; [done|done|]. eexists. split; [vm_compute; reflexivity|]. done.
Qed.

(** C2 as stated, for every comparator, fails: with the comparator that
    answers -1 on every pair, sorting the range from node 1 to node 2 of the
    list [1; 2] yields the sequence [2; 1], in which node 1 is strictly
    less than node 2 before it. *)
Lemma sortSubset_inconsistent_comparator :
  let cmp := fun _ _ : loc => (-1)%Z in
  let s := append 2 (append 1 (new_LinkedList, ∅)) in
  ∃ s', sortSubset 2 1%positive 2%positive cmp s = (Ok (2%positive, 1%positive), s') ∧
        toArray s' = [2; 1]%positive ∧
        ¬ non_decreasing cmp (toArray s').
Proof.
  eexists. split; [vm_compute; reflexivity|]. split; [vm_compute; reflexivity|].
  intros H. apply (H 2%positive 1%positive); [|done].
  vm_compute. apply sublist_skip, sublist_skip, sublist_nil.
Qed.

(** With a strict partial order that is not a weak order, two nodes that
    compare equal can change places: nodes 2 and 3 of the list [1; 2; 3]
    under [only_3_before_1]. *)
Lemma sortSubset_partial_order_not_stable :
  strict_order only_3_before_1 ∧
  only_3_before_1 2 3 = 0%Z ∧ only_3_before_1 3 2 = 0%Z ∧
  ∃ s', sortSubset 3 1 3 only_3_before_1 list123 = (Ok (3%positive, 2%positive), s') ∧
        toArray s' = [3; 1; 2]%positive.
Proof.
  split_and!; [|done|done|].
  - split.
    + intros a. unfold only_3_before_1. repeat case_decide; naive_solver lia.
    + intros a b c. unfold only_3_before_1. repeat case_decide; naive_solver lia.
  - eexists. split; vm_compute; reflexivity.
Qed.

(** When [remove] throws: the node is not the head, and either has no
    predecessor or is not the tail and has no successor. *)
Lemma remove_throws_iff n l h :
  (∃ msg s', remove n (l, h) = (Throw msg, s')) ↔
  head l ≠ Some n ∧
  (prev (h !!! n) = None ∨ (tail l ≠ Some n ∧ next (h !!! n) = None)).
Proof.
  unfold remove.
  destruct (decide (head l = Some n)) as [Hh|Hh].
  { split; [by intros (msg & s' & [=])|by intros [? _]]. }
  destruct (prev (h !!! n)) as [p|] eqn:Hp.
  - rewrite next_set_next.
    assert (Hn : (if decide (n = p) then next (h !!! n) else next (h !!! n))
                 = next (h !!! n)) by (by case_decide).
    rewrite Hn. clear Hn.
    destruct (decide (tail l = Some n)) as [Ht|Ht].
    { split; [by intros (msg & s' & [=])|]. by intros [_ [|[]]]. }
    destruct (next (h !!! n)) as [q|] eqn:Hq.
    + split; [by intros (msg & s' & [=])|]. by intros [_ [|[]]].
    + split; [|by eexists _, _]. intros _. split; [done|]. by right.
  - split; [|by eexists _, _]. intros _. split; [done|]. by left.
Qed.

(** ** [remove], [prependList] and [applyTransform] *)

(** C5: for a member [n] of the list [A ++ n :: B], [remove n] returns the
    node that was [n.next] just before the call, which is the first node of
    [B] and null when [n] was the tail; afterwards [head] is the first and
    [tail] the last node of [A ++ B], in each of the four cases ([A] or [B]
    empty or not). *)
Theorem remove_returns_next A n B s :
  is_list s (A ++ n :: B) →
  ∃ s', remove n s = (Ok (next (s.2 !!! n)), s') ∧
        next (s.2 !!! n) = hd_error B ∧
        head s'.1 = hd_error (A ++ B) ∧
        tail s'.1 = last (A ++ B).
Proof.
  intros Hl. destruct (remove_spec A n B s Hl) as (s' & Hrun & Hh & Ht & _).
  exists s'. by rewrite (is_list_next _ _ _ _ Hl).
Qed.

(** C7: [prependList(other)], for a list [other] of nodes [ys] that shares
    no node with this list of nodes [xs]: afterwards this list is
    [ys ++ xs], which is what its traversal from the head yields; nothing
    changes when [other] is empty; when this list is empty and [other] is
    not, this list takes the [head] and [tail] of [other] and no node is
    written. *)
Theorem prependList_splices other s xs ys :
  is_list s xs → is_list (other, s.2) ys → (∀ y, y ∈ ys → y ∉ xs) →
  is_list (prependList other s) (ys ++ xs) ∧
  toArray (prependList other s) = ys ++ xs ∧
  (ys = [] → prependList other s = s) ∧
  (xs = [] → ys ≠ [] →
     prependList other s = ({| head := head other; tail := tail other |}, s.2)).
Proof.
  intros Hx Hy Hdisj.
  pose proof (prependList_is_list ys xs other s Hx Hy Hdisj) as Hl.
  split_and!; [done|by apply is_list_toArray| |].
  - intros ->. destruct Hy as [_ [Hh Ht]]. simpl in *.
    destruct s as [l h]. unfold prependList. by rewrite Ht.
  - intros -> Hne. pose proof (is_list_head _ _ Hx) as Hh.
    pose proof (is_list_head _ _ Hy) as Hh'. pose proof (is_list_tail _ _ Hy) as Ht'.
    destruct s as [l h]. simpl in *. unfold prependList. rewrite Hh, Hh', Ht'.
    destruct ys as [|y ys]; [done|]. simpl.
    destruct (last (y :: ys)) eqn:E; [done|]. by apply last_None in E.
Qed.

(** C4: with a [visit] hook that returns, for every node it is called on, a
    newly constructed node [repl n] holding the links of [n], whatever the
    hook does with [n] itself (keep its links, clear them),
    [applyTransform] returns, given fuel for the length of the list, and
    the list becomes the sequence of the replacements in the order of the
    nodes they replace: same length, and the invariants of the list hold.
    The loop goes on from the node that the hook returned: after a call of
    the hook that returns [n'], the node visited next is [n'.next] as it
    is once [n'] is relinked; the links of the node the hook was called on
    are not read again. *)
Theorem applyTransform_replacing repl v xs s fuel :
  is_list s xs → replacing_visit repl v →
  NoDup (repl <$> xs) → (∀ x, x ∈ xs → repl x ∉ xs) → length xs ≤ fuel →
  (∃ s',
    applyTransform fuel {| visitList := None; visit := Some v; finalize := None |} s
      = (Ok tt, s') ∧
    is_list s' (repl <$> xs) ∧
    toArray s' = repl <$> xs ∧
    length (toArray s') = length (toArray s) ∧
    invariants s') ∧
  (∀ fuel' n s0 n' s1,
     v n s0 = (Ok n', s1) →
     applyTransform_loop (S fuel') v (Some n) s0 =
     applyTransform_loop fuel' v (next ((relink n' s1).2 !!! n')) (relink n' s1)).
Proof.
  intros Hl Hv ND Hfresh Hfuel. split.
  - destruct (applyTransform_loop_replacing repl v xs Hv [] s fuel)
      as (s' & Hrun & Hl'); [done..|].
    exists s'. split_and!.
    + unfold applyTransform. cbn [visitList visit finalize].
      unfold mbind, M_bind, bind, gets, mret, M_ret, ret.
      rewrite (is_list_head _ _ Hl). by rewrite Hrun.
    + done.
    + by apply is_list_toArray.
    + rewrite (is_list_toArray _ _ Hl), (is_list_toArray _ _ Hl'). apply length_fmap.
    + by eapply is_list_invariants.
  - intros fuel' n s0 n' s1 Hrun. cbn [applyTransform_loop].
    unfold mbind, M_bind, bind. rewrite Hrun. reflexivity.
Qed.

(** ** The scope tree *)

(** [allocateId] mints an identifier that the scope has not minted before. *)
Lemma Scope_allocateId_fresh sc :
  (owners sc, (Scope_allocateId sc).1) ∉ Scope_minted sc ∧
  Scope_minted (Scope_allocateId sc).2 =
    Scope_minted sc ++ [(owners sc, (Scope_allocateId sc).1)].
Proof.
  unfold Scope_minted, Scope_allocateId. cbn [fst snd nextId owners]. split.
  - intros (i & [= <-] & Hi%elem_of_seq)%list_elem_of_fmap. lia.
  - by rewrite seq_S, fmap_app.
Qed.

(** The identifiers of a child scope are not identifiers of its parent,
    whatever the two scopes mint, although their numbers are the same. *)
Lemma Scope_child_disjoint owner parent sc sc' :
  owners sc = owners (Scope_child owner parent) → owners sc' = owners parent →
  ∀ x, x ∈ Scope_minted sc → x ∉ Scope_minted sc'.
Proof.
  unfold Scope_minted. cbn [Scope_child owners].
  intros E E' x (i & -> & _)%list_elem_of_fmap (j & [= E1 _] & _)%list_elem_of_fmap.
  rewrite E, E' in E1. apply (f_equal length) in E1. simpl in E1. lia.
Qed.

(** The scope of the converter of a nested template is the child that the
    scope of the parent makes for the id of the template. *)
Lemma child_converter_owners id vars sc :
  owners (scope (child_converter id vars sc)) = id :: owners sc.
Proof.
  unfold child_converter. cbn [scope].
  assert (H : ∀ sc0, owners (fold_left
              (fun sc v => Scope_recordVariable (tmpl.var_name v) id (tmpl.var_value v) sc)
              vars sc0) = owners sc0).
  { induction vars as [|v vars IH]; intros sc0; [done|]. cbn [fold_left]. by rewrite IH. }
  by rewrite H.
Qed.

(** ** The lowering pass *)

Lemma is_list_agree l h h' xs :
  agree_on xs h h' → is_list (l, h) xs → is_list (l, h') xs.
Proof. intros Hag [ND H]. split; [done|]. by eapply dlseg_ext. Qed.

Lemma is_list_alloc l h xs n :
  n ∉ xs → is_list (l, h) xs → is_list (l, <[n := FRESH_NODE]> h) xs.
Proof.
  intros Hn. apply is_list_agree. intros x Hx.
  rewrite lookup_total_insert_ne; [done|]. by intros ->.
Qed.

Lemma append_other_list l1 l2 h xs ys n :
  is_list (l1, h) xs → (∀ x, x ∈ xs → x ∉ ys) → n ∉ ys →
  is_list (l2, h) ys → is_list (l2, (append n (l1, h)).2) ys.
Proof.
  intros Hxs Hdisj Hn. apply is_list_agree. intros y Hy.
  pose proof (is_list_tail _ _ Hxs) as Htl. simpl in Htl.
  unfold append. destruct (tail l1) as [t|] eqn:E; [|done].
  cbn [snd]. symmetry in Htl. apply last_Some_elem_of in Htl.
  assert (y ≠ t) by (intros ->; by apply (Hdisj t)).
  assert (y ≠ n) by (by intros ->).
  split; heap_solve.
Qed.

Section LoweringLemmas.
Context {IrExpr : Type} (process : AST → IrExpr).

Lemma alloc_create_append (node : @IrNode IrExpr) c w cs us :
  lists_ok (c, w) cs us →
  ∃ c' w',
    (alloc node ≫= create_append) (c, w) = (Ok tt, (c', w')) ∧
    lists_ok (c', w') (cs ++ [next_loc w]) us ∧
    objs w' = <[next_loc w := node]> (objs w) ∧
    next_loc w' = Pos.succ (next_loc w) ∧
    update c' = update c ∧ scope c' = scope c ∧
    tail (create c') = Some (next_loc w).
Proof.
  intros (Hc & Hu & Hdisj & Hlt). cbn [fst snd] in *.
  set (n := next_loc w).
  assert (Hnc : n ∉ cs).
  { intros Hin. specialize (Hlt n ltac:(apply elem_of_app; by left)). lia. }
  assert (Hnu : n ∉ us).
  { intros Hin. specialize (Hlt n ltac:(apply elem_of_app; by right)). lia. }
  set (h1 := <[n := FRESH_NODE]> (links w)).
  assert (Hc1 : is_list (create c, h1) cs) by (by apply is_list_alloc).
  assert (Hu1 : is_list (update c, h1) us) by (by apply is_list_alloc).
  assert (Hf : h1 !!! n = FRESH_NODE) by (subst h1; by rewrite lookup_total_insert_eq).
  pose proof (append_is_list cs n (create c, h1) Hc1 Hnc Hf) as Hc2.
  pose proof (append_other_list _ _ _ _ _ n Hc1 Hdisj Hnu Hu1) as Hu2.
  destruct (append n (create c, h1)) as [l2 h2] eqn:Eapp.
  assert (Htl : tail l2 = Some n).
  { pose proof (is_list_tail _ _ Hc2) as Ht. simpl in Ht. by rewrite Ht, last_snoc. }
  eexists _, _. split.
  { unfold mbind, M_bind, bind, alloc, create_append, modify. cbn [create links].
    fold n. fold h1. rewrite Eapp. reflexivity. }
  cbn [fst snd create update scope links objs next_loc].
  split_and!; try done. unfold lists_ok.
  cbn [fst snd create update scope links objs next_loc]. split_and!; try done.
  - intros x [Hx| ->%list_elem_of_singleton]%elem_of_app; [by apply Hdisj|done].
  - intros x Hx. rewrite <- app_assoc in Hx.
    apply elem_of_app in Hx as [Hx|Hx].
    + specialize (Hlt x ltac:(apply elem_of_app; by left)). lia.
    + apply elem_of_cons in Hx as [->|Hx]; [fold n; lia|].
      specialize (Hlt x ltac:(apply elem_of_app; by right)). lia.
Qed.

Lemma alloc_update_append (node : @IrNode IrExpr) c w cs us :
  lists_ok (c, w) cs us →
  ∃ c' w',
    (alloc node ≫= update_append) (c, w) = (Ok tt, (c', w')) ∧
    lists_ok (c', w') cs (us ++ [next_loc w]) ∧
    objs w' = <[next_loc w := node]> (objs w) ∧
    next_loc w' = Pos.succ (next_loc w) ∧
    create c' = create c ∧ scope c' = scope c.
Proof.
  intros (Hc & Hu & Hdisj & Hlt). cbn [fst snd] in *.
  set (n := next_loc w).
  assert (Hnc : n ∉ cs).
  { intros Hin. specialize (Hlt n ltac:(apply elem_of_app; by left)). lia. }
  assert (Hnu : n ∉ us).
  { intros Hin. specialize (Hlt n ltac:(apply elem_of_app; by right)). lia. }
  set (h1 := <[n := FRESH_NODE]> (links w)).
  assert (Hc1 : is_list (create c, h1) cs) by (by apply is_list_alloc).
  assert (Hu1 : is_list (update c, h1) us) by (by apply is_list_alloc).
  assert (Hf : h1 !!! n = FRESH_NODE) by (subst h1; by rewrite lookup_total_insert_eq).
  pose proof (append_is_list us n (update c, h1) Hu1 Hnu Hf) as Hu2.
  assert (Hdisj' : ∀ x, x ∈ us → x ∉ cs) by (intros x Hx Hx'; by apply (Hdisj x)).
  pose proof (append_other_list _ _ _ _ _ n Hu1 Hdisj' Hnc Hc1) as Hc2.
  destruct (append n (update c, h1)) as [l2 h2] eqn:Eapp.
  eexists _, _. split.
  { unfold mbind, M_bind, bind, alloc, update_append, modify. cbn [update links].
    fold n. fold h1. rewrite Eapp. reflexivity. }
  cbn [fst snd create update scope links objs next_loc].
  split_and!; try done. unfold lists_ok.
  cbn [fst snd create update scope links objs next_loc]. split_and!; try done.
  - intros x Hx [Hx'| ->%list_elem_of_singleton]%elem_of_app; [by apply (Hdisj x)|done].
  - intros x Hx. rewrite app_assoc in Hx.
    apply elem_of_app in Hx as [Hx|Hx].
    + specialize (Hlt x Hx). lia.
    + apply list_elem_of_singleton in Hx as ->. fold n. lia.
Qed.

End LoweringLemmas.

(** ** The lowering keeps the lists well formed *)

Section LoweringFrame.
Context {IrExpr : Type} (process : AST → IrExpr).

#[local] Abbreviation ST := (@CS IrExpr).
#[local] Abbreviation assertion := (ST → list loc → list loc → Prop).

Lemma triple_ret {A} F (a : A) (P : assertion) : triple F P (mret a) (fun _ => P).
Proof.
  intros s cs us Hok HF HP. exists [], []. rewrite !app_nil_r.
  split_and!; [done..| |reflexivity|by intros a' _]. by intros x Hx.
Qed.

Lemma triple_throw {A} F msg (P : assertion) (Q : A → assertion) :
  triple F P (throw msg) Q.
Proof.
  intros s cs us Hok HF HP. exists [], []. rewrite !app_nil_r.
  split_and!; [done..| |reflexivity|by intros a' [=]]. by intros x Hx.
Qed.

Lemma triple_bind {A B} F (P : assertion) (m : M ST A) (Q : A → assertion)
    (k : A → M ST B) (R : B → assertion) :
  triple F P m Q → (∀ a, triple F (Q a) (k a) R) → triple F P (m ≫= k) R.
Proof.
  intros Hm Hk s cs us Hok HF HP.
  destruct (Hm s cs us Hok HF HP) as (cs1 & us1 & Hok1 & HF1 & Hag1 & Hle1 & HQ).
  unfold mbind, M_bind, bind.
  destruct (m s) as [[a|msg| |] s1] eqn:Em; cbn [fst snd] in *.
  2-4: exists cs1, us1; split_and!; [done..|by intros ? [=]].
  destruct (Hk a s1 _ _ Hok1 HF1 (HQ a eq_refl))
    as (cs2 & us2 & Hok2 & HF2 & Hag2 & Hle2 & HR).
  exists (cs1 ++ cs2), (us1 ++ us2). rewrite !app_assoc.
  split_and!; [done..| |lia|done].
  intros x Hx. destruct (Hag1 x Hx) as [H1 H2]. destruct (Hag2 x Hx) as [H3 H4].
  split; congruence.
Qed.

(** A computation that writes neither the lists, nor the links, nor the
    allocation counter. *)
Lemma triple_same_lists {A} F (m : M ST A) (P : assertion) (Q : A → assertion) :
  (∀ s, create (m s).2.1 = create s.1 ∧ update (m s).2.1 = update s.1 ∧
        links (m s).2.2 = links s.2 ∧ next_loc (m s).2.2 = next_loc s.2) →
  (∀ s cs us a, P s cs us → (m s).1 = Ok a → Q a (m s).2 cs us) →
  triple F P m Q.
Proof.
  intros Hsame HQ s cs us Hok HF HP. exists [], []. rewrite !app_nil_r.
  destruct (Hsame s) as (Hc & Hu & Hl & Hn).
  split_and!.
  - unfold lists_ok. rewrite Hc, Hu, Hl, Hn. done.
  - intros x Hx. rewrite Hn. by apply HF.
  - rewrite Hl. by intros x Hx.
  - rewrite Hn. reflexivity.
  - intros a Ha. by apply HQ.
Qed.

Lemma appendable_same_links F l (s s' : @CS IrExpr) cs us :
  links s'.2 = links s.2 → next_loc s'.2 = next_loc s.2 →
  appendable F l s cs us → appendable F l s' cs us.
Proof. intros Hl Hn. unfold appendable. by rewrite Hl, Hn. Qed.

Lemma triple_allocateId F (P : assertion) :
  (∀ s s' cs us, links s'.2 = links s.2 → next_loc s'.2 = next_loc s.2 →
                 P s cs us → P s' cs us) →
  triple F P (allocateId : M ST Id) (fun _ => P).
Proof.
  intros HP. apply triple_same_lists.
  - by intros [c w].
  - intros [c w] cs us a Hs _. by eapply HP; [..|exact Hs].
Qed.

Lemma triple_recordReference F (P : assertion) name owner value :
  (∀ s s' cs us, links s'.2 = links s.2 → next_loc s'.2 = next_loc s.2 →
                 P s cs us → P s' cs us) →
  triple F P (recordReference name owner value : M ST _) (fun _ => P).
Proof.
  intros HP. apply triple_same_lists.
  - by intros [c w].
  - intros [c w] cs us a Hs _. by eapply HP; [..|exact Hs].
Qed.

Lemma triple_set_obj F (P : assertion) l f :
  (∀ s s' cs us, links s'.2 = links s.2 → next_loc s'.2 = next_loc s.2 →
                 P s cs us → P s' cs us) →
  triple F P (set_obj l f : M ST unit) (fun _ => P).
Proof.
  intros HP. apply triple_same_lists.
  - intros [c w]. unfold set_obj. by destruct (objs w !! l ≫= f).
  - intros [c w] cs us a Hs _. eapply HP; [..|exact Hs];
      unfold set_obj; by destruct (objs w !! l ≫= f).
Qed.

Lemma triple_alloc F (n : @IrNode IrExpr) :
  triple F any (alloc n) (fun l => appendable F l).
Proof.
  intros [c w] cs us (Hc & Hu & Hdisj & Hlt) HF _. exists [], [].
  rewrite !app_nil_r. cbn [fst snd alloc links next_loc] in *.
  assert (Hnc : next_loc w ∉ cs).
  { intros Hin. specialize (Hlt _ ltac:(apply elem_of_app; by left)). lia. }
  assert (Hnu : next_loc w ∉ us).
  { intros Hin. specialize (Hlt _ ltac:(apply elem_of_app; by right)). lia. }
  assert (HnF : next_loc w ∉ F).
  { intros Hin. destruct (HF _ Hin) as [? _]. simpl in *. lia. }
  split_and!.
  - split_and!; cbn [fst snd create update links next_loc].
    + by apply is_list_alloc.
    + by apply is_list_alloc.
    + done.
    + intros x Hx. specialize (Hlt x Hx). lia.
  - intros x Hx. destruct (HF x Hx) as (? & ? & ?). cbn [fst snd next_loc] in *.
    split_and!; [lia|done..].
  - intros x Hx. rewrite lookup_total_insert_ne; [done|]. by intros <-.
  - lia.
  - intros a [= <-]. split_and!; [done..| |cbn [fst snd next_loc]; lia].
    cbn [fst snd links]. by rewrite lookup_total_insert_eq.
Qed.

Lemma triple_create_append F l :
  triple F (appendable F l) (create_append l : M ST unit) (fun _ => any).
Proof.
  intros [c w] cs us (Hc & Hu & Hdisj & Hlt) HF (Hlc & Hlu & HlF & Hfresh & Hll).
  cbn [fst snd] in *. exists [l], []. rewrite app_nil_r.
  pose proof (append_is_list cs l (create c, links w) Hc Hlc Hfresh) as Hc2.
  pose proof (append_other_list _ _ _ _ _ l Hc Hdisj Hlu Hu) as Hu2.
  assert (HFl : ∀ zs, (∀ z, z ∈ zs → z ∉ cs ∧ z ≠ l) →
                agree_on zs (links w) (append l (create c, links w)).2).
  { intros zs Hzs y Hy. destruct (Hzs y Hy) as [Hyc Hyl].
    pose proof (is_list_tail _ _ Hc) as Htl. simpl in Htl.
    unfold append. destruct (tail (create c)) as [t|] eqn:E; [|done].
    cbn [snd]. symmetry in Htl. apply last_Some_elem_of in Htl.
    assert (y ≠ t) by (by intros ->).
    split; heap_solve. }
  unfold create_append, modify. cbn [fst snd].
  destruct (append l (create c, links w)) as [l2 h2] eqn:Eapp.
  cbn [fst snd create update links next_loc] in *.
  split_and!.
  - split_and!; cbn [fst snd create update links next_loc]; [done..| |].
    + intros x [Hx| ->%list_elem_of_singleton]%elem_of_app; [by apply Hdisj|done].
    + intros x Hx. rewrite <- app_assoc in Hx.
      apply elem_of_app in Hx as [Hx|Hx].
      * apply Hlt. apply elem_of_app. by left.
      * apply elem_of_cons in Hx as [->|Hx]; [done|].
        apply Hlt. apply elem_of_app. by right.
  - intros x Hx. destruct (HF x Hx) as (? & ? & ?). cbn [fst snd next_loc] in *.
    split_and!; [done| |done].
    intros [Hin| ->%list_elem_of_singleton]%elem_of_app; done.
  - apply HFl. intros z Hz. destruct (HF z Hz) as (? & ? & ?).
    split; [done|]. by intros ->.
  - reflexivity.
  - done.
Qed.

Lemma triple_update_append F l :
  triple F (appendable F l) (update_append l : M ST unit) (fun _ => any).
Proof.
  intros [c w] cs us (Hc & Hu & Hdisj & Hlt) HF (Hlc & Hlu & HlF & Hfresh & Hll).
  cbn [fst snd] in *. exists [], [l]. rewrite app_nil_r.
  assert (Hdisj' : ∀ x, x ∈ us → x ∉ cs) by (intros x Hx Hx'; by apply (Hdisj x)).
  pose proof (append_is_list us l (update c, links w) Hu Hlu Hfresh) as Hu2.
  pose proof (append_other_list _ _ _ _ _ l Hu Hdisj' Hlc Hc) as Hc2.
  assert (HFl : ∀ zs, (∀ z, z ∈ zs → z ∉ us ∧ z ≠ l) →
                agree_on zs (links w) (append l (update c, links w)).2).
  { intros zs Hzs y Hy. destruct (Hzs y Hy) as [Hyc Hyl].
    pose proof (is_list_tail _ _ Hu) as Htl. simpl in Htl.
    unfold append. destruct (tail (update c)) as [t|] eqn:E; [|done].
    cbn [snd]. symmetry in Htl. apply last_Some_elem_of in Htl.
    assert (y ≠ t) by (by intros ->).
    split; heap_solve. }
  unfold update_append, modify. cbn [fst snd].
  destruct (append l (update c, links w)) as [l2 h2] eqn:Eapp.
  cbn [fst snd create update links next_loc] in *.
  split_and!.
  - split_and!; cbn [fst snd create update links next_loc]; [done..| |].
    + intros x Hx [Hx'| ->%list_elem_of_singleton]%elem_of_app; [by apply (Hdisj x)|done].
    + intros x Hx. rewrite app_assoc in Hx.
      apply elem_of_app in Hx as [Hx|Hx].
      * by apply Hlt.
      * by apply list_elem_of_singleton in Hx as ->.
  - intros x Hx. destruct (HF x Hx) as (? & ? & ?). cbn [fst snd next_loc] in *.
    split_and!; [done|done|].
    intros [Hin| ->%list_elem_of_singleton]%elem_of_app; done.
  - apply HFl. intros z Hz. destruct (HF z Hz) as (? & ? & ?).
    split; [done|]. by intros ->.
  - reflexivity.
  - done.
Qed.

Lemma any_stable (s s' : @CS IrExpr) cs us :
  links s'.2 = links s.2 → next_loc s'.2 = next_loc s.2 → any s cs us → any s' cs us.
Proof. done. Qed.

Lemma triple_for_each {X} F (xs : list X) (body : X → M ST unit) :
  (∀ x, triple F any (body x) (fun _ => any)) →
  triple F any (for_each xs body) (fun _ => any).
Proof.
  intros Hbody. induction xs as [|x xs IH]; cbn [for_each].
  - apply triple_ret.
  - eapply triple_bind; [apply Hbody|]. intros ?. apply IH.
Qed.

Lemma triple_record_refs F owner rs :
  triple F any (record_refs owner rs : M ST _) (fun _ => any).
Proof.
  induction rs as [|r rs IH]; cbn [record_refs].
  - apply (triple_ret F [] any).
  - eapply triple_bind; [apply triple_recordReference, any_stable|]. intros h.
    eapply triple_bind; [apply IH|]. intros t. apply (triple_ret F _ any).
Qed.

Lemma triple_collect_refs F owner rs :
  triple F any (collect_refs owner rs : M ST _) (fun _ => any).
Proof.
  unfold collect_refs. case_bool_decide.
  - eapply triple_bind; [apply triple_record_refs|]. intros refs.
    apply (triple_ret F _ any).
  - apply (triple_ret F _ any).
Qed.

Lemma visitText_preserves value : preserves (visitText value : M ST unit).
Proof.
  intros F. unfold visitText.
  eapply triple_bind; [apply triple_allocateId, any_stable|]. intros id.
  eapply triple_bind; [apply triple_alloc|]. intros l.
  apply triple_create_append.
Qed.

Lemma visitBoundText_preserves value : preserves (visitBoundText process value).
Proof.
  intros F. unfold visitBoundText.
  eapply triple_bind; [apply triple_allocateId, any_stable|]. intros id.
  eapply triple_bind; [apply triple_alloc|]. intros l.
  eapply triple_bind; [apply triple_create_append|]. intros ?.
  destruct (match value with ASTWithSource a => a | _ => value end);
    try apply triple_throw.
  eapply triple_bind; [apply triple_alloc|]. intros l'.
  apply triple_update_append.
Qed.

Lemma visitElement_preserves name attributes inputs references visit_children :
  preserves visit_children →
  preserves (visitElement process name attributes inputs references visit_children).
Proof.
  intros Hch F. unfold visitElement.
  eapply triple_bind; [apply triple_allocateId, any_stable|]. intros id.
  eapply triple_bind; [apply triple_collect_refs|]. intros refs.
  eapply triple_bind; [apply triple_alloc|]. intros l.
  eapply triple_bind; [apply triple_set_obj, appendable_same_links|]. intros ?.
  eapply triple_bind; [apply triple_create_append|]. intros ?.
  eapply triple_bind.
  { destruct (bool_decide (0 < length attributes) || bool_decide (0 < length inputs)).
    - eapply triple_bind; [apply triple_set_obj, any_stable|]. intros ?.
      eapply triple_bind.
      { apply triple_for_each. intros attr.
        eapply triple_bind; [apply triple_set_obj, any_stable|]. intros ?.
        apply triple_set_obj, any_stable. }
      intros ?. eapply triple_bind.
      { destruct (bool_decide (0 < length inputs)).
        - apply triple_set_obj, any_stable.
        - apply (triple_ret F _ any). }
      intros ?. apply triple_for_each. intros input.
      eapply triple_bind; [apply triple_set_obj, any_stable|]. intros ?.
      eapply triple_bind; [apply triple_alloc|]. intros l'.
      apply triple_update_append.
    - apply (triple_ret F _ any). }
  intros ?. eapply triple_bind; [apply Hch|]. intros ?.
  eapply triple_bind; [apply triple_alloc|]. intros l'.
  apply triple_create_append.
Qed.

(** The nested template is lowered into lists of its own: the lists of
    [this] are among the nodes that the lowering leaves as they are. *)
Lemma parseChild_preserves id variables (visit_children : M ST unit) :
  preserves visit_children →
  preserves (parseChild id variables visit_children).
Proof.
  intros Hch F [c w] cs us Hok HF _.
  destruct Hok as (Hc & Hu & Hdisj & Hlt). cbn [fst snd] in *.
  set (child := child_converter id variables (scope c)).
  assert (Hok0 : lists_ok (child, w) [] []).
  { split_and!; cbn [fst snd]; [by split; [constructor|]..| |];
      intros x Hx; by apply elem_of_nil in Hx. }
  assert (HF0 : foreign (F ++ cs ++ us) (child, w) [] []).
  { intros x Hx. split_and!; [|by intros ?%elem_of_nil..]. cbn [fst snd].
    apply elem_of_app in Hx as [Hx|Hx]; [by destruct (HF x Hx)|by apply Hlt]. }
  destruct (Hch (F ++ cs ++ us) (child, w) [] [] Hok0 HF0 I)
    as (cs' & us' & Hok1 & HF1 & Hag & Hle & _).
  exists [], []. rewrite !app_nil_r.
  assert (Hst : (parseChild id variables visit_children (c, w)).2 =
                (c, (visit_children (child, w)).2.2)).
  { unfold parseChild. fold child.
    by destruct (visit_children (child, w)) as [[] []]. }
  rewrite Hst. cbn [fst snd] in *.
  split_and!.
  - split_and!; cbn [fst snd]; [| |done|].
    + eapply is_list_agree; [|exact Hc]. intros x Hx. apply Hag.
      apply elem_of_app. right. apply elem_of_app. by left.
    + eapply is_list_agree; [|exact Hu]. intros x Hx. apply Hag.
      apply elem_of_app. right. apply elem_of_app. by right.
    + intros x Hx. specialize (Hlt x Hx). lia.
  - intros x Hx. destruct (HF x Hx) as (? & ? & ?). cbn [fst snd] in *.
    split_and!; [lia|done..].
  - intros x Hx. apply Hag. apply elem_of_app. by left.
  - done.
  - done.
Qed.

Lemma visitTemplate_preserves tagName variables references
    (visit_children : M ST unit) :
  preserves visit_children →
  preserves (visitTemplate tagName variables references visit_children).
Proof.
  intros Hch F. unfold visitTemplate.
  eapply triple_bind; [apply triple_allocateId, any_stable|]. intros id.
  eapply triple_bind; [by apply parseChild_preserves|]. intros parsed.
  eapply triple_bind; [apply triple_collect_refs|]. intros refs.
  eapply triple_bind; [apply triple_alloc|]. intros l.
  eapply triple_bind; [apply triple_create_append|]. intros ?.
  eapply triple_bind; [apply triple_set_obj, any_stable|]. intros ?.
  eapply triple_bind; [apply triple_set_obj, any_stable|]. intros ?.
  apply triple_set_obj, any_stable.
Qed.

Lemma Node_visit_preserves node : preserves (Node_visit process node).
Proof.
  revert node. fix IH 1.
  intros [name attributes inputs references children|value|value
         |tagName variables references children| | | | | | |];
    cbn [Node_visit]; try (intros F; apply triple_throw).
  - apply visitElement_preserves. intros F.
    induction children as [|c children IHc].
    + apply (triple_ret F _ any).
    + eapply triple_bind; [apply IH|]. intros ?. apply IHc.
  - apply visitText_preserves.
  - apply visitBoundText_preserves.
  - apply visitTemplate_preserves. intros F.
    induction children as [|c children IHc].
    + apply (triple_ret F _ any).
    + eapply triple_bind; [apply IH|]. intros ?. apply IHc.
Qed.

End LoweringFrame.

Lemma bind_assoc {S A B C} (m : M S A) (f : A → M S B) (g : B → M S C) s :
  (m ≫= λ x, f x ≫= g) s = ((m ≫= f) ≫= g) s.
Proof. unfold mbind, M_bind, bind. by destruct (m s) as [[] ?]. Qed.

Section LoweringTheorems.
Context {IrExpr : Type} (process : AST → IrExpr).

(** C3 (amended): lowering the root template with one element [div], static
    attribute [class="a"], input [id] bound to [x] and one child text [hi]
    gives the create list
    [element-start(0, "div", ["class", "a", Bindings, "id"]); text(1, "hi");
    element-end(0)] and the update list [property(0, "id", process x)]: the
    attribute array of the element also holds the marker and the name of
    the bound input. *)
Theorem lowering_example :
  ∃ root w,
    parse process [example_div] "example" World_empty = (Ok root, w) ∧
    contents w (root_create root) =
      [Some (ElementStart 0 "div"
               (Some [AttrString "class"; AttrString "a";
                      AttrMarker Bindings; AttrString "id"]) None);
       Some (Text 1 (Some "hi"));
       Some (ElementEnd 0)] ∧
    contents w (root_update root) =
      [Some (Property 0 "id" (process example_x))].
Proof. eexists _, _. split; [vm_compute; reflexivity|]. split; vm_compute; reflexivity. Qed.

(** The two cases of [visitBoundText]. *)
Lemma visitBoundText_cases value c w cs us :
  lists_ok (c, w) cs us →
  match (match value with ASTWithSource a => a | _ => value end) with
  | Interpolation strings expressions =>
      ∃ c' w',
        visitBoundText process value (c, w) = (Ok tt, (c', w')) ∧
        lists_ok (c', w') (cs ++ [next_loc w]) (us ++ [Pos.succ (next_loc w)]) ∧
        objs w' !! Pos.succ (next_loc w) =
          Some (TextInterpolate (nextId (scope c))
                  {| interp_expressions := process <$> expressions;
                     interp_strings := strings |})
  | _ =>
      ∃ s', visitBoundText process value (c, w) =
              (Throw "BoundText is not an interpolation expression?", s')
  end.
Proof.
  intros Hok.
  set (c1 := {| create := create c; update := update c;
                scope := (Scope_allocateId (scope c)).2 |}).
  assert (Hok1 : lists_ok (c1, w) cs us) by done.
  destruct (alloc_create_append (Text (nextId (scope c)) None) c1 w cs us Hok1)
    as (c2 & w2 & Hrun2 & Hok2 & Hobjs2 & Hnl2 & Hup2 & Hsc2 & _).
  unfold visitBoundText.
  rewrite (bind_Ok allocateId _ (c, w) (nextId (scope c)) (c1, w)) by done.
  rewrite bind_assoc. rewrite (bind_Ok _ _ _ _ _ Hrun2).
  destruct (match value with ASTWithSource a => a | _ => value end);
    try (eexists; reflexivity).
  destruct (alloc_update_append
              (TextInterpolate (nextId (scope c))
                 {| interp_expressions := process <$> expressions;
                    interp_strings := strings |}) c2 w2 _ _ Hok2)
    as (c3 & w3 & Hrun3 & Hok3 & Hobjs3 & Hnl3 & Hcr3 & Hsc3).
  exists c3, w3. rewrite Hnl2 in *. split_and!; [done..|].
  rewrite Hobjs3. by rewrite lookup_insert_eq.
Qed.

(** C8: [visitBoundText] looks at the value of the bound text with one
    [ASTWithSource] envelope removed.  When that is an [Interpolation], the
    call returns and has appended exactly one node to the update list, a
    text-interpolation node with the id allocated for the text, the
    sub-expressions passed through [process], and the separator strings;
    for any other expression it throws. *)
Theorem visitBoundText_spec value c w cs us :
  lists_ok (c, w) cs us →
  (∀ strings expressions,
     unwrapped value = Interpolation strings expressions →
     ∃ c' w',
       visitBoundText process value (c, w) = (Ok tt, (c', w')) ∧
       lists_ok (c', w') (cs ++ [next_loc w]) (us ++ [Pos.succ (next_loc w)]) ∧
       objs w' !! Pos.succ (next_loc w) =
         Some (TextInterpolate (nextId (scope c))
                 {| interp_expressions := process <$> expressions;
                    interp_strings := strings |})) ∧
  (not_interpolation (unwrapped value) →
     ∃ s', visitBoundText process value (c, w) =
             (Throw "BoundText is not an interpolation expression?", s')).
Proof.
  intros Hok. pose proof (visitBoundText_cases value c w cs us Hok) as H.
  unfold unwrapped. split.
  - intros strings expressions Htop. by rewrite Htop in H.
  - intros Hni. by destruct (match value with ASTWithSource a => a | _ => value end).
Qed.

(** C9: when [visitBoundText] throws, the state it leaves has the id
    allocated from the scope, and the create list longer by one node, a
    [Text] with that id and no static value; the update list is as
    before. *)
Theorem visitBoundText_error_keeps_writes value c w cs us :
  lists_ok (c, w) cs us →
  not_interpolation (unwrapped value) →
  ∃ c' w',
    visitBoundText process value (c, w) =
      (Throw "BoundText is not an interpolation expression?", (c', w')) ∧
    scope c' = (Scope_allocateId (scope c)).2 ∧
    lists_ok (c', w') (cs ++ [next_loc w]) us ∧
    objs w' !! next_loc w = Some (Text (nextId (scope c)) None).
Proof.
  intros Hok Hni.
  set (c1 := {| create := create c; update := update c;
                scope := (Scope_allocateId (scope c)).2 |}).
  assert (Hok1 : lists_ok (c1, w) cs us) by done.
  destruct (alloc_create_append (Text (nextId (scope c)) None) c1 w cs us Hok1)
    as (c2 & w2 & Hrun2 & Hok2 & Hobjs2 & Hnl2 & Hup2 & Hsc2 & _).
  exists c2, w2. unfold visitBoundText.
  rewrite (bind_Ok allocateId _ (c, w) (nextId (scope c)) (c1, w)) by done.
  rewrite bind_assoc. rewrite (bind_Ok _ _ _ _ _ Hrun2).
  split_and!; [|done|done|].
  - unfold unwrapped in Hni.
    by destruct (match value with ASTWithSource a => a | _ => value end).
  - rewrite Hobjs2. by rewrite lookup_insert_eq.
Qed.

Lemma record_refs_run owner rs (c : Converter) (w : @World IrExpr) :
  ∃ refs c', record_refs owner rs (c, w) = (Ok refs, (c', w)) ∧
             create c' = create c ∧ update c' = update c.
Proof.
  revert c. induction rs as [|r rs IH]; intros c.
  { by exists [], c. }
  cbn [record_refs].
  set (c1 := {| create := create c; update := update c;
                scope := (Scope_recordReference (tmpl.ref_name r) owner
                            (tmpl.ref_value r) (scope c)).2 |}).
  destruct (IH c1) as (refs & c' & Hrun & Hc & Hu).
  eexists _, c'.
  rewrite (bind_Ok (recordReference _ _ _) _ (c, w) _ (c1, w)) by done.
  rewrite (bind_Ok _ _ _ _ _ Hrun). done.
Qed.

Lemma collect_refs_run owner rs (c : Converter) (w : @World IrExpr) :
  ∃ refs c', collect_refs owner rs (c, w) = (Ok refs, (c', w)) ∧
             create c' = create c ∧ update c' = update c.
Proof.
  unfold collect_refs. case_bool_decide.
  - destruct (record_refs_run owner rs c w) as (refs & c' & Hrun & Hc & Hu).
    exists (Some refs), c'. by rewrite (bind_Ok _ _ _ _ _ Hrun).
  - by exists None, c.
Qed.

Lemma set_obj_run (l : loc) f (n n' : @IrNode IrExpr) c w :
  objs w !! l = Some n → f n = Some n' →
  set_obj l f (c, w) =
    (Ok tt, (c, {| links := links w; objs := <[l := n']> (objs w);
                   next_loc := next_loc w |})).
Proof. intros Hl Hf. unfold set_obj. by rewrite Hl; simpl; rewrite Hf. Qed.

(** What [visitTemplate] does when the children are lowered without error. *)
Lemma visitTemplate_run tagName variables references
    (visit_children : M (@CS IrExpr) unit) c w parsed w1 :
  visit_children
    (child_converter (nextId (scope c)) variables (Scope_allocateId (scope c)).2, w)
    = (Ok tt, (parsed, w1)) →
  ∃ c' w' refs,
    visitTemplate tagName variables references visit_children (c, w)
      = (Ok tt, (c', w')) ∧
    tail (create c') = Some (next_loc w1) ∧
    objs w' !! next_loc w1 =
      Some (Template (nextId (scope c))
              (if decide (tagName = EmptyString) then "ng-template" else tagName)
              (create parsed) (update parsed) refs) ∧
    (∀ cs us, lists_ok (c, w1) cs us →
              lists_ok (c', w') (cs ++ [next_loc w1]) us).
Proof.
  intros Hchild.
  set (c1 := {| create := create c; update := update c;
                scope := (Scope_allocateId (scope c)).2 |}).
  destruct (collect_refs_run (nextId (scope c)) references c1 w1)
    as (refs & c2 & Hrefs & Hc2 & Hu2).
  set (tag := if decide (tagName ≠ EmptyString) then tagName else "ng-template").
  set (view := next_loc w1).
  set (h1 := <[view := FRESH_NODE]> (links w1)).
  destruct (append view (create c2, h1)) as [l3 h3] eqn:Eapp.
  set (o1 := <[view := Template (nextId (scope c)) tag new_LinkedList new_LinkedList None]>
               (objs w1)).
  set (c3 := {| create := l3; update := update c2; scope := scope c2 |}).
  assert (Happ : (alloc (Template (nextId (scope c)) tag new_LinkedList new_LinkedList None)
                    ≫= create_append) (c2, w1)
                 = (Ok tt, (c3, {| links := h3; objs := o1; next_loc := Pos.succ view |}))).
  { unfold mbind, M_bind, bind, alloc, create_append, modify. cbn [create links].
    fold view. fold h1. by rewrite Eapp. }
  exists c3. eexists. exists refs.
  split; [|split_and!].
  - unfold visitTemplate.
    rewrite (bind_Ok allocateId _ (c, w) (nextId (scope c)) (c1, w)) by done.
    rewrite (bind_Ok (parseChild _ _ _) _ (c1, w) parsed (c1, w1)); last first.
    { unfold parseChild. cbn [scope c1]. by rewrite Hchild. }
    rewrite (bind_Ok _ _ _ _ _ Hrefs).
    rewrite (bind_Ok (alloc _) _ (c2, w1) view
               (c2, {| links := h1; objs := o1; next_loc := Pos.succ view |})) by done.
    rewrite (bind_Ok (create_append _) _ _ tt
               (c3, {| links := h3; objs := o1; next_loc := Pos.succ view |})); last first.
    { unfold create_append, modify. cbn [create links]. by rewrite Eapp. }
    erewrite bind_Ok; last first.
    { eapply set_obj_run; [apply lookup_insert_eq|reflexivity]. }
    erewrite bind_Ok; last first.
    { eapply set_obj_run; [apply lookup_insert_eq|reflexivity]. }
    eapply set_obj_run; [apply lookup_insert_eq|reflexivity].
  - cbn [create c3]. unfold append in Eapp. by destruct (tail (create c2)); simplify_eq.
  - cbn [objs]. rewrite lookup_insert_eq. subst tag.
    by destruct (decide (tagName = EmptyString)), (decide (tagName ≠ EmptyString)).
  - intros cs us Hok.
    assert (Hok2 : lists_ok (c2, w1) cs us).
    { unfold lists_ok in *. cbn [fst snd] in *. by rewrite Hc2, Hu2. }
    destruct (alloc_create_append
                (Template (nextId (scope c)) tag new_LinkedList new_LinkedList None)
                c2 w1 cs us Hok2) as (c3' & w3' & Hrun & Hok3 & _).
    rewrite Happ in Hrun. injection Hrun as <- <-. done.
Qed.

(** The loop over the children in [Node_visit] is [for_each]. *)
Lemma visitAll_for_each (nodes : list tmpl.Node) :
  (fix visitAll (nodes : list tmpl.Node) : M (@CS IrExpr) unit :=
     match nodes with
     | [] => mret tt
     | n :: nodes' => Node_visit process n;; visitAll nodes'
     end) nodes = for_each nodes (Node_visit process).
Proof. induction nodes as [|n nodes IH]; [done|]. cbn [for_each]. by rewrite IH. Qed.

(** Lowering a node keeps the two lists of the converter well formed: they
    grow at the end, whether the lowering returns or throws. *)
Lemma Node_visit_lists_ok node (s : @CS IrExpr) cs us :
  lists_ok s cs us →
  ∃ cs' us', lists_ok (Node_visit process node s).2 (cs ++ cs') (us ++ us').
Proof.
  intros Hok.
  destruct (Node_visit_preserves process node [] s cs us Hok) as (cs' & us' & H & _).
  - by intros x Hx%elem_of_nil.
  - done.
  - by exists cs', us'.
Qed.

(** C10: for every nested template whose children are lowered without
    error, [visitTemplate] returns, and the node it constructs and appends
    to the create list of [this] is a [Template] node whose tag name is
    [tagName], or ["ng-template"] when [tagName] is the empty string: the
    create list is the former one followed by this node, and the update
    list is as before. *)
Theorem visitTemplate_tag tagName variables references children c w cs us parsed w1 :
  lists_ok (c, w) cs us →
  for_each children (Node_visit process)
    (child_converter (nextId (scope c)) variables (Scope_allocateId (scope c)).2, w)
    = (Ok tt, (parsed, w1)) →
  ∃ c' w' refs,
    Node_visit process (tmpl.Template tagName variables references children) (c, w)
      = (Ok tt, (c', w')) ∧
    lists_ok (c', w') (cs ++ [next_loc w1]) us ∧
    objs w' !! next_loc w1 =
      Some (Template (nextId (scope c))
              (if decide (tagName = EmptyString) then "ng-template" else tagName)
              (create parsed) (update parsed) refs).
Proof.
  intros Hok Hchild. cbn [Node_visit]. rewrite visitAll_for_each.
  destruct (visitTemplate_run tagName variables references _ c w parsed w1 Hchild)
    as (c' & w' & refs & Hrun & _ & Hobj & Hlists).
  exists c', w', refs. split_and!; [done| |done].
  apply Hlists.
  set (child := child_converter (nextId (scope c)) variables
                  (Scope_allocateId (scope c)).2) in *.
  assert (Hpres : preserves (for_each children (Node_visit process))).
  { intros F. apply triple_for_each. intros n. apply Node_visit_preserves. }
  destruct Hok as (Hc & Hu & Hdisj & Hlt). cbn [fst snd] in *.
  destruct (Hpres (cs ++ us) (child, w) [] []) as (cs' & us' & _ & _ & Hag & Hle & _).
  - split_and!; cbn [fst snd]; [by split; [constructor|]..| |];
      intros x Hx; by apply elem_of_nil in Hx.
  - intros x Hx. split_and!; [by apply Hlt|by intros ?%elem_of_nil..].
  - done.
  - rewrite Hchild in Hag, Hle. cbn [fst snd] in *.
    split_and!; cbn [fst snd]; [| |done|].
    + eapply is_list_agree; [|exact Hc]. intros x Hx. apply Hag.
      apply elem_of_app. by left.
    + eapply is_list_agree; [|exact Hu]. intros x Hx. apply Hag.
      apply elem_of_app. by right.
    + intros x Hx. specialize (Hlt x Hx). lia.
Qed.

End LoweringTheorems.

(** ** The theorems at concrete inputs *)

Ltac concrete_is_list :=
  split; [apply (bool_decide_unpack _); vm_compute; exact I
         | vm_compute; repeat split].

Lemma sortSubset_sorts_witness :
  is_list list1234 ([1%positive] ++ [2%positive; 3%positive] ++ [4%positive]) ∧
  ∃ start' end' s',
    sortSubset 2 2 3 descending list1234 = (Ok (start', end'), s') ∧
    toArray s' = ([1%positive] ++ isort descending [2%positive; 3%positive] ++ [4%positive]).
Proof.
  assert (H : is_list list1234
                ([1%positive] ++ [2%positive; 3%positive] ++ [4%positive]))
    by concrete_is_list.
  split; [exact H|].
  destruct (sortSubset_sorts descending [1%positive] [2; 3]%positive [4%positive]
              2 3 list1234 2 H eq_refl eq_refl (le_n 2))
    as (start' & end' & s' & Hrun & _ & Harr & _).
  by exists start', end', s'.
Defined.

Lemma applyTransform_replacing_witness :
  is_list list1234 [1; 2; 3; 4]%positive ∧
  ∃ s',
    applyTransform 4 {| visitList := None; visit := Some move_visit; finalize := None |}
      list1234 = (Ok tt, s') ∧
    toArray s' = [11; 12; 13; 14]%positive.
Proof.
  assert (H : is_list list1234 [1; 2; 3; 4]%positive) by concrete_is_list.
  split; [exact H|].
  destruct (applyTransform_replacing (fun n => (n + 10)%positive) move_visit
              [1; 2; 3; 4]%positive list1234 4 H)
    as [(s' & Hrun & _ & Harr & _) _].
  - intros n l h. eexists. split; [reflexivity|]. split.
    + rewrite lookup_total_insert_ne by lia. by rewrite lookup_total_insert_eq.
    + intros m Hn Hr. by rewrite !lookup_total_insert_ne by done.
  - apply (bool_decide_unpack _). vm_compute. exact I.
  - intros x Hx. apply (bool_decide_unpack _).
    repeat (apply elem_of_cons in Hx as [->|Hx]; [vm_compute; exact I|]).
    by apply elem_of_nil in Hx.
  - simpl. lia.
  - by exists s'.
Defined.

Lemma remove_returns_next_witness :
  is_list list1234 ([1%positive] ++ 2%positive :: [3%positive; 4%positive]) ∧
  ∃ s', remove 2 list1234 = (Ok (Some 3%positive), s') ∧
        head s'.1 = Some 1%positive ∧ tail s'.1 = Some 4%positive.
Proof.
  assert (H : is_list list1234
                ([1%positive] ++ 2%positive :: [3%positive; 4%positive]))
    by concrete_is_list.
  split; [exact H|].
  destruct (remove_returns_next [1%positive] 2 [3; 4]%positive list1234 H)
    as (s' & Hrun & Hnx & Hh & Ht).
  exists s'. rewrite Hnx in Hrun. done.
Defined.

Lemma prependList_splices_witness :
  is_list two_lists.1 [1%positive] ∧
  is_list (two_lists.2, two_lists.1.2) [2; 3]%positive ∧
  toArray (prependList two_lists.2 two_lists.1) = [2; 3; 1]%positive.
Proof.
  assert (H1 : is_list two_lists.1 [1%positive]) by concrete_is_list.
  assert (H2 : is_list (two_lists.2, two_lists.1.2) [2; 3]%positive) by concrete_is_list.
  split_and!; [exact H1|exact H2|].
  destruct (prependList_splices two_lists.2 two_lists.1 [1%positive] [2; 3]%positive H1 H2)
    as (_ & Harr & _).
  - intros y Hy. apply (bool_decide_unpack _).
    repeat (apply elem_of_cons in Hy as [->|Hy]; [vm_compute; exact I|]).
    by apply elem_of_nil in Hy.
  - exact Harr.
Defined.

Lemma new_converter_ok : lists_ok (new_converter, @World_empty AST) [] [].
Proof.
  split_and!.
  - split; [constructor|done].
  - split; [constructor|done].
  - intros x Hx. by apply elem_of_nil in Hx.
  - intros x Hx. by apply elem_of_nil in Hx.
Defined.

(** C3 as stated fails: the create list of the example is not the one
    whose element-start carries the attributes ["class"; "a"] only. *)
Lemma lowering_example_attrs_differ :
  ∃ root w,
    parse same_expr [example_div] "example" World_empty = (Ok root, w) ∧
    contents w (root_create root) ≠
      [Some (ElementStart 0 "div" (Some [AttrString "class"; AttrString "a"]) None);
       Some (Text 1 (Some "hi"));
       Some (ElementEnd 0)].
Proof.
  eexists _, _. split; [vm_compute; reflexivity|]. vm_compute. discriminate.
Qed.

Lemma visitBoundText_spec_witness :
  lists_ok (new_converter, @World_empty AST) [] [] ∧
  ∃ c' w',
    visitBoundText same_expr example_interpolation (new_converter, World_empty)
      = (Ok tt, (c', w')) ∧
    lists_ok (c', w') [1%positive] [2%positive] ∧
    objs w' !! 2%positive =
      Some (TextInterpolate 0 {| interp_expressions := [example_y];
                                 interp_strings := [EmptyString; EmptyString] |}).
Proof.
  split; [exact new_converter_ok|].
  exact (proj1 (visitBoundText_spec same_expr example_interpolation new_converter
                  World_empty [] [] new_converter_ok) _ _ eq_refl).
Defined.

Lemma visitBoundText_error_keeps_writes_witness :
  lists_ok (new_converter, @World_empty AST) [] [] ∧
  ∃ c' w',
    visitBoundText same_expr example_x (new_converter, World_empty) =
      (Throw "BoundText is not an interpolation expression?", (c', w')) ∧
    nextId (scope c') = 1 ∧
    contents w' (create c') = [Some (Text 0 None)].
Proof.
  split; [exact new_converter_ok|].
  destruct (visitBoundText_error_keeps_writes same_expr example_x new_converter
              World_empty [] [] new_converter_ok I)
    as (c' & w' & Hrun & Hsc & Hok & Hobj).
  exists c', w'. split_and!; [done|by rewrite Hsc|].
  destruct Hok as (Hc & _). unfold contents. cbn [fst snd] in Hc.
  rewrite (is_list_toArray _ _ Hc). cbn [app fmap list_fmap].
  by rewrite Hobj.
Defined.

Lemma visitTemplate_tag_witness :
  lists_ok (new_converter, @World_empty AST) [] [] ∧
  example_child_run = (Ok tt, example_child_run.2) ∧
  ∃ c' w' refs,
    Node_visit same_expr
      (tmpl.Template EmptyString [] [] [tmpl.BoundText example_interpolation])
      (new_converter, World_empty) = (Ok tt, (c', w')) ∧
    lists_ok (c', w') [3%positive] [] ∧
    objs w' !! 3%positive =
      Some (Template 0 "ng-template" (create example_child_run.2.1)
              (update example_child_run.2.1) refs).
Proof.
  assert (H : example_child_run = (Ok tt, example_child_run.2))
    by (vm_compute; reflexivity).
  split; [exact new_converter_ok|]. split; [exact H|].
  destruct (visitTemplate_tag same_expr EmptyString [] []
              [tmpl.BoundText example_interpolation]
              new_converter World_empty [] []
              example_child_run.2.1 example_child_run.2.2 new_converter_ok)
    as (c' & w' & refs & Hrun & Hok & Hobj).
  - vm_compute. reflexivity.
  - by exists c', w', refs.
Defined.

(** * Further properties of the list *)

Lemma node_eq (x y : LinkedListNode) : next x = next y → prev x = prev y → x = y.
Proof. destruct x, y; simpl; congruence. Qed.

Ltac decide_known :=
  match goal with
  | |- context [decide ?P] =>
      first [rewrite (decide_True (P := P)) by (done || congruence)
            |rewrite (decide_False (P := P)) by (done || congruence)]
  end.

Ltac heap_norm := repeat first [progress heap_simpl | decide_known | progress cbv iota].

(** X1: [insertBefore(before, insert)] on a well-formed list, with [before]
    a member and [insert] a node that is not in the list (whatever its
    links are): the list becomes the same sequence with [insert] just
    before [before], [head] included when [before] was the head; the chain
    invariants hold; and no node other than [insert], [before] and the
    former predecessor of [before] has its links changed. *)
Theorem insertBefore_inserts A b B n s :
  is_list s (A ++ b :: B) → n ∉ A ++ b :: B →
  is_list (insertBefore b n s) (A ++ n :: b :: B) ∧
  toArray (insertBefore b n s) = A ++ n :: b :: B ∧
  invariants (insertBefore b n s) ∧
  (∀ m, m ≠ n → m ≠ b → last A ≠ Some m → (insertBefore b n s).2 !!! m = s.2 !!! m).
Proof.
  intros Hl Hn.
  pose proof (insertBefore_is_list _ _ _ _ _ Hl Hn) as Hl'.
  split_and!; [done|by apply is_list_toArray|by eapply is_list_invariants|].
  intros m Hmn Hmb Hma.
  pose proof (is_list_prev _ _ _ _ Hl) as Hpv.
  destruct s as [l h]. unfold insertBefore. cbn [snd] in *.
  heap_simpl. rewrite (decide_False (P := b = n)) by (intros ->; apply Hn; set_solver).
  rewrite Hpv. apply node_eq.
  - destruct (last A) as [a|] eqn:E; heap_solve.
  - destruct (last A) as [a|] eqn:E; heap_solve.
Qed.

(** X2: [insertAfter(after, insert)] on a well-formed list, with [after] a
    member and [insert] a node that is not in the list: the list becomes
    the same sequence with [insert] just after [after], [tail] included
    when [after] was the tail; the chain invariants hold; and no node other
    than [insert], [after] and the former successor of [after] has its
    links changed. *)
Theorem insertAfter_inserts A a B n s :
  is_list s (A ++ a :: B) → n ∉ A ++ a :: B →
  is_list (insertAfter a n s) (A ++ a :: n :: B) ∧
  toArray (insertAfter a n s) = A ++ a :: n :: B ∧
  invariants (insertAfter a n s) ∧
  (∀ m, m ≠ n → m ≠ a → hd_error B ≠ Some m → (insertAfter a n s).2 !!! m = s.2 !!! m).
Proof.
  intros Hl Hn.
  pose proof (insertAfter_is_list _ _ _ _ _ Hl Hn) as Hl'.
  split_and!; [done|by apply is_list_toArray|by eapply is_list_invariants|].
  intros m Hmn Hma Hmb.
  pose proof (is_list_next _ _ _ _ Hl) as Hnx.
  destruct s as [l h]. unfold insertAfter. cbn [snd] in *.
  heap_simpl. rewrite (decide_False (P := a = n)) by (intros ->; apply Hn; set_solver).
  rewrite Hnx. apply node_eq.
  - destruct (hd_error B) as [b|] eqn:E; heap_solve.
  - destruct (hd_error B) as [b|] eqn:E; heap_solve.
Qed.

(** X3: [append(node)] on a well-formed list, with [node] not in the list
    and both links of [node] null ([append] never writes [node.next], and
    not [node.prev] when the list is empty): the list becomes the same
    sequence followed by [node], also when it was empty; the chain
    invariants hold; and no node other than [node] and the former tail has
    its links changed. *)
Theorem append_appends xs n s :
  is_list s xs → n ∉ xs → s.2 !!! n = FRESH_NODE →
  is_list (append n s) (xs ++ [n]) ∧
  toArray (append n s) = xs ++ [n] ∧
  invariants (append n s) ∧
  (∀ m, m ≠ n → last xs ≠ Some m → (append n s).2 !!! m = s.2 !!! m).
Proof.
  intros Hl Hn Hf.
  pose proof (append_is_list _ _ _ Hl Hn Hf) as Hl'.
  split_and!; [done|by apply is_list_toArray|by eapply is_list_invariants|].
  intros m Hmn Hmt. pose proof (is_list_tail _ _ Hl) as Htl.
  destruct s as [l h]. unfold append. cbn [fst snd] in *. rewrite Htl.
  destruct (last xs) as [t|]; [|done]. cbn [snd].
  apply node_eq; heap_solve.
Qed.

(** X4: [remove(node)] of a member that is not the head, or that is the
    only node, returns the former successor and leaves a well-formed list:
    the same sequence without [node], with the chain invariants, and
    [node] with both links null. *)
Theorem remove_unlinks A n B s :
  is_list s (A ++ n :: B) → A ≠ [] ∨ B = [] →
  ∃ s', remove n s = (Ok (hd_error B), s') ∧
        is_list s' (A ++ B) ∧
        toArray s' = A ++ B ∧
        invariants s' ∧
        s'.2 !!! n = FRESH_NODE.
Proof.
  intros Hl Hpos.
  destruct (remove_spec A n B s Hl) as (s' & Hrun & Hh & Ht & Hf & Hl').
  assert (Hl'' : is_list s' (A ++ B)).
  { destruct A as [|a A]; [|by apply Hl'].
    destruct Hpos as [?| ->]; [done|]. split; [constructor|].
    simpl in *. by rewrite Hh, Ht. }
  exists s'. split_and!; [done..|by apply is_list_toArray|by eapply is_list_invariants|done].
Qed.

(** X5: removing a member of a well-formed list twice: the first call
    returns, and the second one throws the assertion error for a non-head
    node with a null [prev], leaving the state as the first call left it. *)
Theorem remove_twice_throws A n B s :
  is_list s (A ++ n :: B) →
  ∃ s', remove n s = (Ok (hd_error B), s') ∧
        remove n s' =
          (Throw "AssertionError: non-head node has null prev pointer", s').
Proof.
  intros Hl.
  destruct (remove_spec A n B s Hl) as (s' & Hrun & Hh & Ht & Hf & _).
  exists s'. split; [done|].
  assert (Hn : n ∉ A ++ B).
  { destruct Hl as [ND _]. apply NoDup_mid in ND as (_ & _ & HA & HB & _).
    intros [?|?]%elem_of_app; tauto. }
  destruct s' as [l' h']. cbn [fst snd] in *. unfold remove.
  rewrite decide_False.
  - by rewrite Hf.
  - rewrite Hh. intros E. apply Hn. by apply hd_error_elem.
Qed.

(** X6: [insertAfter(after, insert)] followed by [remove(insert)], for a
    fresh node [insert], gives back the state before the two calls: [head]
    and [tail] are as they were and every node has the links it had; the
    removal returns the successor of [after]. *)
Theorem insertAfter_remove_restores A a B n s :
  is_list s (A ++ a :: B) → n ∉ A ++ a :: B → s.2 !!! n = FRESH_NODE →
  ∃ s', remove n (insertAfter a n s) = (Ok (hd_error B), s') ∧
        s'.1 = s.1 ∧ same_links s.2 s'.2.
Proof.
  intros Hl Hn Hf.
  pose proof (is_list_next _ _ _ _ Hl) as Hnx.
  pose proof (is_list_head _ _ Hl) as Hhd.
  pose proof (is_list_tail _ _ Hl) as Htl.
  assert (Han : a ≠ n) by (intros ->; apply Hn; set_solver).
  assert (Hhn : head s.1 ≠ Some n).
  { rewrite Hhd. intros E. apply Hn. by apply hd_error_elem. }
  assert (Htn : tail s.1 ≠ Some n).
  { rewrite Htl. intros E. apply Hn. by apply last_Some_elem_of. }
  assert (Hta : tail s.1 = Some a ↔ B = []).
  { rewrite Htl, last_app, last_cons. destruct (last B) as [z|] eqn:E.
    - apply last_Some_elem_of in E. split; [intros [= ->]|by intros ->; inversion E].
      destruct Hl as [ND _]. by apply NoDup_mid in ND as (_ & _ & _ & H & _).
    - apply last_None in E. by split. }
  destruct s as [l h]. cbn [fst snd] in *.
  destruct B as [|b B]; cbn [hd_error] in *.
  - assert (Hta' : tail l = Some a) by (by apply Hta).
    unfold insertAfter, remove. cbv beta iota zeta.
    heap_norm. rewrite Hnx. heap_norm. cbn [head tail set_tail set_head]. heap_norm.
    eexists. split_and!; [done| |].
    + destruct l as [hd tl]. cbn in Hta' |- *. by rewrite Hta'.
    + intros m. cbn [snd]. apply node_eq; heap_solve; by rewrite Hf.
  - assert (Hta' : tail l ≠ Some a) by (rewrite Hta; done).
    assert (Hbn : b ≠ n) by (intros ->; apply Hn; set_solver).
    assert (Hba : b ≠ a).
    { intros ->. destruct Hl as [ND _]. apply NoDup_mid in ND as (_ & _ & _ & H & _).
      apply H. left. }
    assert (Hpb : prev (h !!! b) = Some a).
    { assert (Hl2 : is_list (l, h) ((A ++ [a]) ++ b :: B)) by (by rewrite <- app_assoc).
      pose proof (is_list_prev _ _ _ _ Hl2) as E. by rewrite last_snoc in E. }
    unfold insertAfter, remove. cbv beta iota zeta.
    heap_norm. rewrite Hnx. heap_norm. cbn [head tail set_tail set_head]. heap_norm.
    eexists. split_and!; [done|done|].
    intros m. cbn [snd]. apply node_eq; heap_solve; by rewrite Hf.
Qed.

(** X23: what [remove] does on a head that has a successor, in any
    well-formed list: the call returns the successor, which becomes the
    head, the removed node has both links null and a traversal yields the
    other nodes in their order; but the [prev] link of the new head still
    points to the removed node, so the chain invariants do not hold. *)
Theorem remove_head_leaves_stale_prev x y B s :
  is_list s (x :: y :: B) →
  ∃ s', remove x s = (Ok (Some y), s') ∧
        head s'.1 = Some y ∧ tail s'.1 = tail s.1 ∧
        toArray s' = y :: B ∧
        s'.2 !!! x = FRESH_NODE ∧
        prev (s'.2 !!! y) = Some x ∧
        ¬ invariants s'.
Proof.
  intros Hl.
  pose proof (is_list_next s [] x (y :: B) Hl) as Hnx.
  pose proof (is_list_head _ _ Hl) as Hhd.
  pose proof (is_list_tail _ _ Hl) as Htl.
  pose proof (is_list_prev s [x] y B Hl) as Hpy.
  pose proof (is_list_length _ _ Hl) as Hlen.
  destruct s as [l h]. destruct Hl as [ND (_ & _ & Hseg)]. cbn [fst snd hd_error] in *.
  apply NoDup_cons in ND as [Hx ND].
  assert (Hxy : y ≠ x) by (intros ->; apply Hx; left).
  assert (Htx : tail l ≠ Some x).
  { rewrite Htl. rewrite last_cons_cons. intros E. apply Hx.
    by apply last_Some_elem_of. }
  set (h' := set_next x None (set_prev x None h)).
  assert (Hag : agree_on (y :: B) h h').
  { intros z Hz. assert (z ≠ x) by (by intros ->). subst h'. split; heap_solve. }
  assert (Hseg' : dlseg h' (Some x) (Some y) (y :: B) (tail l) None).
  { eapply dlseg_ext; [exact Hag|]. by rewrite Hnx in Hseg. }
  exists ({| head := Some y; tail := tail l |}, h').
  split_and!.
  - unfold remove. rewrite Hnx, (decide_True (P := head l = Some x)) by done.
    cbn [tail set_head]. by rewrite decide_False.
  - done.
  - done.
  - unfold toArray. eapply forEach_from_dlseg; [exact Hseg'|].
    subst h'. unfold set_next, set_prev.
    assert (size h ≤ size (<[x := {| next := None;
                                     prev := prev (<[x := {| next := next (h !!! x);
                                                             prev := None |}]> h !!! x) |}]>
                             (<[x := {| next := next (h !!! x); prev := None |}]> h))).
    { rewrite insert_insert_eq. destruct (h !! x) as [v|] eqn:E.
      - rewrite <- (insert_id h x v E) at 1. rewrite !map_size_insert_Some; [done|..].
        all: by rewrite ?lookup_insert_eq, ?E.
      - rewrite map_size_insert_None by done. lia. }
    simpl in Hlen |- *. lia.
  - apply clear_links_fresh.
  - cbn [snd]. destruct (Hag y) as [_ E]; [left|]. by rewrite E.
  - intros (_ & Hhead & _). cbn [fst snd] in Hhead.
    specialize (Hhead y eq_refl). destruct (Hag y) as [_ E]; [left|].
    rewrite E, Hpy in Hhead. done.
Qed.

(** X7: [insertBefore(before, insert)] followed by [remove(insert)], for a
    fresh node [insert] and a node [before] that is not the head, gives
    back the state before the two calls; the removal returns [before]. *)
Theorem insertBefore_remove_restores A b B n s :
  is_list s (A ++ b :: B) → A ≠ [] → n ∉ A ++ b :: B → s.2 !!! n = FRESH_NODE →
  ∃ s', remove n (insertBefore b n s) = (Ok (Some b), s') ∧
        s'.1 = s.1 ∧ same_links s.2 s'.2.
Proof.
  intros Hl HA Hn Hf.
  pose proof (is_list_prev _ _ _ _ Hl) as Hpv.
  pose proof (is_list_head _ _ Hl) as Hhd.
  pose proof (is_list_tail _ _ Hl) as Htl.
  assert (Hbn : b ≠ n) by (intros ->; apply Hn; set_solver).
  assert (Hhn : head s.1 ≠ Some n).
  { rewrite Hhd. intros E. apply Hn. by apply hd_error_elem. }
  assert (Htn : tail s.1 ≠ Some n).
  { rewrite Htl. intros E. apply Hn. by apply last_Some_elem_of. }
  assert (Hhb : head s.1 ≠ Some b).
  { rewrite Hhd. destruct A as [|a0 A]; [done|]. intros [= ->].
    destruct Hl as [ND _]. apply NoDup_mid in ND as (_ & _ & H & _).
    apply H. left. }
  destruct (last A) as [a|] eqn:Ela; [|by apply last_None in Ela].
  assert (Han : a ≠ n).
  { intros ->. apply Hn. apply elem_of_app. left. by apply last_Some_elem_of. }
  assert (Hab : a ≠ b).
  { intros ->. destruct Hl as [ND _]. apply NoDup_mid in ND as (_ & _ & H & _).
    apply H. by apply last_Some_elem_of. }
  assert (Hna : next (s.2 !!! a) = Some b).
  { apply last_Some in Ela as [A' ->].
    assert (Hl2 : is_list s (A' ++ a :: b :: B)) by (by rewrite <- app_assoc in Hl).
    by rewrite (is_list_next _ _ _ _ Hl2). }
  destruct s as [l h]. cbn [fst snd] in *.
  unfold insertBefore, remove. cbv beta iota zeta.
  heap_norm. rewrite Hpv. heap_norm. cbn [head tail set_tail set_head]. heap_norm.
  eexists. split_and!; [done|done|].
  intros m. cbn [snd]. apply node_eq; heap_solve; by rewrite Hf.
Qed.

(** X8: [append(node)] followed by [remove(node)], for a fresh node, gives
    back the state before the two calls, also for an empty list; the
    removal returns null. *)
Theorem append_remove_restores xs n s :
  is_list s xs → n ∉ xs → s.2 !!! n = FRESH_NODE →
  ∃ s', remove n (append n s) = (Ok None, s') ∧
        s'.1 = s.1 ∧ same_links s.2 s'.2.
Proof.
  intros Hl Hn Hf.
  pose proof (is_list_head _ _ Hl) as Hhd.
  pose proof (is_list_tail _ _ Hl) as Htl.
  destruct s as [l h]. cbn [fst snd] in *.
  destruct (last xs) as [t|] eqn:Ela.
  - assert (Htn : t ≠ n) by (intros ->; apply Hn; by apply last_Some_elem_of).
    assert (Hhn : head l ≠ Some n).
    { rewrite Hhd. intros E. apply Hn. by apply hd_error_elem. }
    assert (Hnt : next (h !!! t) = None).
    { apply last_Some in Ela as [xs' ->]. apply (is_list_next _ _ _ _ Hl). }
    unfold append, remove. rewrite Htl. cbv beta iota zeta.
    cbn [head tail set_tail set_head]. heap_norm. rewrite Hf. cbn [next].
    cbn [head tail set_tail set_head]. heap_norm.
    eexists. split_and!; [done| |].
    + destruct l as [hd tl]. cbn in Htl |- *. by rewrite Htl.
    + intros m. cbn [snd]. apply node_eq; heap_solve; by rewrite Hf.
  - apply last_None in Ela as ->. destruct l as [hd tl]. cbn in Hhd, Htl. subst.
    unfold append, remove. cbv beta iota zeta. cbn [head tail set_tail set_head].
    rewrite Hf. cbn [next]. heap_norm. cbn [head tail set_tail set_head]. heap_norm.
    eexists. split_and!; [done|done|].
    intros m. cbn [snd]. apply node_eq; heap_solve; by rewrite Hf.
Qed.

(** X9: [prependList(list)] of a non-empty list to a non-empty list leaves
    the argument's [head] and [tail] as they were, with its nodes now also
    nodes of [this]: [this] only gets a new [head], a traversal of the
    argument runs on through the nodes of [this], and the argument no
    longer satisfies the chain invariants (its tail has a successor). *)
Theorem prependList_argument_shares other s xs ys :
  is_list s xs → is_list (other, s.2) ys → (∀ y, y ∈ ys → y ∉ xs) →
  xs ≠ [] → ys ≠ [] →
  (prependList other s).1 = set_head (head other) s.1 ∧
  toArray (other, (prependList other s).2) = ys ++ xs ∧
  ¬ invariants (other, (prependList other s).2).
Proof.
  intros Hxs Hys Hdisj Hx Hy.
  pose proof (prependList_is_list _ _ _ _ Hxs Hys Hdisj) as Hl.
  pose proof (is_list_head _ _ Hxs) as Hhx.
  pose proof (is_list_head _ _ Hys) as Hhy.
  pose proof (is_list_tail _ _ Hys) as Hty.
  assert (E1 : (prependList other s).1 = set_head (head other) s.1).
  { destruct s as [l h]. unfold prependList. cbn [fst snd] in *.
    destruct ys as [|y0 ys0]; [done|]. destruct xs as [|x0 xs0]; [done|].
    rewrite Hty, Hhy, Hhx. cbn [hd_error].
    destruct (last (y0 :: ys0)) eqn:E; [done|]. by apply last_None in E. }
  split_and!; [done| |].
  - rewrite <- (is_list_toArray _ _ Hl).
    destruct (prependList other s) as [l' h'] eqn:E. cbn [fst snd] in *.
    unfold toArray. by rewrite E1.
  - intros (_ & _ & Ht & _). cbn [fst snd] in Ht.
    destruct (last ys) as [t|] eqn:Ela; [|by apply last_None in Ela].
    specialize (Ht t Hty).
    apply last_Some in Ela as [ys' ->].
    rewrite <- app_assoc in Hl. cbn [app] in Hl.
    rewrite (is_list_next _ _ _ _ Hl) in Ht. by destruct xs.
Qed.

Lemma toString_loop_dlseg printer h p f xs l fuel strings :
  dlseg h p f xs l None → length xs ≤ fuel →
  toString_loop fuel printer h f strings = Ok (strings ++ (printer <$> xs)).
Proof.
  revert p f fuel strings. induction xs as [|x xs IH]; intros p f fuel strings H Hfuel.
  - destruct H as [-> _]. rewrite app_nil_r. by destruct fuel.
  - destruct H as (-> & _ & H). destruct fuel as [|fuel]; [simpl in Hfuel; lia|].
    cbn [toString_loop]. erewrite IH; [|done|simpl in Hfuel; lia].
    by rewrite <- app_assoc.
Qed.

(** X13: [toString(printer)] on a well-formed list returns the strings that
    [printer] gives for the nodes, in list order, joined by line feeds (the
    empty string for an empty list). *)
Theorem toString_joins printer s xs fuel :
  is_list s xs → length xs ≤ fuel →
  toString fuel printer s = Ok (String.concat LF (printer <$> xs)).
Proof.
  intros [_ Hl] Hfuel. destruct s as [l h]. unfold toString.
  by erewrite toString_loop_dlseg.
Qed.

Lemma forEach_loop_keeps {X} (cb : loc → M (LS * X) unit) B :
  keeps_list cb →
  ∀ A s fuel, is_list s.1 (A ++ B) → length B ≤ fuel →
    forEach_loop fuel cb (hd_error B) s = for_each B cb s.
Proof.
  intros Hcb. induction B as [|x B IH]; intros A s fuel Hl Hfuel.
  { by destruct fuel. }
  destruct fuel as [|fuel]; [simpl in Hfuel; lia|].
  cbn [hd_error forEach_loop for_each].
  unfold mbind, M_bind, bind.
  pose proof (Hcb x s) as Hk.
  destruct (cb x s) as [[[]| | |] s1] eqn:E; try done.
  cbn [snd] in Hk. unfold gets. rewrite Hk.
  rewrite (is_list_next _ _ _ _ Hl).
  apply (IH (A ++ [x])); [|simpl in Hfuel; lia].
  rewrite Hk. by rewrite <- app_assoc.
Qed.

Lemma forEach_keeps {X} (cb : loc → M (LS * X) unit) s xs fuel :
  is_list s.1 xs → keeps_list cb → length xs ≤ fuel →
  forEach fuel cb s = for_each xs cb s.
Proof.
  intros Hl Hcb Hfuel. unfold forEach. rewrite bind_gets.
  rewrite (is_list_head _ _ Hl).
  by apply (forEach_loop_keeps cb xs Hcb []).
Qed.

(** X10: [forEach(cb)] on a well-formed list, with a callback that leaves
    the list and the links alone, calls [cb] on the nodes of the list, in
    their order: it is the sequence of these calls, and ends with the first
    call that throws. *)
Theorem forEach_visits_in_order {X} (cb : loc → M (LS * X) unit) s xs fuel :
  is_list s.1 xs → keeps_list cb → length xs ≤ fuel →
  forEach fuel cb s = for_each xs cb s.
Proof. apply forEach_keeps. Qed.

Lemma for_each_push xs : ∀ s arr,
  for_each xs push (s, arr) = (Ok tt, (s, arr ++ xs)).
Proof.
  induction xs as [|x xs IH]; intros s arr; simpl.
  { by rewrite app_nil_r. }
  unfold mbind, M_bind, bind, push, modify. cbn [fst snd].
  rewrite IH. by rewrite <- app_assoc.
Qed.

(** X11: [toArray()], that is [forEach] with a callback that pushes the
    node into an array, on a well-formed list: the traversal ends, leaves
    the list as it was, and the array is the sequence of the nodes. *)
Theorem toArray_forEach_push s xs :
  is_list s xs →
  forEach (S (size s.2)) push (s, []) = (Ok tt, (s, toArray s)) ∧ toArray s = xs.
Proof.
  intros Hl. split; [|by apply is_list_toArray].
  rewrite (forEach_keeps push (s, []) xs).
  - rewrite for_each_push. by rewrite (is_list_toArray _ _ Hl).
  - done.
  - by intros n [s0 arr].
  - by apply is_list_length.
Qed.

(** X12: [forEach] with a callback that removes the node it is given: the
    next node is read from the removed node, whose links [remove] has set
    to null, so the traversal ends after the first node; what is left is
    the state after the removal of the head alone. *)
Theorem forEach_remove_stops {X} x xs s (st : X) fuel :
  is_list s (x :: xs) →
  ∃ s', remove x s = (Ok (hd_error xs), s') ∧
        forEach (S fuel) remove_cb (s, st) = (Ok tt, (s', st)) ∧
        head s'.1 = hd_error xs.
Proof.
  intros Hl.
  destruct (remove_spec [] x xs s Hl) as (s' & Hrun & Hh & Ht & Hf & _).
  exists s'. split_and!; [done| |done].
  unfold forEach. rewrite bind_gets. cbn [fst snd].
  rewrite (is_list_head _ _ Hl). cbn [hd_error forEach_loop].
  unfold mbind, M_bind, bind, remove_cb, gets. cbn [fst snd].
  rewrite Hrun. cbn [fst snd]. rewrite Hf. cbn [next].
  by destruct fuel.
Qed.

Lemma relink_member A x B s :
  is_list s (A ++ x :: B) →
  (relink x s).1 = s.1 ∧ same_links s.2 (relink x s).2.
Proof.
  intros Hl.
  pose proof (is_list_next _ _ _ _ Hl) as Hnx.
  pose proof (is_list_prev _ _ _ _ Hl) as Hpv.
  pose proof (is_list_head _ _ Hl) as Hhd.
  pose proof (is_list_tail _ _ Hl) as Htl.
  destruct s as [l h]. cbn [fst snd] in *. unfold relink. rewrite Hpv.
  assert (Hp : ∀ a, last A = Some a → next (h !!! a) = Some x).
  { intros a [A' ->]%last_Some. rewrite <- app_assoc in Hl.
    apply (is_list_next _ _ _ _ Hl). }
  assert (Hn : ∀ b B', B = b :: B' → prev (h !!! b) = Some x).
  { intros b B' ->.
    assert (Hl2 : is_list (l, h) ((A ++ [x]) ++ b :: B')) by (by rewrite <- app_assoc).
    pose proof (is_list_prev _ _ _ _ Hl2) as E. by rewrite last_snoc in E. }
  assert (Hh0 : last A = None → set_head (Some x) l = set_head (head l) l).
  { intros ->%last_None. by rewrite Hhd. }
  assert (Ht0 : ∀ l', B = [] → tail l' = tail l → set_tail (Some x) l' = l').
  { intros l' -> E. rewrite last_app, last_cons in Htl. cbn in Htl.
    destruct l'. unfold set_tail. cbn in *. congruence. }
  assert (Hxa : ∀ a, last A = Some a → x ≠ a).
  { intros a Ha%last_Some_elem_of ->. destruct Hl as [ND _].
    by apply NoDup_mid in ND as (_ & _ & H & _). }
  destruct (last A) as [a|] eqn:Ela.
  - specialize (Hp a eq_refl). specialize (Hxa a eq_refl). heap_norm. rewrite Hnx.
    destruct B as [|b B'].
    + cbn [hd_error fst snd]. split; [by apply Ht0|].
      intros m. apply node_eq; heap_solve.
    + specialize (Hn b B' eq_refl). cbn [hd_error fst snd]. split; [done|].
      intros m. apply node_eq; heap_solve.
  - rewrite Hnx. destruct B as [|b B'].
    + cbn [hd_error fst snd]. split; [|done].
      rewrite Ht0; [|done|done]. rewrite Hh0 by done. by destruct l.
    + specialize (Hn b B' eq_refl). cbn [hd_error fst snd]. split.
      * rewrite Hh0 by done. by destruct l.
      * intros m. apply node_eq; heap_solve.
Qed.

Lemma same_links_agree xs h h' : same_links h h' → agree_on xs h h'.
Proof. intros H x _. by rewrite H. Qed.

Lemma applyTransform_loop_identity B :
  ∀ A s fuel, is_list s (A ++ B) → length B ≤ fuel →
    ∃ s', applyTransform_loop fuel same_node (hd_error B) s = (Ok tt, s') ∧
          s'.1 = s.1 ∧ same_links s.2 s'.2.
Proof.
  induction B as [|x B IH]; intros A s fuel Hl Hfuel.
  { exists s. split_and!; [by destruct fuel|done|done]. }
  destruct fuel as [|fuel]; [simpl in Hfuel; lia|].
  cbn [hd_error applyTransform_loop].
  change (same_node x) with (mret x : M LS loc).
  rewrite bind_mret, bind_modify, bind_gets.
  destruct (relink_member _ _ _ _ Hl) as [E1 E2].
  assert (Hl1 : is_list (relink x s) ((A ++ [x]) ++ B)).
  { rewrite <- app_assoc. destruct (relink x s) as [l1 h1]. destruct s as [l h].
    cbn [fst snd] in *. subst l1. eapply is_list_agree; [|done].
    by apply same_links_agree. }
  rewrite E2, (is_list_next _ _ _ _ Hl).
  destruct (IH _ _ fuel Hl1) as (s' & Hrun & E1' & E2'); [simpl in Hfuel; lia|].
  exists s'. split_and!; [done|congruence|].
  intros m. by rewrite E2', E2.
Qed.

(** X14: [applyTransform] with a [visit] hook that returns the node it is
    given, on a well-formed list: the call returns, [head] and [tail] are
    as they were and every node has the links it had. *)
Theorem applyTransform_identity_visit xs s fuel :
  is_list s xs → length xs ≤ fuel →
  ∃ s',
    applyTransform fuel
      {| visitList := None; visit := Some same_node; finalize := None |} s
      = (Ok tt, s') ∧
    s'.1 = s.1 ∧ same_links s.2 s'.2 ∧ is_list s' xs.
Proof.
  intros Hl Hfuel.
  destruct (applyTransform_loop_identity xs [] s fuel Hl Hfuel) as (s' & Hrun & E1 & E2).
  exists s'. split_and!; [|done|done|].
  - unfold applyTransform. cbn [visitList visit finalize].
    unfold mbind, M_bind, bind, gets, mret, M_ret, ret.
    rewrite (is_list_head _ _ Hl). by rewrite Hrun.
  - destruct s' as [l' h'], s as [l h]. cbn [fst snd] in *. subst l'.
    eapply is_list_agree; [|done]. by apply same_links_agree.
Qed.

Lemma sortSubset_run cmp P xs Q start end_ s fuel :
  is_list s (P ++ xs ++ Q) →
  hd_error xs = Some start → last xs = Some end_ → length xs ≤ fuel →
  ∃ start' end' s',
    sortSubset fuel start end_ cmp s = (Ok (start', end'), s') ∧
    is_list s' (P ++ isort cmp xs ++ Q) ∧
    hd_error (isort cmp xs) = Some start' ∧
    last (isort cmp xs) = Some end'.
Proof.
  intros Hl Hhd Hla Hfuel.
  assert (NDxs : NoDup xs).
  { destruct Hl as [ND _]. apply NoDup_app in ND as (_ & _ & ND).
    by apply NoDup_app in ND as (ND & _). }
  unfold sortSubset. destruct (decide (start = end_)) as [->|Hne].
  - assert (xs = [end_]) as -> by (by apply hd_last_singleton).
    by exists end_, end_, s.
  - destruct xs as [|x xs]; [done|]. injection Hhd as ->.
    destruct xs as [|n U]; [by simplify_eq/=|].
    rewrite bind_gets.
    assert (Hl0 : is_list s (P ++ start :: (n :: U) ++ Q)) by done.
    rewrite (is_list_next _ _ _ _ Hl0). cbn [app hd_error].
    destruct (sortSubset_loop_spec cmp end_ Q U n P [start] s fuel fuel start start)
      as (ts & te & s' & Hrun & Hl' & Hts & Hte); try done.
    + simpl in Hfuel |- *. lia.
    + exists ts, te, s'. done.
Qed.

Lemma insert_sorted_end cmp n S :
  (∀ p, p ∈ S → ¬ (cmp n p < 0)%Z) → insert_sorted cmp n S = S ++ [n].
Proof.
  induction S as [|p S IH]; intros H; simpl; [done|].
  destruct (Z.ltb_spec (cmp n p) 0) as [Hlt|Hge].
  - exfalso. apply (H p); [left|done].
  - rewrite IH; [done|]. intros q Hq. apply H. by right.
Qed.

Lemma before_app_cons (S U : list loc) p n : p ∈ S → before (S ++ n :: U) p n.
Proof.
  intros (S1 & S2 & ->)%list_elem_of_split. unfold before.
  rewrite <- app_assoc. cbn [app].
  apply sublist_inserts_l. apply sublist_skip.
  apply sublist_inserts_l. apply sublist_skip. apply sublist_nil_l.
Qed.

Lemma fold_insert_sorted_input cmp U : ∀ S,
  non_decreasing cmp (S ++ U) →
  fold_left (fun S n => insert_sorted cmp n S) U S = S ++ U.
Proof.
  induction U as [|n U IH]; intros S H; simpl.
  { by rewrite app_nil_r. }
  rewrite insert_sorted_end.
  - rewrite IH; rewrite <- app_assoc; done.
  - intros p Hp. apply (H p n). by apply before_app_cons.
Qed.

Lemma isort_sorted_input cmp xs : non_decreasing cmp xs → isort cmp xs = xs.
Proof. intros H. unfold isort. by rewrite fold_insert_sorted_input. Qed.

(** X15: [sortSubset] on a range that is sorted already (no node is
    strictly less than a node before it): every node is put back where it
    was; the call returns [{start, end}] as given and the sequence of the
    list is unchanged.  No condition on the comparator is needed. *)
Theorem sortSubset_sorted_unchanged cmp P xs Q start end_ s fuel :
  is_list s (P ++ xs ++ Q) →
  hd_error xs = Some start → last xs = Some end_ → length xs ≤ fuel →
  non_decreasing cmp xs →
  ∃ s', sortSubset fuel start end_ cmp s = (Ok (start, end_), s') ∧
        is_list s' (P ++ xs ++ Q) ∧
        toArray s' = toArray s.
Proof.
  intros Hl Hhd Hla Hfuel Hsorted.
  destruct (sortSubset_run cmp P xs Q start end_ s fuel Hl Hhd Hla Hfuel)
    as (start' & end' & s' & Hrun & Hl' & Hts & Hte).
  rewrite (isort_sorted_input _ _ Hsorted) in Hl', Hts, Hte.
  exists s'. split_and!; [congruence|done|].
  by rewrite (is_list_toArray _ _ Hl), (is_list_toArray _ _ Hl').
Qed.

(** X16: sorting twice.  When [cmp a b < 0] is a strict partial order,
    [sortSubset] called again on the range that a first call returned
    returns the same [{start, end}] and leaves the sequence as the first
    call left it. *)
Theorem sortSubset_idempotent cmp P xs Q start end_ s fuel :
  is_list s (P ++ xs ++ Q) →
  hd_error xs = Some start → last xs = Some end_ → length xs ≤ fuel →
  strict_order cmp →
  ∃ start' end' s' s'',
    sortSubset fuel start end_ cmp s = (Ok (start', end'), s') ∧
    sortSubset fuel start' end' cmp s' = (Ok (start', end'), s'') ∧
    toArray s'' = toArray s'.
Proof.
  intros Hl Hhd Hla Hfuel Hord.
  destruct (sortSubset_run cmp P xs Q start end_ s fuel Hl Hhd Hla Hfuel)
    as (start' & end' & s' & Hrun & Hl' & Hts & Hte).
  assert (Hlen : length (isort cmp xs) ≤ fuel).
  { by rewrite (Permutation_length (isort_perm cmp xs)). }
  destruct (sortSubset_run cmp P _ Q start' end' s' fuel Hl' Hts Hte Hlen)
    as (start2 & end2 & s2 & Hrun2 & Hl2 & Hts2 & Hte2).
  rewrite (isort_sorted_input cmp (isort cmp xs)) in Hl2, Hts2, Hte2
    by (by apply isort_non_decreasing).
  exists start', end', s', s2. split_and!; [done|congruence|].
  by rewrite (is_list_toArray _ _ Hl'), (is_list_toArray _ _ Hl2).
Qed.

Lemma sortSubset_loop_unreachable cmp end_ U :
  ∀ n P S s fuel sfuel tmpStart tmpEnd,
    is_list s (P ++ S ++ n :: U) →
    hd_error S = Some tmpStart → last S = Some tmpEnd →
    end_ ∉ n :: U →
    length (n :: U) < fuel → length (S ++ n :: U) ≤ sfuel →
    ∃ s',
      sortSubset_loop fuel sfuel cmp end_ (Some n) tmpStart tmpEnd s = (TypeError, s') ∧
      is_list s' (P ++ fold_left (fun S n => insert_sorted cmp n S) (n :: U) S).
Proof.
  induction U as [|n' U IH];
    intros n P S s fuel sfuel tmpStart tmpEnd Hl Hts Hte Hend Hfuel Hsfuel.
  all: destruct fuel as [|fuel]; [simpl in Hfuel; lia|].
  all: rewrite length_app in Hsfuel; cbn [length] in Hsfuel, Hfuel.
  all: assert (Hne : n ≠ end_) by (intros ->; apply Hend; left).
  all: destruct (sortSubset_loop_step cmp end_ n P S _ s sfuel tmpStart tmpEnd Hl Hts Hte)
      as (ts & te & s' & Hl' & Hts' & Hte' & Hrun); [lia|].
  all: rewrite Hrun; rewrite decide_False by done.
  - destruct fuel as [|fuel]; [lia|]. exists s'. split; [done|].
    cbn [fold_left]. by rewrite app_nil_r in Hl'.
  - cbn [hd_error].
    destruct (IH n' P (insert_sorted cmp n S) s' fuel sfuel ts te)
      as (s2 & Hrun2 & Hres); try done.
    + intros Hin. apply Hend. by right.
    + cbn [length]. lia.
    + rewrite length_app. cbn [length].
      assert (length (insert_sorted cmp n S) = Datatypes.S (length S)); [|lia].
      clear. induction S as [|a S IHS]; simpl; [done|]. case_match; simpl; lia.
    + exists s2. done.
Qed.

(** X17: [sortSubset(start, end, cmp)] with an [end] that is not met after
    [start] (a node before [start], or a node that is not in the list):
    the loop sorts the nodes from [start] to the tail of the list and then
    fails on the null it reads as the next node, a [TypeError]; the list
    is left well formed, with the nodes from [start] on sorted by
    insertion. *)
Theorem sortSubset_end_not_after_start cmp P start U end_ s fuel :
  is_list s (P ++ start :: U) → end_ ≠ start → end_ ∉ U → length U < fuel →
  ∃ s', sortSubset fuel start end_ cmp s = (TypeError, s') ∧
        is_list s' (P ++ isort cmp (start :: U)) ∧
        toArray s' = P ++ isort cmp (start :: U).
Proof.
  intros Hl Hne Hend Hfuel.
  assert (∃ s', sortSubset fuel start end_ cmp s = (TypeError, s') ∧
                is_list s' (P ++ isort cmp (start :: U))) as (s' & Hrun & Hl').
  { unfold sortSubset. rewrite decide_False by done.
    rewrite bind_gets, (is_list_next _ _ _ _ Hl).
    destruct U as [|n U].
    - exists s. split; [|done]. destruct fuel as [|fuel]; [lia|done].
    - cbn [hd_error].
      destruct (sortSubset_loop_unreachable cmp end_ U n P [start] s fuel fuel start start)
        as (s' & Hrun & Hl'); try done.
      by exists s'. }
  exists s'. split_and!; [done..|]. by apply is_list_toArray.
Qed.

(** X18: starting from a well-formed list, after each operation of a
    sequence of [append], [insertBefore], [insertAfter], [remove] and
    [prependList] calls that meet their preconditions and among which no
    [remove] takes away a head that has a successor, the call has returned
    and the chain invariants hold. *)
Theorem operations_keep_invariants os s xs k :
  is_list s xs → ops_ok os s →
  ∃ s', for_each (take k os) run_op s = (Ok tt, s') ∧ invariants s'.
Proof. intros Hl Hok. by eapply run_ops_invariants. Qed.

(** * The lowering pass as a refinement *)

Section RefinementBasics.
Context {IrExpr : Type} (process : AST → IrExpr).

#[local] Abbreviation ST := (@CS IrExpr).
#[local] Abbreviation W := (@World IrExpr).

Lemma reps_app (w : W) l1 t1 F1 l2 t2 F2 :
  reps w l1 t1 F1 → reps w l2 t2 F2 → reps w (l1 ++ l2) (t1 ++ t2) (F1 ++ F2).
Proof.
  induction 1 as [|l t F ls ts Fs Hr Hrs IH]; intros H2; [done|].
  cbn [app]. rewrite <- app_assoc. constructor; [done|]. by apply IH.
Qed.

Lemma reps_leaf (w : W) l n t :
  objs w !! l = Some n → leaf n = Some t → reps w [l] [t] [].
Proof.
  intros Hl Ht. change (@nil loc) with (@nil loc ++ []) at 2.
  constructor; [by eapply rep_leaf|constructor].
Qed.

(** The value of a node depends on its fields and on the nodes below it. *)
Lemma rep_reps_transport (w w' : W) :
  (∀ l t F, rep w l t F →
     objs w' !! l = objs w !! l →
     (∀ x, x ∈ F → objs w' !! x = objs w !! x ∧ links w' !!! x = links w !!! x) →
     rep w' l t F) ∧
  (∀ ls ts F, reps w ls ts F →
     (∀ x, x ∈ ls → objs w' !! x = objs w !! x) →
     (∀ x, x ∈ F → objs w' !! x = objs w !! x ∧ links w' !!! x = links w !!! x) →
     reps w' ls ts F).
Proof.
  apply (rep_reps_mut w
    (fun l t F _ =>
       objs w' !! l = objs w !! l →
       (∀ x, x ∈ F → objs w' !! x = objs w !! x ∧ links w' !!! x = links w !!! x) →
       rep w' l t F)
    (fun ls ts F _ =>
       (∀ x, x ∈ ls → objs w' !! x = objs w !! x) →
       (∀ x, x ∈ F → objs w' !! x = objs w !! x ∧ links w' !!! x = links w !!! x) →
       reps w' ls ts F)).
  - intros l n t Hl Ht Ho _. eapply rep_leaf; [|done]. by rewrite Ho.
  - intros l id tag cr up refs cs us tcs tus Fc Fu Hl Hc Hu Hcs IHc Hus IHu Ho HF.
    eapply rep_template.
    + by rewrite Ho.
    + eapply is_list_agree; [|exact Hc]. intros x Hx.
      destruct (HF x) as [_ E]; [set_solver|]. by rewrite E.
    + eapply is_list_agree; [|exact Hu]. intros x Hx.
      destruct (HF x) as [_ E]; [set_solver|]. by rewrite E.
    + apply IHc; intros x Hx; apply HF; set_solver.
    + apply IHu; intros x Hx; apply HF; set_solver.
  - intros _ _. constructor.
  - intros l t F ls ts Fs Hr IHr Hrs IHrs Ho HF. constructor.
    + apply IHr; [apply Ho; left|]. intros x Hx. apply HF. set_solver.
    + apply IHrs; [intros x Hx; apply Ho; by right|].
      intros x Hx. apply HF. set_solver.
Qed.

Lemma frame_refl (w : W) cs us : frame w w cs us.
Proof. split_and!; [reflexivity|done..]. Qed.

Lemma frame_trans (w w1 w2 : W) cs us cs1 us1 :
  frame w w1 cs us → frame w1 w2 (cs ++ cs1) (us ++ us1) →
  (∀ x, x ∈ cs1 ++ us1 → (next_loc w ≤ x)%positive) →
  frame w w2 cs us.
Proof.
  intros (Hn1 & Ho1 & Hl1) (Hn2 & Ho2 & Hl2) Hnew. split_and!.
  - lia.
  - intros l Hl. rewrite Ho2 by lia. by apply Ho1.
  - intros l Hl Hc Hu. rewrite Hl2; [by apply Hl1|lia| |].
    + intros [?|Hin]%elem_of_app; [done|].
      specialize (Hnew l ltac:(set_solver)). lia.
    + intros [?|Hin]%elem_of_app; [done|].
      specialize (Hnew l ltac:(set_solver)). lia.
Qed.

Lemma frame_weaken (w w' : W) cs us cs' us' :
  frame w w' cs us → (∀ x, x ∈ cs → x ∈ cs') → (∀ x, x ∈ us → x ∈ us') →
  frame w w' cs' us'.
Proof.
  intros (Hn & Ho & Hl) Hc Hu. split_and!; [done..|].
  intros l Hlt Hlc Hlu. apply Hl; [done|intros ?; by apply Hlc, Hc|intros ?; by apply Hlu, Hu].
Qed.

Lemma lists_ok_same (c c' : Converter) (w w' : W) cs us :
  lists_ok (c, w) cs us →
  create c' = create c → update c' = update c →
  links w' = links w → next_loc w' = next_loc w →
  lists_ok (c', w') cs us.
Proof. unfold lists_ok. cbn [fst snd]. by intros H -> -> -> ->. Qed.

Lemma lists_ok_alloc (c : Converter) (w : W) (o : gmap loc (@IrNode IrExpr)) cs us :
  lists_ok (c, w) cs us →
  lists_ok (c, {| links := <[next_loc w := FRESH_NODE]> (links w); objs := o;
                  next_loc := Pos.succ (next_loc w) |}) cs us.
Proof.
  intros (Hc & Hu & Hdisj & Hlt). cbn [fst snd] in *.
  assert (Hnc : next_loc w ∉ cs).
  { intros Hin. specialize (Hlt _ ltac:(apply elem_of_app; by left)). lia. }
  assert (Hnu : next_loc w ∉ us).
  { intros Hin. specialize (Hlt _ ltac:(apply elem_of_app; by right)). lia. }
  split_and!; cbn [fst snd links next_loc].
  - by apply is_list_alloc.
  - by apply is_list_alloc.
  - done.
  - intros x Hx. specialize (Hlt x Hx). lia.
Qed.

Lemma append_frame l h cs n x :
  is_list (l, h) cs → x ≠ n → x ∉ cs → (append n (l, h)).2 !!! x = h !!! x.
Proof.
  intros Hl Hxn Hxc. pose proof (is_list_tail _ _ Hl) as Htl. cbn [fst snd] in Htl.
  unfold append. destruct (tail l) as [t|] eqn:E; [|done].
  cbn [snd]. symmetry in Htl. apply last_Some_elem_of in Htl.
  assert (x ≠ t) by (by intros ->).
  apply node_eq; heap_solve.
Qed.

Lemma create_append_run l (c : Converter) (w : W) cs us :
  lists_ok (c, w) cs us → l ∉ cs → l ∉ us →
  links w !!! l = FRESH_NODE → (l < next_loc w)%positive →
  ∃ c' w',
    create_append l (c, w) = (Ok tt, (c', w')) ∧
    lists_ok (c', w') (cs ++ [l]) us ∧
    objs w' = objs w ∧ next_loc w' = next_loc w ∧
    update c' = update c ∧ scope c' = scope c ∧
    (∀ x, x ≠ l → x ∉ cs → links w' !!! x = links w !!! x).
Proof.
  intros (Hc & Hu & Hdisj & Hlt) Hlc Hlu Hfresh Hll. cbn [fst snd] in *.
  pose proof (append_is_list cs l (create c, links w) Hc Hlc Hfresh) as Hc2.
  pose proof (append_other_list _ _ _ _ _ l Hc Hdisj Hlu Hu) as Hu2.
  pose proof (fun x => append_frame _ _ _ l x Hc) as Hfr.
  unfold create_append, modify.
  destruct (append l (create c, links w)) as [l2 h2] eqn:Eapp.
  cbn [fst snd] in *. eexists _, _. split; [reflexivity|].
  cbn [create update scope links objs next_loc].
  split_and!; [|done..].
  split_and!; cbn [fst snd create update links next_loc]; [done..| |].
  - intros x [Hx| ->%list_elem_of_singleton]%elem_of_app; [by apply Hdisj|done].
  - intros x Hx. rewrite <- app_assoc in Hx.
    apply elem_of_app in Hx as [Hx|Hx].
    + apply Hlt. apply elem_of_app. by left.
    + apply elem_of_cons in Hx as [->|Hx]; [done|].
      apply Hlt. apply elem_of_app. by right.
Qed.

Lemma update_append_run l (c : Converter) (w : W) cs us :
  lists_ok (c, w) cs us → l ∉ cs → l ∉ us →
  links w !!! l = FRESH_NODE → (l < next_loc w)%positive →
  ∃ c' w',
    update_append l (c, w) = (Ok tt, (c', w')) ∧
    lists_ok (c', w') cs (us ++ [l]) ∧
    objs w' = objs w ∧ next_loc w' = next_loc w ∧
    create c' = create c ∧ scope c' = scope c ∧
    (∀ x, x ≠ l → x ∉ us → links w' !!! x = links w !!! x).
Proof.
  intros (Hc & Hu & Hdisj & Hlt) Hlc Hlu Hfresh Hll. cbn [fst snd] in *.
  assert (Hdisj' : ∀ x, x ∈ us → x ∉ cs) by (intros x Hx Hx'; by apply (Hdisj x)).
  pose proof (append_is_list us l (update c, links w) Hu Hlu Hfresh) as Hu2.
  pose proof (append_other_list _ _ _ _ _ l Hu Hdisj' Hlc Hc) as Hc2.
  pose proof (fun x => append_frame _ _ _ l x Hu) as Hfr.
  unfold update_append, modify.
  destruct (append l (update c, links w)) as [l2 h2] eqn:Eapp.
  cbn [fst snd] in *. eexists _, _. split; [reflexivity|].
  cbn [create update scope links objs next_loc].
  split_and!; [|done..].
  split_and!; cbn [fst snd create update links next_loc]; [done..| |].
  - intros x Hx [Hx'| ->%list_elem_of_singleton]%elem_of_app; [by apply (Hdisj x)|done].
  - intros x Hx. rewrite app_assoc in Hx.
    apply elem_of_app in Hx as [Hx|Hx].
    + by apply Hlt.
    + by apply list_elem_of_singleton in Hx as ->.
Qed.

(** A new node, with the fields [node], appended to the create list. *)
Lemma emit_create (node : @IrNode IrExpr) (c : Converter) (w : W) cs us :
  lists_ok (c, w) cs us →
  ∃ c' w',
    (l ← alloc node; create_append l) (c, w) = (Ok tt, (c', w')) ∧
    lists_ok (c', w') (cs ++ [next_loc w]) us ∧
    objs w' = <[next_loc w := node]> (objs w) ∧
    next_loc w' = Pos.succ (next_loc w) ∧
    update c' = update c ∧ scope c' = scope c ∧
    frame w w' cs us.
Proof.
  intros Hok. pose proof Hok as (Hc & Hu & Hdisj & Hlt). cbn [fst snd] in *.
  set (n := next_loc w).
  assert (Hnc : n ∉ cs).
  { intros Hin. specialize (Hlt n ltac:(apply elem_of_app; by left)). lia. }
  assert (Hnu : n ∉ us).
  { intros Hin. specialize (Hlt n ltac:(apply elem_of_app; by right)). lia. }
  destruct (create_append_run n c
              {| links := <[n := FRESH_NODE]> (links w); objs := <[n := node]> (objs w);
                 next_loc := Pos.succ n |} cs us)
    as (c' & w' & Hrun & Hok' & Ho & Hn & Hu' & Hs & Hfr);
    [by apply lists_ok_alloc|done..|cbn; by rewrite lookup_total_insert_eq|cbn; lia|].
  cbn [links objs next_loc] in *.
  exists c', w'. split_and!; [|done..|].
  - rewrite (bind_Ok (alloc node) _ (c, w) n _ eq_refl). exact Hrun.
  - split_and!.
    + rewrite Hn. lia.
    + intros x Hx. rewrite Ho. rewrite lookup_insert_ne; [done|]. fold n in Hx. lia.
    + intros x Hx Hxc Hxu. fold n in Hx. rewrite Hfr; [|lia|done].
      rewrite lookup_total_insert_ne; [done|]. lia.
Qed.

Lemma emit_update (node : @IrNode IrExpr) (c : Converter) (w : W) cs us :
  lists_ok (c, w) cs us →
  ∃ c' w',
    (l ← alloc node; update_append l) (c, w) = (Ok tt, (c', w')) ∧
    lists_ok (c', w') cs (us ++ [next_loc w]) ∧
    objs w' = <[next_loc w := node]> (objs w) ∧
    next_loc w' = Pos.succ (next_loc w) ∧
    create c' = create c ∧ scope c' = scope c ∧
    frame w w' cs us.
Proof.
  intros Hok. pose proof Hok as (Hc & Hu & Hdisj & Hlt). cbn [fst snd] in *.
  set (n := next_loc w).
  assert (Hnc : n ∉ cs).
  { intros Hin. specialize (Hlt n ltac:(apply elem_of_app; by left)). lia. }
  assert (Hnu : n ∉ us).
  { intros Hin. specialize (Hlt n ltac:(apply elem_of_app; by right)). lia. }
  destruct (update_append_run n c
              {| links := <[n := FRESH_NODE]> (links w); objs := <[n := node]> (objs w);
                 next_loc := Pos.succ n |} cs us)
    as (c' & w' & Hrun & Hok' & Ho & Hn & Hu' & Hs & Hfr);
    [by apply lists_ok_alloc|done..|cbn; by rewrite lookup_total_insert_eq|cbn; lia|].
  cbn [links objs next_loc] in *.
  exists c', w'. split_and!; [|done..|].
  - rewrite (bind_Ok (alloc node) _ (c, w) n _ eq_refl). exact Hrun.
  - split_and!.
    + rewrite Hn. lia.
    + intros x Hx. rewrite Ho. rewrite lookup_insert_ne; [done|]. fold n in Hx. lia.
    + intros x Hx Hxc Hxu. fold n in Hx. rewrite Hfr; [|lia|done].
      rewrite lookup_total_insert_ne; [done|]. lia.
Qed.

End RefinementBasics.

Ltac mem :=
  match goal with
  | H : ?x ∈ _ |- ?x ∈ _ => clear -H; set_solver
  | H : ?x ∈ _ |- _ ∨ _ => clear -H; set_solver
  end.

Section RefinementSequence.
Context {IrExpr : Type} (process : AST → IrExpr).

#[local] Abbreviation ST := (@CS IrExpr).
#[local] Abbreviation W := (@World IrExpr).

Lemma bind_unit (m1 m2 : M ST unit) s :
  (m1;; m2) s =
  match (m1 s).1 with
  | Ok _ => m2 (m1 s).2
  | Throw msg => (Throw msg, (m1 s).2)
  | TypeError => (TypeError, (m1 s).2)
  | OutOfFuel => (OutOfFuel, (m1 s).2)
  end.
Proof. unfold mbind, M_bind, bind. by destruct (m1 s) as [[] ?]. Qed.

(** The run of a computation after another one. *)
Lemma lowered_then (s : ST) cs us (r1 : res unit * ST) e1 (r2 : res unit * ST)
    (f2 : Scope → string + Emitted) :
  lists_ok s cs us →
  lowered s cs us r1 e1 →
  (∀ cs1 us1, r1.1 = Ok tt → lists_ok r1.2 (cs ++ cs1) (us ++ us1) →
     lowered r1.2 (cs ++ cs1) (us ++ us1) r2 (f2 (scope r1.2.1))) →
  lowered s cs us
    (match r1.1 with Ok _ => r2 | _ => r1 end)
    (match e1 with
     | inl msg => inl msg
     | inr (sc, cr, up) =>
         match f2 sc with
         | inl msg => inl msg
         | inr (sc', cr', up') => inr (sc', cr ++ cr', up ++ up')
         end
     end).
Proof.
  intros Hok [Hfr1 H1] H2. destruct e1 as [msg|[[sc cr] up]].
  { rewrite H1. by split. }
  destruct H1 as (Hr1 & Hsc1 & cs1 & us1 & Fc & Fu & Hok1 & Hcs1 & Hus1 & Hb1 & Hsep1).
  specialize (H2 cs1 us1 Hr1 Hok1). rewrite Hsc1 in H2. rewrite Hr1.
  destruct H2 as [Hfr2 H2].
  assert (Hfr : frame s.2 r2.2.2 cs us).
  { eapply frame_trans; [done..|]. intros x Hx. apply Hb1.
    mem. }
  split; [done|].
  destruct (f2 sc) as [msg|[[sc' cr'] up']]; [done|].
  destruct H2 as (Hr2 & Hsc2 & cs2 & us2 & Fc2 & Fu2 & Hok2 & Hcs2 & Hus2 & Hb2 & Hsep2).
  split_and!; [done..|].
  exists (cs1 ++ cs2), (us1 ++ us2), (Fc ++ Fc2), (Fu ++ Fu2).
  destruct Hfr1 as (Hn1 & _ & _). destruct Hfr2 as (Hn2 & Ho2 & Hl2).
  destruct Hok as (_ & _ & _ & Hlt). cbn [fst snd] in Hlt.
  assert (Hold : ∀ x, x ∈ Fc ++ Fu → x ∉ cs ++ cs1 ∧ x ∉ us ++ us1).
  { intros x Hx. destruct (Hsep1 x Hx) as [? ?].
    destruct (Hb1 x) as [Hge _]; [mem|].
    split; intros [Hin|Hin]%elem_of_app; try done.
    - specialize (Hlt x ltac:(mem)). lia.
    - specialize (Hlt x ltac:(mem)). lia. }
  split_and!.
  - by rewrite !app_assoc.
  - apply reps_app; [|done].
    eapply (proj2 (rep_reps_transport _ _)); [exact Hcs1| |].
    + intros x Hx. apply Ho2. apply Hb1. mem.
    + intros x Hx. split.
      * apply Ho2. apply Hb1. mem.
      * destruct (Hold x) as [? ?]; [mem|].
        apply Hl2; [|done..]. apply Hb1. mem.
  - apply reps_app; [|done].
    eapply (proj2 (rep_reps_transport _ _)); [exact Hus1| |].
    + intros x Hx. apply Ho2. apply Hb1. mem.
    + intros x Hx. split.
      * apply Ho2. apply Hb1. mem.
      * destruct (Hold x) as [? ?]; [mem|].
        apply Hl2; [|done..]. apply Hb1. mem.
  - intros x Hx.
    assert (x ∈ cs1 ++ us1 ++ Fc ++ Fu ∨ x ∈ cs2 ++ us2 ++ Fc2 ++ Fu2) as [Hin|Hin].
    { mem. }
    + destruct (Hb1 x Hin). split; [done|lia].
    + destruct (Hb2 x Hin). split; [lia|done].
  - intros x Hx.
    assert (x ∈ Fc ++ Fu ∨ x ∈ Fc2 ++ Fu2) as [Hin|Hin].
    { mem. }
    + destruct (Hsep1 x Hin) as [? ?].
      assert (x < next_loc r1.2.2)%positive.
      { apply Hb1. mem. }
      split; intros [?|Hin2]%elem_of_app; try done.
      * destruct (Hb2 x); [mem|lia].
      * destruct (Hb2 x); [mem|lia].
    + destruct (Hsep2 x Hin) as [? ?].
      assert (next_loc r1.2.2 ≤ x)%positive.
      { apply Hb2. mem. }
      split; intros [Hin1|?]%elem_of_app; try done.
      * destruct (Hb1 x); [mem|lia].
      * destruct (Hb1 x); [mem|lia].
Qed.

End RefinementSequence.

Section RefinementText.
Context {IrExpr : Type} (process : AST → IrExpr).

#[local] Abbreviation ST := (@CS IrExpr).
#[local] Abbreviation W := (@World IrExpr).

Lemma record_refs_lower owner rs (c : Converter) (w : W) :
  record_refs owner rs (c, w) =
    (Ok (lower_refs_list owner rs (scope c)).1,
     ({| create := create c; update := update c;
         scope := (lower_refs_list owner rs (scope c)).2 |}, w)).
Proof.
  revert c. induction rs as [|r rs IH]; intros c.
  { by destruct c. }
  cbn [record_refs lower_refs_list].
  set (c1 := {| create := create c; update := update c;
                scope := (Scope_recordReference (tmpl.ref_name r) owner
                            (tmpl.ref_value r) (scope c)).2 |}).
  rewrite (bind_Ok (recordReference _ _ _) _ (c, w) _ (c1, w) eq_refl).
  rewrite (bind_Ok _ _ _ _ _ (IH c1)). cbn [scope c1 create update].
  unfold Scope_recordReference. cbn [fst snd].
  by destruct (lower_refs_list owner rs _).
Qed.

Lemma collect_refs_lower owner rs (c : Converter) (w : W) :
  collect_refs owner rs (c, w) =
    (Ok (lower_refs owner rs (scope c)).1,
     ({| create := create c; update := update c;
         scope := (lower_refs owner rs (scope c)).2 |}, w)).
Proof.
  unfold collect_refs, lower_refs. case_bool_decide.
  - rewrite (bind_Ok _ _ _ _ _ (record_refs_lower owner rs c w)).
    by destruct (lower_refs_list owner rs (scope c)).
  - by destruct c.
Qed.

(** A new node that is not a template, appended to the create list. *)
Lemma emit_create_lowered (node : @IrNode IrExpr) t (s : ST) cs us :
  lists_ok s cs us → leaf node = Some t →
  lowered s cs us ((l ← alloc node; create_append l) s) (inr (scope s.1, [t], [])).
Proof.
  intros Hok Ht. destruct s as [c w].
  destruct (emit_create node c w cs us Hok)
    as (c' & w' & Hrun & Hok' & Ho & Hn & Hu & Hs & Hfr).
  rewrite Hrun. split; [done|]. cbn [fst snd].
  split_and!; [done..|]. exists [next_loc w], [], [], [].
  rewrite app_nil_r. split_and!; [done| |constructor| |].
  - eapply reps_leaf; [|done]. rewrite Ho. apply lookup_insert_eq.
  - intros x Hx. rewrite !app_nil_r in Hx. apply list_elem_of_singleton in Hx as ->.
    rewrite Hn. lia.
  - by intros x Hx%elem_of_nil.
Qed.

Lemma emit_update_lowered (node : @IrNode IrExpr) t (s : ST) cs us :
  lists_ok s cs us → leaf node = Some t →
  lowered s cs us ((l ← alloc node; update_append l) s) (inr (scope s.1, [], [t])).
Proof.
  intros Hok Ht. destruct s as [c w].
  destruct (emit_update node c w cs us Hok)
    as (c' & w' & Hrun & Hok' & Ho & Hn & Hu & Hs & Hfr).
  rewrite Hrun. split; [done|]. cbn [fst snd].
  split_and!; [done..|]. exists [], [next_loc w], [], [].
  rewrite app_nil_r. split_and!; [done|constructor| | |].
  - eapply reps_leaf; [|done]. rewrite Ho. apply lookup_insert_eq.
  - intros x Hx. rewrite !app_nil_r in Hx. apply list_elem_of_singleton in Hx as ->.
    rewrite Hn. lia.
  - by intros x Hx%elem_of_nil.
Qed.

Lemma visitText_lowered value (c : Converter) (w : W) cs us :
  lists_ok (c, w) cs us →
  lowered (c, w) cs us (visitText value (c, w)) (lower process (tmpl.Text value) (scope c)).
Proof.
  intros Hok. unfold visitText. cbn [lower]. unfold Scope_allocateId.
  set (c1 := {| create := create c; update := update c;
                scope := (Scope_allocateId (scope c)).2 |}).
  rewrite (bind_Ok allocateId _ (c, w) (nextId (scope c)) (c1, w) eq_refl).
  apply (emit_create_lowered (Text (nextId (scope c)) (Some value)) _ (c1, w)); done.
Qed.

Lemma visitBoundText_lowered value (c : Converter) (w : W) cs us :
  lists_ok (c, w) cs us →
  lowered (c, w) cs us (visitBoundText process value (c, w))
    (lower process (tmpl.BoundText value) (scope c)).
Proof.
  intros Hok. unfold visitBoundText. cbn [lower]. unfold Scope_allocateId.
  set (c1 := {| create := create c; update := update c;
                scope := (Scope_allocateId (scope c)).2 |}).
  set (id := nextId (scope c)).
  rewrite (bind_Ok allocateId _ (c, w) id (c1, w) eq_refl).
  rewrite bind_assoc.
  assert (Hok1 : lists_ok (c1, w) cs us) by done.
  pose proof (emit_create_lowered (Text id None) _ (c1, w) cs us Hok1 eq_refl) as H1.
  change (match value with ASTWithSource a => a | _ => value end) with (unwrapped value).
  set (m2 := match unwrapped value with
             | Interpolation strings expressions =>
                 node ← alloc (TextInterpolate id
                                 {| interp_expressions := process <$> expressions;
                                    interp_strings := strings |});
                 update_append node
             | _ => throw "BoundText is not an interpolation expression?"
             end : M ST unit).
  rewrite (bind_unit _ m2).
  set (r1 := (alloc (Text id None) ≫= create_append) (c1, w)) in *.
  pose proof (lowered_then (c1, w) cs us r1 _ (m2 r1.2)
    (fun sc => match unwrapped value with
               | Interpolation strings expressions =>
                   inr (sc, [],
                        [IrTextInterpolate id
                           {| interp_expressions := process <$> expressions;
                              interp_strings := strings |}])
               | _ => inl "BoundText is not an interpolation expression?"
               end) Hok1 H1) as H.
  assert (Hr1 : r1.1 = Ok tt) by (by destruct H1 as [_ [? _]]).
  assert (Hs1 : scope r1.2.1 = scope c1) by (by destruct H1 as [_ (_ & ? & _)]).
  rewrite Hr1 in H |- *. cbn [scope c1] in *.
  assert (Hgoal : ∀ e e', e = e' →
            lowered (c1, w) cs us (m2 r1.2) e → lowered (c, w) cs us (m2 r1.2) e').
  { by intros e e' ->. }
  eapply Hgoal; [|apply H].
  - destruct (unwrapped value); done.
  - intros cs1 us1 _ Hok2. subst m2. destruct r1 as [? [c2 w2]]. cbn [fst snd] in *.
    destruct (unwrapped value);
      try (split; [apply frame_refl|done]).
    apply (emit_update_lowered _ _ (c2, w2)); done.
Qed.

End RefinementText.

Section RefinementElementLoops.
Context {IrExpr : Type} (process : AST → IrExpr).

#[local] Abbreviation ST := (@CS IrExpr).
#[local] Abbreviation W := (@World IrExpr).

Lemma set_obj_step (l : loc) f (n n' : @IrNode IrExpr) (c : Converter) (w : W) :
  objs w !! l = Some n → f n = Some n' →
  ∃ w', set_obj l f (c, w) = (Ok tt, (c, w')) ∧
        objs w' !! l = Some n' ∧
        links w' = links w ∧ next_loc w' = next_loc w ∧
        (∀ x, x ≠ l → objs w' !! x = objs w !! x).
Proof.
  intros Hl Hf. eexists. split; [by eapply set_obj_run|].
  cbn [objs links next_loc]. split_and!; [apply lookup_insert_eq|done..|].
  intros x Hx. by rewrite lookup_insert_ne.
Qed.

Lemma reps_leaves (w : W) ls ts :
  Forall2 (fun l t => ∃ n, objs w !! l = Some n ∧ leaf n = Some t) ls ts →
  reps w ls ts [].
Proof.
  induction 1 as [|l t ls ts (n & Hl & Ht) _ IH]; [constructor|].
  change (@nil loc) with (@nil loc ++ []). constructor; [by eapply rep_leaf|done].
Qed.

(** The loop over the attributes of an element. *)
Lemma attributes_loop l id name refs attributes : ∀ a0 (c : Converter) (w : W),
  objs w !! l = Some (ElementStart id name (Some a0) refs) →
  ∃ w',
    for_each attributes (fun attr =>
      set_obj l (attrs_push (AttrString (tmpl.attr_name attr)));;
      set_obj l (attrs_push (AttrString (tmpl.attr_value attr)))) (c, w)
      = (Ok tt, (c, w')) ∧
    objs w' !! l =
      Some (ElementStart id name
              (Some (a0 ++ flat_map (fun a => [AttrString (tmpl.attr_name a);
                                               AttrString (tmpl.attr_value a)])
                             attributes)) refs) ∧
    links w' = links w ∧ next_loc w' = next_loc w ∧
    (∀ x, x ≠ l → objs w' !! x = objs w !! x).
Proof.
  induction attributes as [|a attributes IH]; intros a0 c w Hl.
  { exists w. rewrite app_nil_r. done. }
  destruct (set_obj_step l (attrs_push (AttrString (tmpl.attr_name a))) _ _ c w Hl eq_refl)
    as (w1 & Hrun1 & Hl1 & Hk1 & Hn1 & Ho1).
  destruct (set_obj_step l (attrs_push (AttrString (tmpl.attr_value a))) _ _ c w1 Hl1 eq_refl)
    as (w2 & Hrun2 & Hl2 & Hk2 & Hn2 & Ho2).
  destruct (IH _ c w2 Hl2) as (w' & Hrun & Hl' & Hk' & Hn' & Ho').
  exists w'. split_and!.
  - cbn [for_each]. rewrite bind_unit.
    rewrite (bind_Ok _ _ _ _ _ Hrun1), Hrun2. exact Hrun.
  - rewrite Hl'. cbn [flat_map]. by rewrite <- !app_assoc.
  - congruence.
  - congruence.
  - intros x Hx. rewrite Ho', Ho2, Ho1; done.
Qed.

(** The loop over the inputs of an element. *)
Lemma inputs_loop l id name refs inputs : ∀ a0 (c : Converter) (w : W) cs us,
  lists_ok (c, w) cs us →
  objs w !! l = Some (ElementStart id name (Some a0) refs) →
  (l < next_loc w)%positive →
  ∃ c' w' ps,
    for_each inputs (fun input =>
      set_obj l (attrs_push (AttrString (tmpl.input_name input)));;
      property ← alloc (Property id (tmpl.input_name input)
                          (process (tmpl.input_value input)));
      update_append property) (c, w) = (Ok tt, (c', w')) ∧
    create c' = create c ∧ scope c' = scope c ∧
    lists_ok (c', w') cs (us ++ ps) ∧
    objs w' !! l =
      Some (ElementStart id name
              (Some (a0 ++ ((fun i => AttrString (tmpl.input_name i)) <$> inputs))) refs) ∧
    Forall2 (fun p t => ∃ n, objs w' !! p = Some n ∧ leaf n = Some t) ps
      ((fun i => IrProperty id (tmpl.input_name i) (process (tmpl.input_value i)))
         <$> inputs) ∧
    (∀ x, x ∈ ps → (next_loc w ≤ x)%positive) ∧
    (next_loc w ≤ next_loc w')%positive ∧
    (∀ x, (x < next_loc w)%positive → x ≠ l → objs w' !! x = objs w !! x) ∧
    (∀ x, (x < next_loc w)%positive → x ∉ cs → x ∉ us →
          links w' !!! x = links w !!! x).
Proof.
  induction inputs as [|i inputs IH]; intros a0 c w cs us Hok Hl Hlt.
  { exists c, w, []. rewrite !app_nil_r.
    split_and!; try done; by intros x Hx%elem_of_nil. }
  destruct (set_obj_step l (attrs_push (AttrString (tmpl.input_name i))) _ _ c w Hl eq_refl)
    as (w1 & Hrun1 & Hl1 & Hk1 & Hn1 & Ho1).
  assert (Hok1 : lists_ok (c, w1) cs us) by (by eapply lists_ok_same).
  destruct (emit_update (Property id (tmpl.input_name i) (process (tmpl.input_value i)))
              c w1 cs us Hok1)
    as (c2 & w2 & Hrun2 & Hok2 & Ho2 & Hn2 & Hc2 & Hs2 & (_ & Hfo2 & Hfl2)).
  rewrite Hn1 in *.
  assert (Hl2 : objs w2 !! l = Some (ElementStart id name
                  (Some (a0 ++ [AttrString (tmpl.input_name i)])) refs)).
  { rewrite Ho2, lookup_insert_ne; [done|lia]. }
  destruct (IH _ c2 w2 cs (us ++ [next_loc w]) Hok2 Hl2)
    as (c' & w' & ps & Hrun & Hc' & Hs' & Hok' & Hl' & Hps & Hge & Hn' & Ho' & Hk');
    [lia|].
  rewrite Hn2 in *.
  exists c', w', (next_loc w :: ps). split_and!.
  - cbn [for_each]. rewrite bind_unit.
    rewrite (bind_Ok _ _ _ _ _ Hrun1), Hrun2. exact Hrun.
  - congruence.
  - congruence.
  - by rewrite <- app_assoc in Hok'.
  - rewrite Hl'. cbn [fmap list_fmap]. by rewrite <- app_assoc.
  - rewrite fmap_cons. constructor; [|done].
    eexists. split.
    + rewrite Ho' by lia. rewrite Ho2. apply lookup_insert_eq.
    + reflexivity.
  - intros x [->|Hx]%elem_of_cons; [lia|]. specialize (Hge x Hx). lia.
  - lia.
  - intros x Hx Hxl. rewrite Ho' by lia. rewrite Ho2.
    rewrite lookup_insert_ne by lia. by apply Ho1.
  - intros x Hx Hxc Hxu. rewrite Hk'; [|lia|done|].
    + rewrite Hfl2; [by rewrite Hk1|lia|done..].
    + intros [?| ->%list_elem_of_singleton]%elem_of_app; [done|lia].
Qed.

End RefinementElementLoops.

Section RefinementElement.
Context {IrExpr : Type} (process : AST → IrExpr).

#[local] Abbreviation ST := (@CS IrExpr).
#[local] Abbreviation W := (@World IrExpr).

(** The part of [visitElement] that fills the attribute array and emits the
    property bindings. *)
Lemma attrs_block l id name refs attributes inputs (c : Converter) (w : W) cs us :
  lists_ok (c, w) cs us →
  objs w !! l = Some (ElementStart id name None refs) →
  (l < next_loc w)%positive →
  ∃ c' w' ps,
    (if bool_decide (0 < length attributes) || bool_decide (0 < length inputs) then
       set_obj l (set_attrs (Some []));;
       for_each attributes (fun attr =>
         set_obj l (attrs_push (AttrString (tmpl.attr_name attr)));;
         set_obj l (attrs_push (AttrString (tmpl.attr_value attr))));;
       (if bool_decide (0 < length inputs) then
          set_obj l (attrs_push (AttrMarker Bindings))
        else mret tt);;
       for_each inputs (fun input =>
         set_obj l (attrs_push (AttrString (tmpl.input_name input)));;
         property ← alloc (Property id (tmpl.input_name input)
                             (process (tmpl.input_value input)));
         update_append property)
     else mret tt) (c, w) = (Ok tt, (c', w')) ∧
    create c' = create c ∧ scope c' = scope c ∧
    lists_ok (c', w') cs (us ++ ps) ∧
    objs w' !! l = Some (ElementStart id name (element_attrs attributes inputs) refs) ∧
    Forall2 (fun p t => ∃ n, objs w' !! p = Some n ∧ leaf n = Some t) ps
      ((fun i => IrProperty id (tmpl.input_name i) (process (tmpl.input_value i)))
         <$> inputs) ∧
    (∀ x, x ∈ ps → (next_loc w ≤ x)%positive) ∧
    (next_loc w ≤ next_loc w')%positive ∧
    (∀ x, (x < next_loc w)%positive → x ≠ l → objs w' !! x = objs w !! x) ∧
    (∀ x, (x < next_loc w)%positive → x ∉ cs → x ∉ us →
          links w' !!! x = links w !!! x).
Proof.
  intros Hok Hl Hlt. unfold element_attrs.
  destruct (bool_decide (0 < length attributes) || bool_decide (0 < length inputs)) eqn:Ec.
  2:{ apply orb_false_iff in Ec as [Ea Ei].
      apply bool_decide_eq_false in Ea, Ei.
      destruct attributes; [|simpl in Ea; lia]. destruct inputs; [|simpl in Ei; lia].
      exists c, w, []. rewrite app_nil_r.
      split_and!; try done; by intros x Hx%elem_of_nil. }
  destruct (set_obj_step l (set_attrs (Some [])) _ _ c w Hl eq_refl)
    as (w1 & Hrun1 & Hl1 & Hk1 & Hn1 & Ho1).
  destruct (attributes_loop l id name refs attributes [] c w1 Hl1)
    as (w2 & Hrun2 & Hl2 & Hk2 & Hn2 & Ho2).
  cbn [app] in Hl2.
  set (statics := flat_map (fun a => [AttrString (tmpl.attr_name a);
                                      AttrString (tmpl.attr_value a)]) attributes) in *.
  assert (∃ w3,
    (if bool_decide (0 < length inputs) then
       set_obj l (attrs_push (AttrMarker Bindings)) else mret tt) (c, w2)
      = (Ok tt, (c, w3)) ∧
    objs w3 !! l = Some (ElementStart id name
      (Some (statics ++ (if bool_decide (0 < length inputs)
                         then [AttrMarker Bindings] else []))) refs) ∧
    links w3 = links w2 ∧ next_loc w3 = next_loc w2 ∧
    (∀ x, x ≠ l → objs w3 !! x = objs w2 !! x))
    as (w3 & Hrun3 & Hl3 & Hk3 & Hn3 & Ho3).
  { destruct (bool_decide (0 < length inputs)).
    - by apply (set_obj_step l (attrs_push (AttrMarker Bindings)) _ _ c w2 Hl2).
    - exists w2. by rewrite app_nil_r. }
  assert (Hok3 : lists_ok (c, w3) cs us).
  { eapply lists_ok_same; [exact Hok|done..|congruence|congruence]. }
  destruct (inputs_loop process l id name refs inputs _ c w3 cs us Hok3 Hl3)
    as (c' & w' & ps & Hrun & Hc' & Hs' & Hok' & Hl' & Hps & Hge & Hn' & Ho' & Hk');
    [congruence|].
  exists c', w', ps.
  assert (E3 : next_loc w3 = next_loc w) by congruence.
  rewrite E3 in *.
  split_and!; try done.
  - rewrite bind_unit, Hrun1. cbn [fst snd].
    rewrite bind_unit, Hrun2. cbn [fst snd].
    rewrite bind_unit, Hrun3. cbn [fst snd]. exact Hrun.
  - rewrite Hl'. by rewrite <- app_assoc.
  - intros x Hx Hxl. rewrite Ho', Ho3, Ho2, Ho1; done.
  - intros x Hx Hxc Hxu. rewrite Hk' by done. congruence.
Qed.

(** [visitElement] up to the visit of the children. *)
Lemma visitElement_start name attributes inputs references (c : Converter) (w : W) cs us :
  lists_ok (c, w) cs us →
  ∃ s1 : ST,
    (∀ k : M ST unit,
       visitElement process name attributes inputs references k (c, w) =
       (k;; (elementEnd ← alloc (ElementEnd (nextId (scope c)));
             create_append elementEnd)) s1) ∧
    lowered (c, w) cs us (Ok tt, s1)
      (inr ((lower_refs (nextId (scope c)) references
               (Scope_allocateId (scope c)).2).2,
            [IrElementStart (nextId (scope c)) name (element_attrs attributes inputs)
               (lower_refs (nextId (scope c)) references
                  (Scope_allocateId (scope c)).2).1],
            (fun i => IrProperty (nextId (scope c)) (tmpl.input_name i)
                        (process (tmpl.input_value i))) <$> inputs)).
Proof.
  intros Hok.
  set (id := nextId (scope c)).
  set (rs := lower_refs id references (Scope_allocateId (scope c)).2).
  set (c1 := {| create := create c; update := update c;
                scope := (Scope_allocateId (scope c)).2 |}).
  set (c2 := {| create := create c1; update := update c1; scope := rs.2 |}).
  set (l := next_loc w).
  set (wa := {| links := <[l := FRESH_NODE]> (links w);
                objs := <[l := ElementStart id name None None]> (objs w);
                next_loc := Pos.succ l |} : W).
  assert (Hoka : lists_ok (c2, wa) cs us).
  { apply lists_ok_alloc. by eapply lists_ok_same. }
  destruct (set_obj_step l (set_refs rs.1) _ _ c2 wa (lookup_insert_eq _ _ _) eq_refl)
    as (wb & Hrunb & Hlb & Hkb & Hnb & Hob).
  assert (Hokb : lists_ok (c2, wb) cs us) by (by eapply lists_ok_same).
  pose proof Hok as (_ & _ & _ & Hlt). cbn [fst snd] in Hlt.
  assert (Hlc : l ∉ cs).
  { intros Hin. specialize (Hlt l ltac:(apply elem_of_app; by left)). lia. }
  assert (Hlu : l ∉ us).
  { intros Hin. specialize (Hlt l ltac:(apply elem_of_app; by right)). lia. }
  destruct (create_append_run l c2 wb cs us Hokb Hlc Hlu)
    as (c3 & w3 & Hrun3 & Hok3 & Ho3 & Hn3 & Hu3 & Hs3 & Hk3).
  { rewrite Hkb. cbn. apply lookup_total_insert_eq. }
  { rewrite Hnb. cbn. lia. }
  assert (Hl3 : objs w3 !! l = Some (ElementStart id name None rs.1)) by congruence.
  assert (E3 : next_loc w3 = Pos.succ l) by (rewrite Hn3, Hnb; done).
  destruct (attrs_block l id name rs.1 attributes inputs c3 w3 (cs ++ [l]) us Hok3 Hl3)
    as (c4 & w4 & ps & Hrun4 & Hc4 & Hs4 & Hok4 & Hl4 & Hps & Hge & Hn4 & Ho4 & Hk4);
    [lia|].
  rewrite E3 in *.
  exists (c4, w4). split.
  - intros k. unfold visitElement.
    rewrite (bind_Ok allocateId _ (c, w) id (c1, w) eq_refl).
    rewrite (bind_Ok _ _ _ _ _ (collect_refs_lower id references c1 w)).
    fold rs. fold c2.
    rewrite (bind_Ok (alloc _) _ (c2, w) l (c2, wa) eq_refl).
    rewrite (bind_Ok _ _ _ _ _ Hrunb).
    rewrite (bind_Ok _ _ _ _ _ Hrun3).
    rewrite (bind_Ok _ _ _ _ _ Hrun4). reflexivity.
  - split; cbn [fst snd].
    + split_and!.
      * fold l. lia.
      * intros x Hx. fold l in Hx. rewrite Ho4 by lia. rewrite Ho3, Hob by lia.
        cbn. rewrite lookup_insert_ne; [done|lia].
      * intros x Hx Hxc Hxu. fold l in Hx. rewrite Hk4; [|lia| |done].
        -- rewrite Hk3; [|lia|done]. rewrite Hkb. cbn.
           rewrite lookup_total_insert_ne; [done|lia].
        -- intros [?| ->%list_elem_of_singleton]%elem_of_app; [done|lia].
    + split_and!; [done|by rewrite Hs4, Hs3|].
      exists [l], ps, [], []. split_and!.
      * done.
      * eapply reps_leaf; [exact Hl4|done].
      * by apply reps_leaves.
      * intros x Hx. rewrite !app_nil_r in Hx. fold l.
        destruct Hok4 as (_ & _ & _ & Hlt4). cbn [fst snd] in Hlt4.
        apply elem_of_app in Hx as [->%list_elem_of_singleton|Hx].
        -- split; [lia|]. apply Hlt4. set_solver.
        -- split; [specialize (Hge x Hx); lia|]. apply Hlt4. set_solver.
      * by intros x Hx%elem_of_nil.
Qed.

(** [visitElement], given what the visit of the children does. *)
Lemma visitElement_lowered name attributes inputs references children
    (k : M ST unit) (c : Converter) (w : W) cs us :
  lists_ok (c, w) cs us →
  (∀ s cs us, lists_ok s cs us →
     lowered s cs us (k s) (lower_all process children (scope s.1))) →
  lowered (c, w) cs us
    (visitElement process name attributes inputs references k (c, w))
    (lower process (tmpl.Element name attributes inputs references children) (scope c)).
Proof.
  intros Hok Hk.
  destruct (visitElement_start name attributes inputs references c w cs us Hok)
    as (s1 & Hrun & H1).
  rewrite Hrun.
  set (id := nextId (scope c)) in *.
  set (suffix := (elementEnd ← alloc (ElementEnd id); create_append elementEnd) : M ST unit).
  pose proof (lowered_then (c, w) cs us (Ok tt, s1) _
    ((k;; suffix) s1)
    (fun sc => match lower_all process children sc with
               | inl msg => inl msg
               | inr (sc', cr, up) => inr (sc', cr ++ [IrElementEnd id], up ++ [])
               end) Hok H1) as H.
  cbn [fst snd] in H.
  assert (Hgoal : ∀ e e', e = e' →
            lowered (c, w) cs us ((k;; suffix) s1) e →
            lowered (c, w) cs us ((k;; suffix) s1) e').
  { by intros e e' ->. }
  eapply Hgoal; [|apply H].
  - cbn [lower]. unfold Scope_allocateId. fold id.
    destruct (lower_refs id references _) as [refs sc2]. cbn [fst snd].
    fold (lower_all process). destruct (lower_all process children sc2) as [msg|[[sc3 cr] up]]; [done|].
    by rewrite app_nil_r.
  - intros cs1 us1 _ Hok1. rewrite bind_unit.
    pose proof (lowered_then s1 _ _ (k s1) _ (suffix (k s1).2)
      (fun sc => inr (sc, [IrElementEnd id], [])) Hok1 (Hk _ _ _ Hok1)) as H2.
    assert (Hgoal2 : ∀ r r' e e', r = r' → e = e' →
              lowered s1 (cs ++ cs1) (us ++ us1) r e →
              lowered s1 (cs ++ cs1) (us ++ us1) r' e').
    { by intros r r' e e' -> ->. }
    eapply Hgoal2; [| |apply H2].
    + destruct (k s1) as [[] s2]; done.
    + by destruct (lower_all process children (scope s1.1)) as [msg|[[sc3 cr] up]].
    + intros cs2 us2 _ Hok2.
      apply (emit_create_lowered (ElementEnd id) _ (k s1).2); done.
Qed.

End RefinementElement.

Section RefinementTemplate.
Context {IrExpr : Type} (process : AST → IrExpr).

#[local] Abbreviation ST := (@CS IrExpr).
#[local] Abbreviation W := (@World IrExpr).

Lemma lists_ok_nil (c : Converter) (w : W) :
  create c = new_LinkedList → update c = new_LinkedList → lists_ok (c, w) [] [].
Proof.
  intros Hc Hu. unfold lists_ok. cbn [fst snd]. rewrite Hc, Hu.
  split_and!; [by split; [constructor|]..| |]; by intros x Hx%elem_of_nil.
Qed.

Lemma lower_Template tagName variables references children sc :
  lower process (tmpl.Template tagName variables references children) sc =
  match lower_all process children
          (scope (child_converter (nextId sc) variables (Scope_allocateId sc).2)) with
  | inl msg => inl msg
  | inr (_, cr, up) =>
      inr ((lower_refs (nextId sc) references (Scope_allocateId sc).2).2,
           [IrTemplate (nextId sc)
              (if decide (tagName = EmptyString) then "ng-template" else tagName)
              cr up (lower_refs (nextId sc) references (Scope_allocateId sc).2).1],
           [])
  end.
Proof.
  cbn [lower]. unfold Scope_allocateId. cbn [fst snd]. fold (lower_all process).
  destruct (lower_all process children _) as [msg|[[csc ccr] cup]]; [done|].
  by destruct (lower_refs _ _ _).
Qed.

(** [visitTemplate], given what the visit of the children does. *)
Lemma visitTemplate_lowered tagName variables references children
    (k : M ST unit) (c : Converter) (w : W) cs us :
  lists_ok (c, w) cs us →
  (∀ s cs us, lists_ok s cs us →
     lowered s cs us (k s) (lower_all process children (scope s.1))) →
  lowered (c, w) cs us
    (visitTemplate tagName variables references k (c, w))
    (lower process (tmpl.Template tagName variables references children) (scope c)).
Proof.
  intros Hok Hk. rewrite lower_Template.
  set (id := nextId (scope c)).
  set (c1 := {| create := create c; update := update c;
                scope := (Scope_allocateId (scope c)).2 |}).
  change (Scope_allocateId (scope c)).2 with (scope c1).
  set (child := child_converter id variables (scope c1)).
  assert (Hok0 : lists_ok (child, w) [] []) by (by apply lists_ok_nil).
  pose proof (Hk (child, w) [] [] Hok0) as [Hfr0 H0]. cbn [fst snd] in Hfr0, H0.
  unfold visitTemplate.
  rewrite (bind_Ok allocateId _ (c, w) id (c1, w) eq_refl).
  assert (Hfrw : ∀ w', frame w w' [] [] → frame w w' cs us).
  { intros w' H. eapply frame_weaken; [exact H|by intros x Hx%elem_of_nil..]. }
  destruct (lower_all process children (scope child)) as [msg|[[csc ccr] cup]].
  { (* the children throw *)
    unfold mbind, M_bind, bind, parseChild. fold child.
    destruct (k (child, w)) as [[[]|msg'| |] [parsed w1]]; cbn [fst snd] in *; try done.
    injection H0 as ->. split; [by apply Hfrw|done]. }
  destruct H0 as (Hr & _ & ccs & cus & Fc & Fu & Hokc & Hccs & Hcus & Hb & Hsep).
  destruct (k (child, w)) as [r [parsed w1]] eqn:Ek. cbn [fst snd app] in *. subst r.
  rewrite (bind_Ok (parseChild _ _ _) _ (c1, w) parsed (c1, w1)); last first.
  { unfold parseChild. fold child. by rewrite Ek. }
  rewrite (bind_Ok _ _ _ _ _ (collect_refs_lower id references c1 w1)).
  destruct (lower_refs id references (scope c1)) as [refs sc2] eqn:Ers. cbn [fst snd].
  set (c2 := {| create := create c1; update := update c1; scope := sc2 |}).
  set (tag := if decide (tagName ≠ EmptyString) then tagName else "ng-template").
  assert (Etag : (if decide (tagName = EmptyString) then "ng-template" else tagName) = tag).
  { subst tag. by destruct (decide (tagName = EmptyString)), (decide (tagName ≠ EmptyString)). }
  rewrite Etag.
  destruct Hfr0 as (Hn0 & Ho0 & Hk0).
  pose proof Hok as (Hc & Hu & Hdisj & Hlt). cbn [fst snd] in Hc, Hu, Hdisj, Hlt.
  (* the lists of [this] are as they were *)
  assert (Hok1 : lists_ok (c2, w1) cs us).
  { split_and!; cbn [fst snd create update c2 c1]; [| |done|].
    - eapply is_list_agree; [|exact Hc]. intros x Hx.
      rewrite Hk0; [done| |by intros ?%elem_of_nil..]. apply Hlt. set_solver.
    - eapply is_list_agree; [|exact Hu]. intros x Hx.
      rewrite Hk0; [done| |by intros ?%elem_of_nil..]. apply Hlt. set_solver.
    - intros x Hx. specialize (Hlt x Hx). lia. }
  set (view := next_loc w1).
  set (wa := {| links := <[view := FRESH_NODE]> (links w1);
                objs := <[view := Template id tag new_LinkedList new_LinkedList None]>
                          (objs w1);
                next_loc := Pos.succ view |} : W).
  assert (Hoka : lists_ok (c2, wa) cs us) by (by apply lists_ok_alloc).
  assert (Hvc : view ∉ cs).
  { intros Hin. specialize (Hlt view ltac:(apply elem_of_app; by left)). lia. }
  assert (Hvu : view ∉ us).
  { intros Hin. specialize (Hlt view ltac:(apply elem_of_app; by right)). lia. }
  destruct (create_append_run view c2 wa cs us Hoka Hvc Hvu)
    as (c3 & w3 & Hrun3 & Hok3 & Ho3 & Hn3 & Hu3 & Hs3 & Hk3).
  { cbn. apply lookup_total_insert_eq. }
  { cbn. lia. }
  assert (Hl3 : objs w3 !! view =
                Some (Template id tag new_LinkedList new_LinkedList None)).
  { rewrite Ho3. cbn. apply lookup_insert_eq. }
  destruct (set_obj_step view (set_create (create parsed)) _ _ c3 w3 Hl3 eq_refl)
    as (w4 & Hrun4 & Hl4 & Hk4 & Hn4 & Ho4).
  destruct (set_obj_step view (set_update (update parsed)) _ _ c3 w4 Hl4 eq_refl)
    as (w5 & Hrun5 & Hl5 & Hk5 & Hn5 & Ho5).
  destruct (set_obj_step view (set_refs refs) _ _ c3 w5 Hl5 eq_refl)
    as (w6 & Hrun6 & Hl6 & Hk6 & Hn6 & Ho6).
  rewrite (bind_Ok (alloc _) _ (c2, w1) view (c2, wa) eq_refl).
  rewrite (bind_Ok _ _ _ _ _ Hrun3).
  rewrite (bind_Ok _ _ _ _ _ Hrun4).
  rewrite (bind_Ok _ _ _ _ _ Hrun5).
  rewrite Hrun6.
  assert (E6 : next_loc w6 = Pos.succ view) by (rewrite Hn6, Hn5, Hn4, Hn3; done).
  (* the fields and links of the nodes allocated before [view] *)
  assert (Hobj : ∀ x, (x < view)%positive → objs w6 !! x = objs w1 !! x).
  { intros x Hx. rewrite Ho6, Ho5, Ho4, Ho3 by lia. cbn.
    rewrite lookup_insert_ne; [done|lia]. }
  assert (Hlnk : ∀ x, (x < view)%positive → x ∉ cs → links w6 !!! x = links w1 !!! x).
  { intros x Hx Hxc. rewrite Hk6, Hk5, Hk4. rewrite Hk3; [|lia|done]. cbn.
    rewrite lookup_total_insert_ne; [done|lia]. }
  assert (Hnew : ∀ x, x ∈ ccs ++ cus ++ Fc ++ Fu → (x < view)%positive ∧ x ∉ cs).
  { intros x Hx. destruct (Hb x Hx) as [Hge Hlt']. split; [done|].
    intros Hin. specialize (Hlt x ltac:(apply elem_of_app; by left)). lia. }
  split; cbn [fst snd].
  - split_and!.
    + lia.
    + intros x Hx. rewrite Hobj by lia. by apply Ho0.
    + intros x Hx Hxc Hxu. rewrite Hlnk; [|lia|done].
      apply Hk0; [done|by intros ?%elem_of_nil..].
  - split_and!; [done|by rewrite Hs3|].
    exists [view], [], ((ccs ++ Fc ++ cus ++ Fu) ++ []), [].
    rewrite app_nil_r. split_and!.
    + eapply lists_ok_same; [exact Hok3|done..|congruence|congruence].
    + constructor; [|constructor].
      destruct Hokc as (Hcc & Hcu & _). cbn [fst snd] in Hcc, Hcu.
      eapply rep_template; [exact Hl6| | | |].
      * eapply is_list_agree; [|exact Hcc]. intros x Hx.
        destruct (Hnew x) as [? ?]; [set_solver|]. by rewrite Hlnk.
      * eapply is_list_agree; [|exact Hcu]. intros x Hx.
        destruct (Hnew x) as [? ?]; [set_solver|]. by rewrite Hlnk.
      * eapply (proj2 (rep_reps_transport _ _)); [exact Hccs| |].
        -- intros x Hx. apply Hobj, Hnew. set_solver.
        -- intros x Hx. destruct (Hnew x) as [? ?]; [set_solver|].
           split; [by apply Hobj|by apply Hlnk].
      * eapply (proj2 (rep_reps_transport _ _)); [exact Hcus| |].
        -- intros x Hx. apply Hobj, Hnew. set_solver.
        -- intros x Hx. destruct (Hnew x) as [? ?]; [set_solver|].
           split; [by apply Hobj|by apply Hlnk].
    + constructor.
    + intros x Hx. rewrite E6.
      apply elem_of_app in Hx as [->%list_elem_of_singleton|Hx]; [lia|].
      destruct (Hb x) as [? ?]; [set_solver|]. lia.
    + intros x Hx. split; [|by intros ?%elem_of_nil].
      intros ->%list_elem_of_singleton.
      destruct (Hb view) as [? ?]; [set_solver|]. lia.
Qed.

Lemma for_each_lowered_nil (s : ST) cs us :
  lists_ok s cs us →
  lowered s cs us (for_each [] (Node_visit process) s)
    (lower_all process [] (scope s.1)).
Proof.
  intros Hok. split; [apply frame_refl|]. cbn. split_and!; [done..|].
  exists [], [], [], []. rewrite !app_nil_r.
  split_and!; [done|constructor|constructor|by intros ? ?%elem_of_nil..].
Qed.

Lemma for_each_lowered_cons n children :
  (∀ (s : ST) cs us, lists_ok s cs us →
     lowered s cs us (Node_visit process n s) (lower process n (scope s.1))) →
  (∀ (s : ST) cs us, lists_ok s cs us →
     lowered s cs us (for_each children (Node_visit process) s)
       (lower_all process children (scope s.1))) →
  ∀ (s : ST) cs us, lists_ok s cs us →
    lowered s cs us (for_each (n :: children) (Node_visit process) s)
      (lower_all process (n :: children) (scope s.1)).
Proof.
  intros Hn Hc s cs us Hok. cbn [for_each]. rewrite bind_unit.
  pose proof (lowered_then s cs us (Node_visit process n s) _
    (for_each children (Node_visit process) (Node_visit process n s).2)
    (lower_all process children) Hok (Hn s cs us Hok)) as H.
  assert (Hgoal : ∀ r r' e e', r = r' → e = e' →
            lowered s cs us r e → lowered s cs us r' e').
  { by intros r r' e e' -> ->. }
  eapply Hgoal; [| |apply H].
  - by destruct (Node_visit process n s) as [[] s2].
  - reflexivity.
  - intros cs1 us1 _ Hok1. by apply Hc.
Qed.

(** Lowering a node does what the function says. *)
Lemma Node_visit_lowered node : ∀ (s : ST) cs us,
  lists_ok s cs us →
  lowered s cs us (Node_visit process node s) (lower process node (scope s.1)).
Proof.
  revert node. fix IH 1.
  intros [name attributes inputs references children|value|value
         |tagName variables references children| | | | | | |] s cs us Hok;
    cbn [Node_visit];
    try (split; [apply frame_refl|done]).
  - destruct s as [c w]. rewrite visitAll_for_each.
    apply visitElement_lowered; [done|].
    induction children as [|n children IHc].
    + apply for_each_lowered_nil.
    + apply for_each_lowered_cons; [apply IH|apply IHc].
  - destruct s as [c w]. by apply visitText_lowered.
  - destruct s as [c w]. by apply visitBoundText_lowered.
  - destruct s as [c w]. rewrite visitAll_for_each.
    apply visitTemplate_lowered; [done|].
    induction children as [|n children IHc].
    + apply for_each_lowered_nil.
    + apply for_each_lowered_cons; [apply IH|apply IHc].
Qed.

Lemma for_each_lowered nodes : ∀ (s : ST) cs us,
  lists_ok s cs us →
  lowered s cs us (for_each nodes (Node_visit process) s)
    (lower_all process nodes (scope s.1)).
Proof.
  induction nodes as [|n nodes IH].
  - apply for_each_lowered_nil.
  - apply for_each_lowered_cons; [apply Node_visit_lowered|apply IH].
Qed.

End RefinementTemplate.

Section ReferenceFunction.
Context {IrExpr : Type} (process : AST → IrExpr).

#[local] Abbreviation ST := (@CS IrExpr).
#[local] Abbreviation W := (@World IrExpr).

Lemma balanced_app (xs ys : list (@Ir IrExpr)) :
  balanced xs → balanced ys → balanced (xs ++ ys).
Proof.
  induction 1 as [|id name attrs refs inner rest Hi IHi Hr IHr
                  |id value rest Hr IHr|id tag cr up refs rest Hc IHc Hu Hr IHr];
    intros Hys; cbn [app].
  - done.
  - rewrite <- app_assoc. cbn [app]. constructor; [done|by apply IHr].
  - constructor. by apply IHr.
  - constructor; [done..|by apply IHr].
Qed.

Lemma lower_all_cons n nodes sc :
  lower_all process (n :: nodes) sc =
  match lower process n sc with
  | inl msg => inl msg
  | inr (sc, cr, up) =>
      match lower_all process nodes sc with
      | inl msg => inl msg
      | inr (sc, cr', up') => inr (sc, cr ++ cr', up ++ up')
      end
  end.
Proof. done. Qed.

Lemma lower_Element name attributes inputs references children sc :
  lower process (tmpl.Element name attributes inputs references children) sc =
  match lower_all process children
          (lower_refs (nextId sc) references (Scope_allocateId sc).2).2 with
  | inl msg => inl msg
  | inr (sc', cr, up) =>
      inr (sc',
           IrElementStart (nextId sc) name (element_attrs attributes inputs)
             (lower_refs (nextId sc) references (Scope_allocateId sc).2).1
             :: cr ++ [IrElementEnd (nextId sc)],
           ((fun i => IrProperty (nextId sc) (tmpl.input_name i)
                        (process (tmpl.input_value i))) <$> inputs) ++ up)
  end.
Proof.
  cbn [lower]. unfold Scope_allocateId. cbn [fst snd]. fold (lower_all process).
  by destruct (lower_refs _ _ _).
Qed.

(** The shape of what the function emits. *)
Lemma lower_shape node : ∀ sc sc' cr up,
  lower process node sc = inr (sc', cr, up) → balanced cr ∧ Forall is_binding up.
Proof.
  revert node. fix IH 1.
  assert (Hcons : ∀ n nodes,
    (∀ sc sc' cr up, lower process n sc = inr (sc', cr, up) →
                     balanced cr ∧ Forall is_binding up) →
    (∀ sc sc' cr up, lower_all process nodes sc = inr (sc', cr, up) →
                     balanced cr ∧ Forall is_binding up) →
    ∀ sc sc' cr up, lower_all process (n :: nodes) sc = inr (sc', cr, up) →
                    balanced cr ∧ Forall is_binding up).
  { clear IH. intros n nodes Hn Hnodes sc sc' cr up. rewrite lower_all_cons.
    destruct (lower process n sc) as [|[[sc1 cr1] up1]] eqn:E1; [done|].
    destruct (lower_all process nodes sc1) as [|[[sc2 cr2] up2]] eqn:E2; [done|].
    intros [= <- <- <-]. destruct (Hn _ _ _ _ E1), (Hnodes _ _ _ _ E2).
    split; [by apply balanced_app|by apply Forall_app]. }
  intros [name attributes inputs references children|value|value
         |tagName variables references children| | | | | | |] sc sc' cr up;
    try done.
  - rewrite lower_Element.
    assert (Hch : ∀ sc sc' cr up, lower_all process children sc = inr (sc', cr, up) →
                    balanced cr ∧ Forall is_binding up).
    { induction children as [|n children IHc].
      - intros ? ? ? ? [= <- <- <-]. split; constructor.
      - apply Hcons; [apply IH|apply IHc]. }
    destruct (lower_all process children _) as [|[[sc1 cr1] up1]] eqn:E1; [done|].
    intros [= <- <- <-]. destruct (Hch _ _ _ _ E1) as [Hb Hu]. split.
    + constructor; [done|constructor].
    + apply Forall_app. split; [|done]. apply Forall_fmap, Forall_true. done.
  - cbn [lower]. unfold Scope_allocateId. intros [= <- <- <-].
    split; repeat constructor.
  - cbn [lower]. unfold Scope_allocateId.
    destruct (unwrapped value); try done. intros [= <- <- <-].
    split; repeat constructor.
  - rewrite lower_Template.
    assert (Hch : ∀ sc sc' cr up, lower_all process children sc = inr (sc', cr, up) →
                    balanced cr ∧ Forall is_binding up).
    { induction children as [|n children IHc].
      - intros ? ? ? ? [= <- <- <-]. split; constructor.
      - apply Hcons; [apply IH|apply IHc]. }
    destruct (lower_all process children _) as [|[[sc1 cr1] up1]] eqn:E1; [done|].
    intros [= <- <- <-]. destruct (Hch _ _ _ _ E1) as [Hb Hu].
    split; repeat constructor; done.
Qed.

Lemma lower_all_shape nodes : ∀ sc sc' cr up,
  lower_all process nodes sc = inr (sc', cr, up) → balanced cr ∧ Forall is_binding up.
Proof.
  induction nodes as [|n nodes IH]; intros sc sc' cr up.
  { intros [= <- <- <-]. split; constructor. }
  rewrite lower_all_cons.
  destruct (lower process n sc) as [|[[sc1 cr1] up1]] eqn:E1; [done|].
  destruct (lower_all process nodes sc1) as [|[[sc2 cr2] up2]] eqn:E2; [done|].
  intros [= <- <- <-]. destruct (lower_shape _ _ _ _ _ E1), (IH _ _ _ _ E2).
  split; [by apply balanced_app|by apply Forall_app].
Qed.



End ReferenceFunction.

Section RefinementTheorems.
Context {IrExpr : Type} (process : AST → IrExpr).

#[local] Abbreviation ST := (@CS IrExpr).
#[local] Abbreviation W := (@World IrExpr).

(** X19: lowering a node of the template does what the function [lower]
    says, from any state in which the two lists of the converter are well
    formed.  When the function gives an error, the visit throws it.
    Otherwise the visit returns, in the scope computed, and has appended
    to the create list and to the update list new nodes that have the
    values emitted, in their order; the lists of a nested template are
    lists of their own that hold the values emitted for its children.  In
    both cases the nodes allocated before keep their fields, and, the
    nodes of the two lists apart, their links. *)
Theorem Node_visit_refines_lower node (s : ST) cs us :
  lists_ok s cs us →
  lowered s cs us (Node_visit process node s) (lower process node (scope s.1)).
Proof. apply Node_visit_lowered. Qed.

Lemma parse_run input name (w : W) :
  parse process input name w =
  match for_each input (Node_visit process) (new_converter, w) with
  | (Ok _, (c, w')) =>
      (Ok {| root_create := create c; root_update := update c;
             root_scope := scope c; root_name := Some name |}, w')
  | (Throw msg, (_, w')) => (Throw msg, w')
  | (TypeError, (_, w')) => (TypeError, w')
  | (OutOfFuel, (_, w')) => (OutOfFuel, w')
  end.
Proof.
  unfold parse, parseRoot, mbind, M_bind, bind, new_converter.
  by destruct (for_each input (Node_visit process) _) as [[] []].
Qed.

Lemma parse_lowered input name (w : W) :
  frame w (parse process input name w).2 [] [] ∧
  match lower_all process input Scope_root with
  | inl msg => (parse process input name w).1 = Throw msg
  | inr (sc, cr, up) =>
      ∃ root,
        (parse process input name w).1 = Ok root ∧
        root_scope root = sc ∧ root_name root = Some name ∧
        holds (parse process input name w).2 (root_create root) cr ∧
        holds (parse process input name w).2 (root_update root) up
  end.
Proof.
  rewrite parse_run.
  assert (Hok : lists_ok (new_converter, w) [] []) by (by apply lists_ok_nil).
  destruct (for_each_lowered process input (new_converter, w) [] [] Hok) as [Hfr H].
  cbn [fst snd new_converter scope] in Hfr, H.
  destruct (for_each input (Node_visit process) (new_converter, w)) as [r [c w']].
  cbn [fst snd] in *.
  destruct (lower_all process input Scope_root) as [msg|[[sc cr] up]].
  { subst r. done. }
  destruct H as (-> & Hsc & cs & us & Fc & Fu & (Hc & Hu & _) & Hcs & Hus & _).
  cbn [fst snd app] in *. split; [done|].
  eexists. split; [done|]. cbn [root_scope root_name root_create root_update].
  split_and!; [done..| |].
  - by exists cs, Fc.
  - by exists us, Fu.
Qed.

(** X20: [parse(input, name)] does what the function [lower_all] says from
    the root scope.  When the function gives an error, [parse] throws it.
    Otherwise [parse] returns a root template with the given name and the
    scope computed, whose create list and update list hold the values
    emitted.  In both cases no node that was allocated before the call has
    its fields or its links changed. *)
Theorem parse_refines_lower input name (w : W) :
  frame w (parse process input name w).2 [] [] ∧
  match lower_all process input Scope_root with
  | inl msg => (parse process input name w).1 = Throw msg
  | inr (sc, cr, up) =>
      ∃ root,
        (parse process input name w).1 = Ok root ∧
        root_scope root = sc ∧ root_name root = Some name ∧
        holds (parse process input name w).2 (root_create root) cr ∧
        holds (parse process input name w).2 (root_update root) up
  end.
Proof. apply parse_lowered. Qed.

(** X21: whenever [parse] returns, the create list of the root template is
    well nested: every element-start node is closed by the element-end
    node of the same id, with a well-nested sequence between the two, and
    so is the create list of every nested template; the update lists hold
    bindings only. *)
Theorem parse_well_nested input name (w w' : W) root :
  parse process input name w = (Ok root, w') →
  ∃ cr up,
    holds w' (root_create root) cr ∧ holds w' (root_update root) up ∧
    balanced cr ∧ Forall is_binding up.
Proof.
  intros Hrun. destruct (parse_lowered input name w) as [_ H].
  rewrite Hrun in H. cbn [fst snd] in H.
  destruct (lower_all process input Scope_root) as [msg|[[sc cr] up]] eqn:E; [done|].
  destruct H as (root' & [= <-] & _ & _ & Hc & Hu).
  destruct (lower_all_shape process _ _ _ _ _ E) as [Hb Hbind].
  by exists cr, up.
Qed.

(** The nested template example of the spec: a [template] wrapper with the
    one child [{{y}}] gives, in the create list of the root, a single
    template node, whose create list is [text(0, no value)] and whose
    update list is [text-interpolation(0, process y)] with two empty
    separator strings.  The text is numbered by the scope of the template,
    which counts from 0; the template itself has the first id of the root
    scope. *)
Lemma nested_template_example (w : W) :
  ∃ root w',
    parse process
      [tmpl.Template "template" [] [] [tmpl.BoundText example_interpolation]]
      "example" w = (Ok root, w') ∧
    holds w' (root_create root)
      [IrTemplate 0 "template" [IrText 0 None]
         [IrTextInterpolate 0
            {| interp_expressions := [process example_y];
               interp_strings := [EmptyString; EmptyString] |}]
         None] ∧
    holds w' (root_update root) [].
Proof.
  destruct (parse_lowered
              [tmpl.Template "template" [] [] [tmpl.BoundText example_interpolation]]
              "example" w) as [_ H].
  destruct (parse process _ "example" w) as [r w']. cbn [fst snd] in H.
  destruct H as (root & -> & _ & _ & Hc & Hu). by exists root, w'.
Qed.


End RefinementTheorems.

Section RefinementIds.
Context {IrExpr : Type} (process : AST → IrExpr).

#[local] Abbreviation ST := (@CS IrExpr).
#[local] Abbreviation W := (@World IrExpr).












End RefinementIds.

(** ** The further properties at concrete inputs *)

Ltac concrete_notin := apply (bool_decide_unpack _); vm_compute; exact I.

Lemma insertBefore_inserts_witness :
  is_list list123 ([1%positive] ++ 2%positive :: [3%positive]) ∧
  4%positive ∉ [1%positive] ++ 2%positive :: [3%positive] ∧
  toArray (insertBefore 2 4 list123) = [1; 4; 2; 3]%positive.
Proof.
  assert (H : is_list list123 ([1%positive] ++ 2%positive :: [3%positive]))
    by concrete_is_list.
  assert (Hn : 4%positive ∉ [1%positive] ++ 2%positive :: [3%positive])
    by concrete_notin.
  split_and!; [exact H|exact Hn|].
  exact (proj1 (proj2 (insertBefore_inserts [1%positive] 2 [3%positive] 4 list123 H Hn))).
Defined.

Lemma insertAfter_inserts_witness :
  is_list list123 ([1%positive] ++ 2%positive :: [3%positive]) ∧
  4%positive ∉ [1%positive] ++ 2%positive :: [3%positive] ∧
  toArray (insertAfter 2 4 list123) = [1; 2; 4; 3]%positive.
Proof.
  assert (H : is_list list123 ([1%positive] ++ 2%positive :: [3%positive]))
    by concrete_is_list.
  assert (Hn : 4%positive ∉ [1%positive] ++ 2%positive :: [3%positive])
    by concrete_notin.
  split_and!; [exact H|exact Hn|].
  exact (proj1 (proj2 (insertAfter_inserts [1%positive] 2 [3%positive] 4 list123 H Hn))).
Defined.

Lemma append_appends_witness :
  is_list list123 [1; 2; 3]%positive ∧
  4%positive ∉ [1; 2; 3]%positive ∧
  list123.2 !!! 4%positive = FRESH_NODE ∧
  toArray (append 4 list123) = [1; 2; 3; 4]%positive.
Proof.
  assert (H : is_list list123 [1; 2; 3]%positive) by concrete_is_list.
  assert (Hn : 4%positive ∉ [1; 2; 3]%positive) by concrete_notin.
  assert (Hf : list123.2 !!! 4%positive = FRESH_NODE) by (vm_compute; reflexivity).
  split_and!; [exact H|exact Hn|exact Hf|].
  exact (proj1 (proj2 (append_appends [1; 2; 3]%positive 4 list123 H Hn Hf))).
Defined.

Lemma remove_unlinks_witness :
  is_list list1234 ([1%positive] ++ 2%positive :: [3; 4]%positive) ∧
  ∃ s', remove 2 list1234 = (Ok (Some 3%positive), s') ∧
        toArray s' = [1; 3; 4]%positive ∧ s'.2 !!! 2%positive = FRESH_NODE.
Proof.
  assert (H : is_list list1234 ([1%positive] ++ 2%positive :: [3; 4]%positive))
    by concrete_is_list.
  split; [exact H|].
  destruct (remove_unlinks [1%positive] 2 [3; 4]%positive list1234 H)
    as (s' & Hrun & _ & Harr & _ & Hf).
  - left. discriminate.
  - by exists s'.
Defined.

Lemma remove_twice_throws_witness :
  is_list list123 ([] ++ 1%positive :: [2; 3]%positive) ∧
  ∃ s', remove 1 list123 = (Ok (Some 2%positive), s') ∧
        remove 1 s' =
          (Throw "AssertionError: non-head node has null prev pointer", s').
Proof.
  assert (H : is_list list123 ([] ++ 1%positive :: [2; 3]%positive))
    by concrete_is_list.
  split; [exact H|].
  exact (remove_twice_throws [] 1 [2; 3]%positive list123 H).
Defined.

Lemma insertAfter_remove_restores_witness :
  is_list list123 ([1%positive] ++ 2%positive :: [3%positive]) ∧
  4%positive ∉ [1%positive] ++ 2%positive :: [3%positive] ∧
  list123.2 !!! 4%positive = FRESH_NODE ∧
  ∃ s', remove 4 (insertAfter 2 4 list123) = (Ok (Some 3%positive), s') ∧
        s'.1 = list123.1 ∧ same_links list123.2 s'.2.
Proof.
  assert (H : is_list list123 ([1%positive] ++ 2%positive :: [3%positive]))
    by concrete_is_list.
  assert (Hn : 4%positive ∉ [1%positive] ++ 2%positive :: [3%positive])
    by concrete_notin.
  assert (Hf : list123.2 !!! 4%positive = FRESH_NODE) by (vm_compute; reflexivity).
  split_and!; [exact H|exact Hn|exact Hf|].
  exact (insertAfter_remove_restores [1%positive] 2 [3%positive] 4 list123 H Hn Hf).
Defined.

Lemma insertBefore_remove_restores_witness :
  is_list list123 ([1%positive] ++ 2%positive :: [3%positive]) ∧
  4%positive ∉ [1%positive] ++ 2%positive :: [3%positive] ∧
  list123.2 !!! 4%positive = FRESH_NODE ∧
  ∃ s', remove 4 (insertBefore 2 4 list123) = (Ok (Some 2%positive), s') ∧
        s'.1 = list123.1 ∧ same_links list123.2 s'.2.
Proof.
  assert (H : is_list list123 ([1%positive] ++ 2%positive :: [3%positive]))
    by concrete_is_list.
  assert (Hn : 4%positive ∉ [1%positive] ++ 2%positive :: [3%positive])
    by concrete_notin.
  assert (Hf : list123.2 !!! 4%positive = FRESH_NODE) by (vm_compute; reflexivity).
  split_and!; [exact H|exact Hn|exact Hf|].
  apply (insertBefore_remove_restores [1%positive] 2 [3%positive] 4 list123 H);
    [discriminate|exact Hn|exact Hf].
Defined.

Lemma append_remove_restores_witness :
  is_list list123 [1; 2; 3]%positive ∧
  4%positive ∉ [1; 2; 3]%positive ∧
  list123.2 !!! 4%positive = FRESH_NODE ∧
  ∃ s', remove 4 (append 4 list123) = (Ok None, s') ∧
        s'.1 = list123.1 ∧ same_links list123.2 s'.2.
Proof.
  assert (H : is_list list123 [1; 2; 3]%positive) by concrete_is_list.
  assert (Hn : 4%positive ∉ [1; 2; 3]%positive) by concrete_notin.
  assert (Hf : list123.2 !!! 4%positive = FRESH_NODE) by (vm_compute; reflexivity).
  split_and!; [exact H|exact Hn|exact Hf|].
  exact (append_remove_restores [1; 2; 3]%positive 4 list123 H Hn Hf).
Defined.

Lemma prependList_argument_shares_witness :
  is_list two_lists.1 [1%positive] ∧
  is_list (two_lists.2, two_lists.1.2) [2; 3]%positive ∧
  toArray (two_lists.2, (prependList two_lists.2 two_lists.1).2) = [2; 3; 1]%positive ∧
  ¬ invariants (two_lists.2, (prependList two_lists.2 two_lists.1).2).
Proof.
  assert (H1 : is_list two_lists.1 [1%positive]) by concrete_is_list.
  assert (H2 : is_list (two_lists.2, two_lists.1.2) [2; 3]%positive) by concrete_is_list.
  split_and!; [exact H1|exact H2|..].
  all: destruct (prependList_argument_shares two_lists.2 two_lists.1
                   [1%positive] [2; 3]%positive H1 H2) as (_ & Harr & Hinv);
    [intros y Hy; apply (bool_decide_unpack _);
     repeat (apply elem_of_cons in Hy as [->|Hy]; [vm_compute; exact I|]);
     by apply elem_of_nil in Hy
    |discriminate|discriminate|].
  - exact Harr.
  - exact Hinv.
Defined.

Lemma toString_joins_witness :
  is_list list123 [1; 2; 3]%positive ∧
  toString 3 digits list123 = Ok (String.concat LF ["1"; "2"; "2"]).
Proof.
  assert (H : is_list list123 [1; 2; 3]%positive) by concrete_is_list.
  split; [exact H|].
  exact (toString_joins digits list123 [1; 2; 3]%positive 3 H (le_n 3)).
Defined.

Lemma forEach_visits_in_order_witness :
  is_list list123 [1; 2; 3]%positive ∧ keeps_list push ∧
  forEach 3 push (list123, []) = (Ok tt, (list123, [1; 2; 3]%positive)).
Proof.
  assert (H : is_list list123 [1; 2; 3]%positive) by concrete_is_list.
  assert (Hk : keeps_list push) by (intros n s; reflexivity).
  split_and!; [exact H|exact Hk|].
  rewrite (forEach_visits_in_order push (list123, []) [1; 2; 3]%positive 3 H Hk (le_n 3)).
  reflexivity.
Defined.

Lemma toArray_forEach_push_witness :
  is_list list123 [1; 2; 3]%positive ∧
  forEach (S (size list123.2)) push (list123, []) = (Ok tt, (list123, toArray list123)).
Proof.
  assert (H : is_list list123 [1; 2; 3]%positive) by concrete_is_list.
  split; [exact H|].
  exact (proj1 (toArray_forEach_push list123 [1; 2; 3]%positive H)).
Defined.

Lemma forEach_remove_stops_witness :
  is_list list123 (1%positive :: [2; 3]%positive) ∧
  ∃ s', forEach 5 remove_cb (list123, tt) = (Ok tt, (s', tt)) ∧
        head s'.1 = Some 2%positive.
Proof.
  assert (H : is_list list123 (1%positive :: [2; 3]%positive)) by concrete_is_list.
  split; [exact H|].
  destruct (forEach_remove_stops 1 [2; 3]%positive list123 tt 4 H)
    as (s' & _ & Hrun & Hh).
  by exists s'.
Defined.

Lemma applyTransform_identity_visit_witness :
  is_list list123 [1; 2; 3]%positive ∧
  ∃ s',
    applyTransform 3
      {| visitList := None; visit := Some same_node; finalize := None |} list123
      = (Ok tt, s') ∧
    s'.1 = list123.1 ∧ same_links list123.2 s'.2.
Proof.
  assert (H : is_list list123 [1; 2; 3]%positive) by concrete_is_list.
  split; [exact H|].
  destruct (applyTransform_identity_visit [1; 2; 3]%positive list123 3 H (le_n 3))
    as (s' & Hrun & E1 & E2 & _).
  by exists s'.
Defined.

Lemma sortSubset_sorted_unchanged_witness :
  is_list list1234 ([1%positive] ++ [2; 3]%positive ++ [4%positive]) ∧
  non_decreasing ascending [2; 3]%positive ∧
  ∃ s', sortSubset 2 2 3 ascending list1234 = (Ok (2%positive, 3%positive), s') ∧
        toArray s' = toArray list1234.
Proof.
  assert (H : is_list list1234 ([1%positive] ++ [2; 3]%positive ++ [4%positive]))
    by concrete_is_list.
  assert (Hs : non_decreasing ascending [2; 3]%positive).
  { intros a b Hab. unfold before in Hab. unfold not_less, ascending.
    apply sublist_cons_l in Hab as (k1 & k2 & E1 & Hab).
    apply sublist_cons_l in Hab as (k3 & k4 & E2 & _).
    destruct k1 as [|x1 [|x2 [|]]]; simplify_eq/=;
      destruct k3 as [|y1 [|]]; simplify_eq/=; lia. }
  split_and!; [exact H|exact Hs|].
  destruct (sortSubset_sorted_unchanged ascending [1%positive] [2; 3]%positive
              [4%positive] 2 3 list1234 2 H eq_refl eq_refl (le_n 2) Hs)
    as (s' & Hrun & _ & Harr).
  by exists s'.
Defined.

Lemma sortSubset_idempotent_witness :
  is_list list1234 ([1%positive] ++ [2; 3]%positive ++ [4%positive]) ∧
  strict_order descending ∧
  ∃ start' end' s' s'',
    sortSubset 2 2 3 descending list1234 = (Ok (start', end'), s') ∧
    sortSubset 2 start' end' descending s' = (Ok (start', end'), s'') ∧
    toArray s'' = toArray s'.
Proof.
  assert (H : is_list list1234 ([1%positive] ++ [2; 3]%positive ++ [4%positive]))
    by concrete_is_list.
  assert (Hs : strict_order descending).
  { split; [intros a|intros a b c]; unfold descending; lia. }
  split_and!; [exact H|exact Hs|].
  exact (sortSubset_idempotent descending [1%positive] [2; 3]%positive
           [4%positive] 2 3 list1234 2 H eq_refl eq_refl (le_n 2) Hs).
Defined.

Lemma sortSubset_end_not_after_start_witness :
  is_list list123 ([1%positive] ++ 2%positive :: [3%positive]) ∧
  ∃ s', sortSubset 2 2 1 descending list123 = (TypeError, s') ∧
        toArray s' = [1; 3; 2]%positive.
Proof.
  assert (H : is_list list123 ([1%positive] ++ 2%positive :: [3%positive]))
    by concrete_is_list.
  split; [exact H|].
  destruct (sortSubset_end_not_after_start descending [1%positive] 2 [3%positive] 1
              list123 2 H) as (s' & Hrun & _ & Harr).
  - discriminate.
  - concrete_notin.
  - simpl. lia.
  - by exists s'.
Defined.

Lemma operations_keep_invariants_witness :
  is_list (new_LinkedList, ∅) [] ∧ ops_ok example_ops (new_LinkedList, ∅) ∧
  ∃ s', for_each example_ops run_op (new_LinkedList, ∅) = (Ok tt, s') ∧ invariants s'.
Proof.
  assert (H : is_list (new_LinkedList, ∅) []) by (split; [constructor|done]).
  assert (Hok : ops_ok example_ops (new_LinkedList, ∅)).
  { unfold example_ops.
    cbn [ops_ok precondition removes_head_with_successor]. unfold detached, member.
    split_and!; try done; try (by intros []);
      try (apply (bool_decide_unpack _); vm_compute; exact I). }
  split_and!; [exact H|exact Hok|].
  exact (operations_keep_invariants example_ops (new_LinkedList, ∅) [] 6 H Hok).
Defined.

Lemma remove_head_leaves_stale_prev_witness :
  is_list list123 (1%positive :: 2%positive :: [3%positive]) ∧
  ∃ s', remove 1 list123 = (Ok (Some 2%positive), s') ∧
        toArray s' = [2; 3]%positive ∧
        prev (s'.2 !!! 2%positive) = Some 1%positive ∧
        ¬ invariants s'.
Proof.
  assert (H : is_list list123 (1%positive :: 2%positive :: [3%positive]))
    by concrete_is_list.
  split; [exact H|].
  destruct (remove_head_leaves_stale_prev 1 2 [3%positive] list123 H)
    as (s' & Hrun & _ & _ & Harr & _ & Hp & Hinv).
  by exists s'.
Defined.

Lemma Node_visit_refines_lower_witness :
  lists_ok (new_converter, @World_empty AST) [] [] ∧
  lowered (new_converter, @World_empty AST) [] []
    (Node_visit same_expr example_nested (new_converter, World_empty))
    (lower same_expr example_nested Scope_root).
Proof.
  split; [apply new_converter_ok|].
  apply (Node_visit_refines_lower same_expr example_nested
           (new_converter, World_empty) [] []).
  apply new_converter_ok.
Defined.

Lemma parse_well_nested_witness :
  ∃ root w',
    parse same_expr [example_nested; example_div] "t" World_empty = (Ok root, w') ∧
    ∃ cr up,
      holds w' (root_create root) cr ∧ holds w' (root_update root) up ∧
      balanced cr ∧ Forall is_binding up.
Proof.
  eexists _, _. split; [vm_compute; reflexivity|].
  eapply (parse_well_nested same_expr [example_nested; example_div] "t" World_empty).
  vm_compute. reflexivity.
Defined.



